(** * atom-languageclient: a shallow embedding of the request, session,
      diagnostics, completion and edit layers, with the properties the
      specification states about them.

    Conventions.  JavaScript objects that are compared by identity
    (connections, servers, token sources, suggestions) are natural-number
    references into an explicit store.  A [WeakMap] keyed by such objects
    is a [gmap nat _].  Promises are modelled by their settled outcome
    ([Resolved] or [Rejected]); the work that runs while a promise is
    awaited is a state transformer, so anything that happens during the
    await is part of it.  Observable effects (log lines, notifications,
    requests sent to the server) are appended to an event trace. *)

From Stdlib Require Import ZArith NArith QArith_base Lia Bool Ascii.
From stdpp Require Import base option list gmap strings pretty.

Local Open Scope Z_scope.
Local Open Scope nat_scope.

(** The settled outcome of a promise. *)
Inductive outcome (T : Type) : Type :=
  | Resolved (value : T)
  | Rejected (reason : string).
Arguments Resolved {T} value.
Arguments Rejected {T} reason.

(* ================================================================== *)
(** * utils.ts: cancellation tokens *)
(* ================================================================== *)

Module Cancellation.

Section registry.
(** [W] is the rest of the program's state, which the work wrapped by
    [doWithCancellationToken] may read and write. *)
Context {W : Type}.

(** The store of [CancellationTokenSource] objects: the source with
    reference [r] is [sources !! r]; the boolean is
    [token.isCancellationRequested].  [tokens] is the [WeakMap] from a
    key object to its source, and [cancelCalls] records every call of
    [CancellationTokenSource.cancel], oldest first. *)
Record state := State {
  sources : list bool;
  tokens : gmap nat nat;
  cancelCalls : list nat;
  world : W
}.

(** [token.isCancellationRequested] of the source [r]. *)
Definition isCancellationRequested (st : state) (r : nat) : bool :=
  default false (sources st !! r).

(** [source.cancel()]. *)
Definition cancel (r : nat) (st : state) : state :=
  State (<[r := true]> (sources st)) (tokens st) (cancelCalls st ++ [r]) (world st).

(** [new CancellationTokenSource()]: the new reference and the store
    that holds it. *)
Definition newCancellationTokenSource (st : state) : nat * state :=
  (length (sources st),
   State (sources st ++ [false]) (tokens st) (cancelCalls st) (world st)).

(** [cancellationTokens.set(key, source)]. *)
Definition setToken (key r : nat) (st : state) : state :=
  State (sources st) (<[key := r]> (tokens st)) (cancelCalls st) (world st).

(** [cancellationTokens.delete(key)]. *)
Definition deleteToken (key : nat) (st : state) : state :=
  State (sources st) (delete key (tokens st)) (cancelCalls st) (world st).

(** [cancelAndRefreshCancellationToken(key, cancellationTokens)]. *)
Definition cancelAndRefreshCancellationToken (key : nat) (st : state)
  : nat * state :=
  let st1 :=
    match tokens st !! key with
    | Some cancellationToken =>
        if negb (isCancellationRequested st cancellationToken)
        then cancel cancellationToken st
        else st
    | None => st
    end in
  let '(cancellationToken, st2) := newCancellationTokenSource st1 in
  (cancellationToken, setToken key cancellationToken st2).

(** [doWithCancellationToken(key, cancellationTokens, work)].  [work]
    receives the token and the state at the time it is called and yields
    the outcome of its promise together with the state at the time the
    promise settles.  A rejection propagates out of the [await], so the
    statements after it do not run. *)
Definition doWithCancellationToken {T} (key : nat)
    (work : nat → state → outcome T * state) (st : state)
  : outcome T * state :=
  let '(token, st1) := cancelAndRefreshCancellationToken key st in
  match work token st1 with
  | (Resolved result, st2) => (Resolved result, deleteToken key st2)
  | (Rejected err, st2) => (Rejected err, st2)
  end.

(** Every registered source has been allocated. *)
Definition wf (st : state) : Prop :=
  map_Forall (λ _ r, r < length (sources st)) (tokens st).

(** A source is live when it is allocated and not cancelled. *)
Definition live (st : state) (r : nat) : Prop := sources st !! r = Some false.

(** [issued] lists the (key, token) pairs handed out so far; of the
    tokens handed out for one key, only the registered one may be live. *)
Definition one_live_per_key (issued : list (nat * nat)) (st : state) : Prop :=
  Forall (λ kr, live st kr.2 → tokens st !! kr.1 = Some kr.2) issued.

(** Every issued token has been allocated. *)
Definition allocated (issued : list (nat * nat)) (st : state) : Prop :=
  Forall (λ kr, kr.2 < length (sources st)) issued.

(** The [cancel] calls a refresh for [key] makes. *)
Definition expected_cancels (key : nat) (st : state) : list nat :=
  match tokens st !! key with
  | Some old => if isCancellationRequested st old then [] else [old]
  | None => []
  end.

(** Run a sequence of refreshes, collecting the issued pairs (newest first). *)
Fixpoint refreshAll (keys : list nat) (st : state) : list (nat * nat) * state :=
  match keys with
  | [] => ([], st)
  | key :: rest =>
      let '(r, st1) := cancelAndRefreshCancellationToken key st in
      let '(issued, st2) := refreshAll rest st1 in
      (issued ++ [(key, r)], st2)
  end.

End registry.
Arguments state : clear implicits.

(** A registry in which key 7 holds the live source 0, after an earlier
    source 1 issued for the same key was cancelled. *)
Definition example_state : state unit := State [false; true] {[ 7 := 0 ]} [1] tt.
Definition example_issued : list (nat * nat) := [(7, 0); (7, 1)].

End Cancellation.

(* ================================================================== *)
(** * auto-languageclient.ts: session restart and RPC connection *)
(* ================================================================== *)

Module Session.

(** What the client does that the outside can see. *)
Inductive event :=
  | StopServer (projectPath : string)
  | StartServer (projectPath : string)
  | LogDebug (message : string)
  | LogWarn (message : string)
  | LogError (message : string)
  | AddError (message : string).

#[global] Instance event_eq_dec : EqDecision event.
Proof. solve_decision. Defined.

(** The part of the client and of its server manager that the close
    handler reads and writes: the deactivation flag, the manager's count
    of restarts per project path, and the trace of events. *)
Record state := State {
  _isDeactivating : bool;
  restartCounters : gmap string nat;
  trace : list event
}.

Definition emit (e : event) (st : state) : state :=
  State (_isDeactivating st) (restartCounters st) (trace st ++ [e]).

(** Modelled from the spec: [ServerManager.stopServer] and
    [ServerManager.startServer] (server-manager.ts is not among the
    sources).  Both are recorded as events. *)
Definition stopServer (projectPath : string) : state → state :=
  emit (StopServer projectPath).
Definition startServer (projectPath : string) : state → state :=
  emit (StartServer projectPath).

(** Modelled from the spec: [ServerManager.hasServerReachedRestartLimit]
    (server-manager.ts is not among the sources).  The restart budget is
    a counter of consecutive unexpected terminations of one project
    root; the call counts the termination and answers whether the
    budget, [budget] terminations, is exhausted, so that the
    ([budget] + 1)-th termination is the first one to be refused. *)
Definition hasServerReachedRestartLimit (budget : nat) (projectPath : string)
    (st : state) : bool * state :=
  let restarts := S (default 0 (restartCounters st !! projectPath)) in
  (bool_decide (budget < restarts),
   State (_isDeactivating st) (<[projectPath := restarts]> (restartCounters st))
         (trace st)).

Definition restartingMessage (projectPath : string) : string :=
  "Restarting language server for project '" +:+ projectPath +:+ "'".

Definition exceededMessage (projectPath : string) : string :=
  "Language server has exceeded auto-restart limit for project '"
    +:+ projectPath +:+ "'".

Definition exitedMessage (name projectPath : string) : string :=
  "The " +:+ name +:+
  " language server has exited because it exceeded the restart limit for project '"
    +:+ projectPath +:+ "'.".

(** The handler [startServer] registers with [connection.on("close", ...)]
    for the server of [projectPath]; [name] is [this.name]. *)
Definition onConnectionClose (budget : nat) (name projectPath : string)
    (st : state) : state :=
  if _isDeactivating st then st
  else
    let st := stopServer projectPath st in
    let '(reached, st) := hasServerReachedRestartLimit budget projectPath st in
    if negb reached then
      let st := emit (LogDebug (restartingMessage projectPath)) st in
      startServer projectPath st
    else
      let st := emit (LogWarn (exceededMessage projectPath)) st in
      emit (AddError (exitedMessage name projectPath)) st.

(** [n] unexpected terminations in a row of the server of one root. *)
Fixpoint terminations (budget : nat) (name projectPath : string) (n : nat)
    (st : state) : state :=
  match n with
  | 0 => st
  | S n =>
      onConnectionClose budget name projectPath
        (terminations budget name projectPath n st)
  end.

(** The events one termination adds when it restarts the server, and
    when it gives up. *)
Definition restartEvents (projectPath : string) : list event :=
  [StopServer projectPath; LogDebug (restartingMessage projectPath);
   StartServer projectPath].
Definition giveUpEvents (name projectPath : string) : list event :=
  [StopServer projectPath; LogWarn (exceededMessage projectPath);
   AddError (exitedMessage name projectPath)].

Definition isStartServer (e : event) : bool :=
  match e with StartServer _ => true | _ => false end.
Definition isAddError (e : event) : bool :=
  match e with AddError _ => true | _ => false end.

(** ** createRpcConnection *)

Inductive ConnectionType := ipc | socket | stdio.

(** A spawned process: its handles are stream references, [None] where
    the process has no such handle ([null]). *)
Record LanguageServerProcess := {
  pid : nat;
  stdin : option nat;
  stdout : option nat
}.

Inductive MessageReader :=
  | IPCMessageReader (process : nat)
  | SocketMessageReader (sock : nat)
  | StreamMessageReader (stream : nat).

Inductive MessageWriter :=
  | IPCMessageWriter (process : nat)
  | SocketMessageWriter (sock : nat)
  | StreamMessageWriter (stream : nat).

(** The values [createRpcConnection] can yield at run time: a message
    connection over a reader and a writer, or a string. *)
Inductive value :=
  | MessageConnection (reader : MessageReader) (writer : MessageWriter)
  | JsString (s : string).

(** How a call ends: it returns a value or throws. *)
Inductive completion :=
  | Return (v : value)
  | Throw (error : string).

(** utils.ts, [assertUnreachable(_: never): never { return _ }]. *)
Definition assertUnreachable (x : value) : completion := Return x.

Definition noStdioMessage (languageName : string) : string :=
  "The language server process for " +:+ languageName +:+
  " does not have a valid stdin and stdout.".

(** [createRpcConnection(lsProcess)]; [connectionType] is
    [this.getConnectionType()], [sock] is [this.socket], [languageName]
    is [this.getLanguageName()].  The three cases of the switch are all
    the values of [ConnectionType], so the [default] case has no input. *)
Definition createRpcConnection (languageName : string)
    (connectionType : ConnectionType) (sock : nat)
    (lsProcess : LanguageServerProcess) (log : list event)
  : completion * list event :=
  match connectionType with
  | ipc =>
      (Return (MessageConnection (IPCMessageReader (pid lsProcess))
                                 (IPCMessageWriter (pid lsProcess))), log)
  | socket =>
      (Return (MessageConnection (SocketMessageReader sock)
                                 (SocketMessageWriter sock)), log)
  | stdio =>
      match stdin lsProcess, stdout lsProcess with
      | Some input, Some output =>
          (Return (MessageConnection (StreamMessageReader output)
                                     (StreamMessageWriter input)), log)
      | _, _ =>
          (assertUnreachable (JsString "stdio"),
           log ++ [LogError (noStdioMessage languageName)])
      end
  end.

End Session.

(* ================================================================== *)
(** * convert.ts: paths and URIs *)
(* ================================================================== *)

Module Uri.

(** A JavaScript string of well-formed Unicode is modelled by the bytes
    of its UTF-8 encoding; a sequence of bytes that is not well-formed
    UTF-8 stands for a string that is not well-formed Unicode (one with a
    lone surrogate).  All the characters the code inspects are ASCII, and
    an ASCII byte never occurs inside a multi-byte sequence, so indexing
    and replacing them agree in both views.  A function that can throw
    returns [None] when it throws. *)
Definition chars := list ascii.

Definition code (c : ascii) : N := N_of_ascii c.

Definition inRange (lo hi : N) (c : ascii) : bool :=
  ((lo <=? code c) && (code c <=? hi))%N.

Definition isAsciiUpper := inRange 65 90.
Definition isAsciiLower := inRange 97 122.
Definition isAsciiAlpha (c : ascii) : bool := isAsciiUpper c || isAsciiLower c.
Definition isAsciiDigit := inRange 48 57.
Definition isAsciiAlphanumeric (c : ascii) : bool := isAsciiAlpha c || isAsciiDigit c.

Definition isOneOf (set : string) (c : ascii) : bool :=
  existsb (Ascii.eqb c) (String.list_ascii_of_string set).

Definition toLower (c : ascii) : ascii :=
  if isAsciiUpper c then ascii_of_N (code c + 32) else c.

(** ** Hexadecimal *)

Definition hexDigit (n : N) : ascii :=
  if (n <? 10)%N then ascii_of_N (48 + n) else ascii_of_N (55 + n).

Definition hexValue (c : ascii) : option N :=
  if isAsciiDigit c then Some (code c - 48)%N
  else if inRange 65 70 c then Some (code c - 55)%N
  else if inRange 97 102 c then Some (code c - 87)%N
  else None.

(** ["%XX"] for one byte, upper-case digits. *)
Definition percentEncodeByte (c : ascii) : chars :=
  ["%"%char; hexDigit (code c / 16); hexDigit (code c mod 16)].

Definition hexByte (h1 h2 : ascii) : option ascii :=
  match hexValue h1, hexValue h2 with
  | Some a, Some b => Some (ascii_of_N (16 * a + b))
  | _, _ => None
  end.

(** ** Well-formed UTF-8 (Unicode, table 3-7) *)

Definition isContinuation := inRange 128 191.

(** The number of bytes of the sequence a byte leads and the range its
    second byte must lie in; [None] for a byte that leads no sequence. *)
Definition leadInfo (c : ascii) : option (nat * N * N) :=
  let b := code c in
  if (b <=? 127)%N then Some (1, 0%N, 0%N)
  else if (b <? 194)%N then None
  else if (b <=? 223)%N then Some (2, 128%N, 191%N)
  else if (b =? 224)%N then Some (3, 160%N, 191%N)
  else if (b =? 237)%N then Some (3, 128%N, 159%N)
  else if (b <=? 239)%N then Some (3, 128%N, 191%N)
  else if (b =? 240)%N then Some (4, 144%N, 191%N)
  else if (b <=? 243)%N then Some (4, 128%N, 191%N)
  else if (b =? 244)%N then Some (4, 128%N, 143%N)
  else None.

(** [octets] is the UTF-8 encoding of exactly one code point. *)
Definition validUtf8CodePoint (octets : chars) : bool :=
  match octets with
  | [] => false
  | b0 :: rest =>
      match leadInfo b0 with
      | Some (n, lo, hi) =>
          (length octets =? n) &&
          match rest with
          | [] => true
          | b1 :: rest' => inRange lo hi b1 && forallb isContinuation rest'
          end
      | None => false
      end
  end.

(** [s] is a sequence of encoded code points. *)
Fixpoint wellFormedFrom (pending : chars) (need : nat) (s : chars) : bool :=
  match s with
  | [] => match need with 0 => true | _ => false end
  | c :: rest =>
      match need with
      | 0 =>
          match leadInfo c with
          | Some (1, _, _) => wellFormedFrom [] 0 rest
          | Some (n, _, _) => wellFormedFrom [c] (n - 1) rest
          | None => false
          end
      | 1 => validUtf8CodePoint (pending ++ [c]) && wellFormedFrom [] 0 rest
      | S k => wellFormedFrom (pending ++ [c]) k rest
      end
  end.

Definition wellFormed (s : chars) : bool := wellFormedFrom [] 0 s.

(** ** encodeURI, encodeURIComponent, decodeURIComponent (ECMAScript) *)

Definition uriUnescaped (c : ascii) : bool :=
  isAsciiAlphanumeric c || isOneOf "-_.!~*'()" c.
Definition uriReserved (c : ascii) : bool := isOneOf ";/?:@&=+$," c.

(** [Encode(string, extraUnescaped)]: a character of the unescaped set
    stands for itself, every other code point is replaced by the escaped
    bytes of its UTF-8 encoding; a string that is not well-formed Unicode
    makes it throw. *)
Definition Encode (unescapedSet : ascii → bool) (s : chars) : option chars :=
  if wellFormed s
  then Some (flat_map (λ c, if unescapedSet c then [c] else percentEncodeByte c) s)
  else None.

Definition encodeURI : chars → option chars :=
  Encode (λ c, uriUnescaped c || uriReserved c || Ascii.eqb c "#").

Definition encodeURIComponent : chars → option chars := Encode uriUnescaped.

(** The number of leading 1 bits of a byte. *)
Definition leadingOnes (c : ascii) : nat :=
  let b := code c in
  if (b <? 128)%N then 0
  else if (b <? 192)%N then 1
  else if (b <? 224)%N then 2
  else if (b <? 240)%N then 3
  else if (b <? 248)%N then 4
  else 5.

(** [Decode(string, "")], as a machine over the characters: [need] is
    the number of escaped continuation bytes still to read for the code
    point whose first bytes are [pending]. *)
Fixpoint DecodeFrom (pending : chars) (need : nat) (s : chars) : option chars :=
  match s with
  | [] => match need with 0 => Some [] | _ => None end
  | c :: rest =>
      if Ascii.eqb c "%" then
        match rest with
        | h1 :: h2 :: rest' =>
            match hexByte h1 h2 with
            | Some b =>
                match need with
                | 0 =>
                    match leadingOnes b with
                    | 0 => cons b <$> DecodeFrom [] 0 rest'
                    | 1 => None
                    | S (S (S (S (S _)))) => None
                    | S n => DecodeFrom [b] n rest'
                    end
                | 1 =>
                    if validUtf8CodePoint (pending ++ [b])
                    then app (pending ++ [b]) <$> DecodeFrom [] 0 rest'
                    else None
                | S k => DecodeFrom (pending ++ [b]) k rest'
                end
            | None => None
            end
        | _ => None
        end
      else
        match need with
        | 0 => cons c <$> DecodeFrom [] 0 rest
        | _ => None
        end
  end.

Definition decodeURIComponent (s : chars) : option chars := DecodeFrom [] 0 s.

(** ** The URL parser (WHATWG URL), with the base URL ["file://"] *)

(** The parts of the platform the model leaves open: whether the
    process runs on Windows, the host parser applied to a host of a
    [file] URL ([true] when it accepts), and the rest of the URL parser
    applied to what follows a scheme other than [file] ([true] when it
    accepts). *)
Record platform := Platform {
  win32 : bool;
  hostAccepted : chars → bool;
  otherSchemeAccepted : chars → chars → bool
}.

(** A parsed URL: of the [file] scheme with its path segments, or of
    another scheme. *)
Inductive URL :=
  | FileURL (path : list chars)
  | OtherURL (scheme : chars).

Definition protocol (u : URL) : chars :=
  match u with
  | FileURL _ => String.list_ascii_of_string "file:"
  | OtherURL scheme => scheme ++ [":"%char]
  end.

(** The path serializer: every segment preceded by ["/"]. *)
Definition serializePath (path : list chars) : chars :=
  flat_map (λ segment, "/"%char :: segment) path.

Definition isC0ControlOrSpace (c : ascii) : bool := (code c <=? 32)%N.
Definition isTabOrNewline (c : ascii) : bool :=
  ((code c =? 9) || (code c =? 10) || (code c =? 13))%N.

Fixpoint dropWhile {A} (p : A → bool) (l : list A) : list A :=
  match l with
  | [] => []
  | x :: rest => if p x then dropWhile p rest else l
  end.

(** Leading and trailing C0 control or space removed, then every tab
    and newline. *)
Definition preprocess (input : chars) : chars :=
  let stripped := rev (dropWhile isC0ControlOrSpace
                         (rev (dropWhile isC0ControlOrSpace input))) in
  List.filter (λ c, negb (isTabOrNewline c)) stripped.

Definition isSlash (c : ascii) : bool := Ascii.eqb c "/" || Ascii.eqb c "\".

Definition isWindowsDriveLetter (buffer : chars) : bool :=
  match buffer with
  | [a; b] => isAsciiAlpha a && (Ascii.eqb b ":" || Ascii.eqb b "|")
  | _ => false
  end.

Definition isNormalizedWindowsDriveLetter (buffer : chars) : bool :=
  match buffer with
  | [a; b] => isAsciiAlpha a && Ascii.eqb b ":"
  | _ => false
  end.

Definition startsWithWindowsDriveLetter (s : chars) : bool :=
  match s with
  | a :: b :: rest =>
      isWindowsDriveLetter [a; b] &&
      match rest with
      | [] => true
      | c :: _ => isSlash c || Ascii.eqb c "?" || Ascii.eqb c "#"
      end
  | _ => false
  end.

(** Shorten the path of a [file] URL. *)
Definition shorten (path : list chars) : list chars :=
  match path with
  | [segment] => if isNormalizedWindowsDriveLetter segment then path else []
  | _ => removelast path
  end.

Definition lowercase (s : chars) : chars := map toLower s.

Definition chars_eqb (a b : chars) : bool := bool_decide (a = b).

Definition isSingleDot (buffer : chars) : bool :=
  let b := lowercase buffer in
  chars_eqb b (String.list_ascii_of_string ".") || chars_eqb b (String.list_ascii_of_string "%2e").

Definition isDoubleDot (buffer : chars) : bool :=
  let b := lowercase buffer in
  chars_eqb b (String.list_ascii_of_string "..") || chars_eqb b (String.list_ascii_of_string ".%2e")
  || chars_eqb b (String.list_ascii_of_string "%2e.")
  || chars_eqb b (String.list_ascii_of_string "%2e%2e").

(** The path percent-encode set: C0 controls, bytes above [~], the
    double quote (code 34), space and the characters listed. *)
Definition inPathPercentEncodeSet (c : ascii) : bool :=
  (code c <=? 31)%N || (126 <? code c)%N || (code c =? 34)%N
  || isOneOf " #<>?^`{}" c.

Definition pathPercentEncode (c : ascii) : chars :=
  if inPathPercentEncodeSet c then percentEncodeByte c else [c].

(** Path state, the step taken at the end of a segment; [atSlash] tells
    whether the character read is a slash. *)
Definition endSegment (path : list chars) (buffer : chars) (atSlash : bool)
  : list chars :=
  if isDoubleDot buffer then
    let path := shorten path in
    if atSlash then path else path ++ [[]]
  else if isSingleDot buffer && negb atSlash then path ++ [[]]
  else if negb (isSingleDot buffer) then
    match path, buffer with
    | [], [a; b] =>
        if isWindowsDriveLetter buffer then [[a; ":"%char]] else [buffer]
    | _, _ => path ++ [buffer]
    end
  else path.

(** Path state.  The query and the fragment that may follow do not
    change the path and cannot fail, so the walk ends at [?] or [#]. *)
Fixpoint pathState (path : list chars) (buffer : chars) (input : chars)
  : list chars :=
  match input with
  | [] => endSegment path buffer false
  | c :: rest =>
      if isSlash c then pathState (endSegment path buffer true) [] rest
      else if Ascii.eqb c "?" || Ascii.eqb c "#"
      then endSegment path buffer false
      else pathState path (buffer ++ pathPercentEncode c) rest
  end.

(** Path start state, for a special scheme. *)
Definition pathStartState (input : chars) : list chars :=
  match input with
  | c :: rest => if isSlash c then pathState [] [] rest else pathState [] [] input
  | [] => pathState [] [] []
  end.

(** File host state. *)
Fixpoint fileHostState (plat : platform) (buffer : chars) (input : chars)
  : option (list chars) :=
  let atEnd :=
    if isWindowsDriveLetter buffer then Some (pathState [] buffer input)
    else match buffer with
         | [] => Some (pathStartState input)
         | _ => if hostAccepted plat buffer
                then Some (pathStartState input) else None
         end in
  match input with
  | [] => atEnd
  | c :: rest =>
      if isSlash c || Ascii.eqb c "?" || Ascii.eqb c "#" then atEnd
      else fileHostState plat (buffer ++ [c]) rest
  end.

(** The path of the base URL ["file://"]. *)
Definition basePath : list chars := [[]].

(** File slash state. *)
Definition fileSlashState (plat : platform) (input : chars)
  : option (list chars) :=
  match input with
  | c :: rest =>
      if isSlash c then fileHostState plat [] rest
      else Some (pathState
                   (if negb (startsWithWindowsDriveLetter input) &&
                       isNormalizedWindowsDriveLetter (hd [] basePath)
                    then [hd [] basePath] else [])
                   [] input)
  | [] => Some (pathState [] [] [])
  end.

(** File state. *)
Definition fileState (plat : platform) (input : chars) : option (list chars) :=
  match input with
  | [] => Some basePath
  | c :: rest =>
      if isSlash c then fileSlashState plat rest
      else if Ascii.eqb c "?" || Ascii.eqb c "#" then Some basePath
      else Some (pathState
                   (if startsWithWindowsDriveLetter input then []
                    else shorten basePath)
                   [] input)
  end.

Definition isSchemeChar (c : ascii) : bool :=
  isAsciiAlphanumeric c || isOneOf "+-." c.

(** Scheme state: the scheme, in lower case, and what follows its colon;
    [None] when the input has no scheme. *)
Fixpoint schemeState (buffer : chars) (input : chars) : option (chars * chars) :=
  match input with
  | [] => None
  | c :: rest =>
      if isSchemeChar c then schemeState (buffer ++ [toLower c]) rest
      else if Ascii.eqb c ":" then Some (buffer, rest)
      else None
  end.

(** Scheme start state. *)
Definition schemeStartState (input : chars) : option (chars * chars) :=
  match input with
  | c :: rest => if isAsciiAlpha c then schemeState [toLower c] rest else None
  | [] => None
  end.

(** [new URL(input, "file://")]; [None] when it throws. *)
Definition parseURL (plat : platform) (input : chars) : option URL :=
  let input := preprocess input in
  match schemeStartState input with
  | Some (scheme, rest) =>
      if chars_eqb scheme (String.list_ascii_of_string "file")
      then FileURL <$> fileState plat rest
      else if otherSchemeAccepted plat scheme rest
           then Some (OtherURL scheme) else None
  | None => FileURL <$> fileState plat input
  end.

(** ** Convert.pathToUri and Convert.uriToPath *)

(** [s.replace(/x/g, y)] for a single character [x]. *)
Definition replaceAll (x : ascii) (y : chars) (s : chars) : chars :=
  flat_map (λ c, if Ascii.eqb c x then y else [c]) s.

(** [s.replace(/[#?]/g, encodeURIComponent)]. *)
Definition escapeHashAndQuestion (s : chars) : option chars :=
  mapM (λ c, if Ascii.eqb c "#" || Ascii.eqb c "?"
             then encodeURIComponent [c] else Some [c]) s
    ≫= λ pieces, Some (concat pieces).

Definition pathToUri_chars (plat : platform) (filePath : chars) : option chars :=
  url ← parseURL plat filePath;
  if negb (chars_eqb (protocol url) (String.list_ascii_of_string "file:"))
  then Some filePath
  else
    let newPath := replaceAll "\" ["/"%char] filePath in
    let newPath :=
      match newPath with
      | c :: _ => if Ascii.eqb c "/" then newPath else "/"%char :: newPath
      | [] => "/"%char :: newPath
      end in
    encoded ← encodeURI (String.list_ascii_of_string "file://" ++ newPath);
    escapeHashAndQuestion encoded.

Definition uriToPath_chars (plat : platform) (uri : chars) : option chars :=
  url ← parseURL plat uri;
  match url with
  | OtherURL _ => Some uri
  | FileURL path =>
      filePath ← decodeURIComponent (serializePath path);
      if win32 plat then
        let filePath :=
          match filePath with
          | c :: rest => if Ascii.eqb c "/" then rest else filePath
          | [] => filePath
          end in
        Some (replaceAll "/" ["\"%char] filePath)
      else Some filePath
  end.

(** [Convert.pathToUri(filePath)]. *)
Definition pathToUri (plat : platform) (filePath : string) : option string :=
  String.string_of_list_ascii <$> pathToUri_chars plat (String.list_ascii_of_string filePath).

(** [Convert.uriToPath(uri)]. *)
Definition uriToPath (plat : platform) (uri : string) : option string :=
  String.string_of_list_ascii <$> uriToPath_chars plat (String.list_ascii_of_string uri).

(** The segments of a path that begins with a slash: the pieces between
    slashes and backslashes. *)
Fixpoint segmentsFrom (current : chars) (s : chars) : list chars :=
  match s with
  | [] => [current]
  | c :: rest =>
      if isSlash c then current :: segmentsFrom [] rest
      else segmentsFrom (current ++ [c]) rest
  end.

Definition notDot (segment : chars) : Prop :=
  segment ≠ String.list_ascii_of_string "." ∧
  segment ≠ String.list_ascii_of_string "..".

Definition noDotSegments (p : chars) : Prop :=
  Forall notDot (segmentsFrom [] p).

(** What [pathToUri] makes of one character of a path: the characters
    [encodeURI] leaves alone, less [#] and [?], stand for themselves. *)
Definition keptByPathToUri (c : ascii) : bool :=
  uriUnescaped c || isOneOf ";/:@&=+$," c.
Definition escapeChar (c : ascii) : chars :=
  if keptByPathToUri c then [c] else percentEncodeByte c.
Definition escapePath (s : chars) : chars := flat_map escapeChar s.

Definition fileScheme : chars := String.list_ascii_of_string "file://".

(** A character the URL parser's preprocessing leaves in place. *)
Definition plain (c : ascii) : Prop :=
  isC0ControlOrSpace c = false ∧ isTabOrNewline c = false.

Definition beginsWithSlash (p : string) : Prop :=
  ∃ rest, p = String "/" rest.
Definition noBackslash (p : string) : Prop :=
  Forall (λ c, c ≠ "\"%char) (String.list_ascii_of_string p).
Definition wellFormedString (p : string) : Prop :=
  wellFormed (String.list_ascii_of_string p) = true.
Definition noDotSegmentsIn (p : string) : Prop :=
  noDotSegments (String.list_ascii_of_string p).

(** A platform for examples: not Windows, every host and every other
    scheme accepted. *)
Definition posix : platform := Platform false (λ _, true) (λ _ _, true).

End Uri.

(* ================================================================== *)
(** * Points and ranges of the editor, positions and ranges of the protocol *)
(* ================================================================== *)

Module Atom.

(** [Point] of the editor's text buffer. *)
Record Point := mkPoint { row : Z; column : Z }.

#[global] Instance Point_eq_dec : EqDecision Point.
Proof. solve_decision. Defined.

(** [point.compare(other)]. *)
Definition Point_compare (a b : Point) : Z :=
  if (row b <? row a)%Z then 1%Z
  else if (row a <? row b)%Z then (-1)%Z
  else if (column b <? column a)%Z then 1%Z
  else if (column a <? column b)%Z then (-1)%Z
  else 0%Z.

Definition Point_isEqual (a b : Point) : bool :=
  (row a =? row b)%Z && (column a =? column b)%Z.
Definition Point_isLessThanOrEqual (a b : Point) : bool :=
  (Point_compare a b <=? 0)%Z.
Definition Point_isGreaterThanOrEqual (a b : Point) : bool :=
  (0 <=? Point_compare a b)%Z.

(** [Point.min] and [Point.max]. *)
Definition Point_min (a b : Point) : Point :=
  if Point_isLessThanOrEqual a b then a else b.
Definition Point_max (a b : Point) : Point :=
  if (0 <=? Point_compare a b)%Z then a else b.

(** [point.toString()]: ["(row, column)"]. *)
Definition Point_toString (p : Point) : string :=
  "(" +:+ pretty (row p) +:+ ", " +:+ pretty (column p) +:+ ")".

(** [Range] of the editor's text buffer. *)
Record Range := mkRange { start : Point; end_ : Point }.

#[global] Instance Range_eq_dec : EqDecision Range.
Proof. solve_decision. Defined.

(** [new Range(pointA, pointB)]: the constructor orders its points. *)
Definition Range_new (pointA pointB : Point) : Range :=
  if Point_isLessThanOrEqual pointA pointB
  then mkRange pointA pointB else mkRange pointB pointA.

Definition Point_isLessThan (a b : Point) : bool := (Point_compare a b <? 0)%Z.
Definition Point_isGreaterThan (a b : Point) : bool := (0 <? Point_compare a b)%Z.

(** [range.union(other)]. *)
Definition Range_union (r other : Range) : Range :=
  Range_new
    (if Point_isLessThan (start r) (start other) then start r else start other)
    (if Point_isGreaterThan (end_ r) (end_ other) then end_ r else end_ other).

(** [range.compare(other)]: by start, then by end, the longer first. *)
Definition Range_compare (r other : Range) : Z :=
  let value := Point_compare (start r) (start other) in
  if (value =? 0)%Z then Point_compare (end_ other) (end_ r) else value.

(** [range.toString()]: ["[start - end]"]. *)
Definition Range_toString (r : Range) : string :=
  "[" +:+ Point_toString (start r) +:+ " - " +:+ Point_toString (end_ r) +:+ "]".

(** [range.containsPoint(point)]. *)
Definition Range_containsPoint (r : Range) (p : Point) : bool :=
  Point_isGreaterThanOrEqual p (start r) && Point_isLessThanOrEqual p (end_ r).

End Atom.

Module Lsp.

Record Position := mkPosition { line : Z; character : Z }.
Record Range := mkRange { start : Position; end_ : Position }.

#[global] Instance Position_eq_dec : EqDecision Position.
Proof. solve_decision. Defined.
#[global] Instance Range_eq_dec : EqDecision Range.
Proof. solve_decision. Defined.

(** [TextEdit] of the protocol. *)
Record TextEdit := mkTextEdit { range : Range; newText : string }.

(** [DiagnosticSeverity]: Error = 1, Warning = 2, Information = 3,
    Hint = 4. *)
Inductive DiagnosticSeverity := Error | Warning | Information | Hint.

Definition severityNumber (s : DiagnosticSeverity) : Z :=
  match s with Error => 1 | Warning => 2 | Information => 3 | Hint => 4 end%Z.

#[global] Instance DiagnosticSeverity_eq_dec : EqDecision DiagnosticSeverity.
Proof. solve_decision. Defined.

End Lsp.

(** convert.ts, the converters between the two. *)
Module Convert.

Definition pointToPosition (point : Atom.Point) : Lsp.Position :=
  Lsp.mkPosition (Atom.row point) (Atom.column point).

Definition positionToPoint (position : Lsp.Position) : Atom.Point :=
  Atom.mkPoint (Lsp.line position) (Lsp.character position).

Definition lsRangeToAtomRange (range : Lsp.Range) : Atom.Range :=
  Atom.Range_new (positionToPoint (Lsp.start range))
                 (positionToPoint (Lsp.end_ range)).

Definition atomRangeToLSRange (range : Atom.Range) : Lsp.Range :=
  Lsp.mkRange (pointToPosition (Atom.start range))
              (pointToPosition (Atom.end_ range)).

(** [atomIde.TextEdit]. *)
Record TextEdit := mkTextEdit { oldRange : Atom.Range; newText : string }.

#[global] Instance TextEdit_eq_dec : EqDecision TextEdit.
Proof. solve_decision. Defined.

Definition convertLsTextEdit (textEdit : Lsp.TextEdit) : TextEdit :=
  mkTextEdit (lsRangeToAtomRange (Lsp.range textEdit)) (Lsp.newText textEdit).

Definition convertLsTextEdits (textEdits : option (list Lsp.TextEdit))
  : list TextEdit :=
  map convertLsTextEdit (default [] textEdits).

End Convert.

(* ================================================================== *)
(** * adapters/autocomplete-adapter.ts: the suggestion cache *)
(* ================================================================== *)

Module Autocomplete.

(** ** Protocol and provider data *)

Inductive Documentation :=
  | DocString (text : string)
  | MarkupContent (kind : string) (value : string).

(** [item.textEdit]: a [TextEdit] or an [InsertReplaceEdit]. *)
Inductive CompletionEdit :=
  | PlainEdit (range : Lsp.Range) (newText : string)
  | InsertReplaceEdit (insert replace : Lsp.Range) (newText : string).

Definition editNewText (e : CompletionEdit) : string :=
  match e with PlainEdit _ t => t | InsertReplaceEdit _ _ t => t end.

Record CompletionItem := {
  label : string;
  kind : option nat;
  detail : option string;
  documentation : option Documentation;
  sortText : option string;
  insertText : option string;
  insertTextFormat : option nat;
  textEdit : option CompletionEdit;
  additionalTextEdits : option (list Lsp.TextEdit)
}.

(** What [connection.completion] resolves to: [null], an array of
    items, or a [CompletionList]. *)
Inductive CompletionResponse :=
  | NoCompletions
  | ItemArray (items : list CompletionItem)
  | CompletionList (isIncomplete : bool) (items : list CompletionItem).

Inductive CompletionContext :=
  | Invoked
  | TriggerCharacter (triggerCharacter : string)
  | TriggerForIncompleteCompletions (triggerCharacter : string).

Record CompletionParams := {
  textDocument : string;
  position : Lsp.Position;
  context : CompletionContext
}.

(** The editor of a request: its path and the text it holds between
    two points. *)
Record TextEditor := {
  getPath : option string;
  getTextInBufferRange : Atom.Point → Atom.Point → string
}.

(** [ac.SuggestionsRequestedEvent]. *)
Record Request := {
  editor : TextEditor;
  bufferPosition : Atom.Point;
  prefix : string;
  activatedManually : bool
}.

(** A suggestion object; a property not set is [None]. *)
Record Suggestion := {
  text : option string;
  snippet : option string;
  displayText : option string;
  filterText : option string;
  type_ : option string;
  rightLabel : option string;
  description : option string;
  descriptionMarkdown : option string;
  sugTextEdit : option Convert.TextEdit;
  sugAdditionalTextEdits : option (list Convert.TextEdit);
  customReplacementPrefix : option string;
  replacementPrefix : option string;
  completionItem : option CompletionItem
}.

(** [{}]. *)
Definition emptySuggestion : Suggestion :=
  Build_Suggestion None None None None None None None None None None None None None.

(** [onDidConvertCompletionItem]: a callback that adjusts the suggestion
    it is given. *)
Definition CompletionItemAdjuster : Type :=
  CompletionItem → Suggestion → Request → Suggestion.

Record PossiblyResolvedCompletionItem := {
  prCompletionItem : CompletionItem;
  isResolved : bool
}.

(** [suggestionMap] is a [Map] from suggestion objects, in insertion
    order. *)
Record SuggestionCacheEntry := {
  isIncomplete : bool;
  triggerPoint : Atom.Point;
  originalBufferPoint : Atom.Point;
  triggerChar : string;
  suggestionMap : list (nat * PossiblyResolvedCompletionItem)
}.

(** The connection to a server: its identity and what the server
    answers to the two requests the adapter sends. *)
Record LanguageClientConnection := {
  connectionId : nat;
  completion : CompletionParams → outcome CompletionResponse;
  completionItemResolve : CompletionItem → outcome (option CompletionItem)
}.

Record ActiveServer := {
  serverId : nat;
  connection : LanguageClientConnection
}.

Inductive event :=
  | Log (message : string)
  | CompletionRequest (connection : nat) (params : CompletionParams) (token : nat)
  | ResolveRequest (connection : nat) (item : CompletionItem).

Definition isRequest (e : event) : bool :=
  match e with Log _ => false | _ => true end.

(** The adapter's state besides its cancellation tokens: the suggestion
    objects (the object with reference [r] is [suggestions !! r]), the
    cache per server and the trace of events. *)
Record world := World {
  suggestions : list Suggestion;
  _suggestionCache : gmap nat SuggestionCacheEntry;
  trace : list event
}.

Abbreviation state := (Cancellation.state world).

Definition onWorld (f : world → world) (st : state) : state :=
  Cancellation.State (Cancellation.sources st) (Cancellation.tokens st)
    (Cancellation.cancelCalls st) (f (Cancellation.world st)).

Definition emit (e : event) : state → state :=
  onWorld (λ w, World (suggestions w) (_suggestionCache w) (trace w ++ [e])).

Definition setCache (server : nat) (entry : SuggestionCacheEntry) : state → state :=
  onWorld (λ w, World (suggestions w) (<[server := entry]> (_suggestionCache w))
                      (trace w)).

(** Store a new suggestion object and return its reference. *)
Definition newSuggestion (s : Suggestion) (st : state) : nat * state :=
  (length (suggestions (Cancellation.world st)),
   onWorld (λ w, World (suggestions w ++ [s]) (_suggestionCache w) (trace w)) st).

(** Assign to the suggestion object with reference [r]. *)
Definition updateSuggestion (r : nat) (f : Suggestion → Suggestion)
  : state → state :=
  onWorld (λ w, World (alter f r (suggestions w)) (_suggestionCache w) (trace w)).

(** [x || y] for strings: the empty string is falsy. *)
Definition orElse (x : option string) (y : string) : string :=
  match x with
  | Some s => if String.eqb s "" then y else s
  | None => y
  end.

(** ** Converting completion items *)

Definition completionKindToSuggestionType (kind : option nat) : string :=
  match kind with
  | Some 21 => "constant"
  | Some 2 => "method"
  | Some 3 | Some 4 => "function"
  | Some 5 | Some 10 => "property"
  | Some 6 => "variable"
  | Some 7 => "class"
  | Some 22 | Some 25 => "type"
  | Some 24 => "selector"
  | Some 8 => "mixin"
  | Some 9 => "module"
  | Some 11 => "builtin"
  | Some 13 | Some 20 => "enum"
  | Some 14 => "keyword"
  | Some 15 => "snippet"
  | Some 17 | Some 19 => "import"
  | Some 18 => "require"
  | _ => "value"
  end.

Definition setRightLabel (v : option string) (s : Suggestion) : Suggestion :=
  Build_Suggestion (text s) (snippet s) (displayText s) (filterText s) (type_ s)
    v (description s) (descriptionMarkdown s) (sugTextEdit s)
    (sugAdditionalTextEdits s) (customReplacementPrefix s) (replacementPrefix s)
    (completionItem s).
Definition setDescription (v : option string) (s : Suggestion) : Suggestion :=
  Build_Suggestion (text s) (snippet s) (displayText s) (filterText s) (type_ s)
    (rightLabel s) v (descriptionMarkdown s) (sugTextEdit s)
    (sugAdditionalTextEdits s) (customReplacementPrefix s) (replacementPrefix s)
    (completionItem s).
Definition setDescriptionMarkdown (v : option string) (s : Suggestion) : Suggestion :=
  Build_Suggestion (text s) (snippet s) (displayText s) (filterText s) (type_ s)
    (rightLabel s) (description s) v (sugTextEdit s)
    (sugAdditionalTextEdits s) (customReplacementPrefix s) (replacementPrefix s)
    (completionItem s).

(** [applyDetailsToSuggestion(item, suggestion)]. *)
Definition applyDetailsToSuggestion (item : CompletionItem) (suggestion : Suggestion)
  : Suggestion :=
  let suggestion := setRightLabel (detail item) suggestion in
  match documentation item with
  | Some (DocString doc) =>
      setDescription (Some doc) (setDescriptionMarkdown (Some doc) suggestion)
  | Some (MarkupContent kind value) =>
      if String.eqb kind "markdown"
      then setDescriptionMarkdown (Some value) suggestion
      else setDescription (Some value) suggestion
  | None => suggestion
  end.

(** [Convert.convertLsInsertReplaceEdit(textEdit, shouldReplace)]. *)
Definition convertLsInsertReplaceEdit (insert replace : Lsp.Range)
    (newText : string) (shouldReplace : bool) : Convert.TextEdit :=
  let oldRange := if shouldReplace then replace else insert in
  Convert.mkTextEdit (Convert.lsRangeToAtomRange oldRange) newText.

Definition apiAtLeast_5_1 (apiVersion : Q) : bool := Qle_bool (Qmake 51 10) apiVersion.

(** [applyCompletionItemToSuggestion(item, suggestion, apiVersion, shouldReplace)]. *)
Definition applyCompletionItemToSuggestion (item : CompletionItem)
    (suggestion : Suggestion) (apiVersion : Q) (shouldReplace : bool)
  : Suggestion :=
  let s := applyDetailsToSuggestion item
    (Build_Suggestion
       (Some (orElse (insertText item) (label item)))
       (snippet suggestion)
       (Some (label item))
       (Some (label item))
       (Some (completionKindToSuggestionType (kind item)))
       (rightLabel suggestion) (description suggestion)
       (descriptionMarkdown suggestion) (sugTextEdit suggestion)
       (sugAdditionalTextEdits suggestion) (customReplacementPrefix suggestion)
       (replacementPrefix suggestion) (completionItem suggestion)) in
  let edit :=
    if apiAtLeast_5_1 apiVersion then
      match textEdit item with
      | Some (PlainEdit range newText) =>
          Some (Convert.convertLsTextEdit (Lsp.mkTextEdit range newText))
      | Some (InsertReplaceEdit insert replace newText) =>
          Some (convertLsInsertReplaceEdit insert replace newText shouldReplace)
      | None => sugTextEdit s
      end
    else sugTextEdit s in
  let additional :=
    if apiAtLeast_5_1 apiVersion then
      match additionalTextEdits item with
      | Some _ => Some (Convert.convertLsTextEdits (additionalTextEdits item))
      | None => sugAdditionalTextEdits s
      end
    else sugAdditionalTextEdits s in
  Build_Suggestion (text s) (snippet s) (displayText s) (filterText s) (type_ s)
    (rightLabel s) (description s) (descriptionMarkdown s) edit additional
    (customReplacementPrefix s) (replacementPrefix s) (Some item).

(** [applyTextEditToSuggestion(textEdit, editor, ..., originalBufferPosition,
    suggestion, shouldReplace)]. *)
Definition applyTextEditToSuggestion (edit : option CompletionEdit)
    (editor : TextEditor) (originalBufferPosition : Atom.Point)
    (suggestion : Suggestion) (shouldReplace : bool) : Suggestion :=
  match edit with
  | None => suggestion
  | Some e =>
      let range :=
        match e with
        | PlainEdit range _ => range
        | InsertReplaceEdit insert replace _ =>
            if shouldReplace then replace else insert
        end in
      let atomRange := Convert.lsRangeToAtomRange range in
      Build_Suggestion (text suggestion) (snippet suggestion)
        (displayText suggestion) (filterText suggestion) (type_ suggestion)
        (rightLabel suggestion) (description suggestion)
        (descriptionMarkdown suggestion) (sugTextEdit suggestion)
        (sugAdditionalTextEdits suggestion)
        (Some (getTextInBufferRange editor (Atom.start atomRange)
                                    originalBufferPosition))
        (replacementPrefix suggestion) (completionItem suggestion)
  end.

(** [applySnippetToSuggestion(item, suggestion)]; [InsertTextFormat.Snippet]
    is 2. *)
Definition applySnippetToSuggestion (item : CompletionItem) (suggestion : Suggestion)
  : Suggestion :=
  match insertTextFormat item with
  | Some 2 =>
      let body :=
        match textEdit item with
        | Some e => editNewText e
        | None => orElse (insertText item) (label item)
        end in
      Build_Suggestion (text suggestion) (Some body)
        (displayText suggestion) (filterText suggestion) (type_ suggestion)
        (rightLabel suggestion) (description suggestion)
        (descriptionMarkdown suggestion) (sugTextEdit suggestion)
        (sugAdditionalTextEdits suggestion) (customReplacementPrefix suggestion)
        (replacementPrefix suggestion) (completionItem suggestion)
  | _ => suggestion
  end.

(** [completionItemToSuggestion(item, suggestion, request, apiVersion,
    triggerColumns, shouldReplace, onDidConvertCompletionItem)]. *)
Definition completionItemToSuggestion (item : CompletionItem)
    (suggestion : Suggestion) (request : Request) (apiVersion : Q)
    (shouldReplace : bool) (onDidConvertCompletionItem : option CompletionItemAdjuster)
  : Suggestion :=
  let s := applyCompletionItemToSuggestion item suggestion apiVersion shouldReplace in
  let s :=
    if negb (apiAtLeast_5_1 apiVersion)
    then applyTextEditToSuggestion (textEdit item) (editor request)
           (bufferPosition request) s shouldReplace
    else s in
  let s := applySnippetToSuggestion item s in
  match onDidConvertCompletionItem with
  | Some adjust => adjust item s request
  | None => s
  end.

Section sorting.
(** [String.prototype.localeCompare], which the platform provides. *)
Variable localeCompare : string → string → Z.

Definition sortKey (item : CompletionItem) : string :=
  orElse (sortText item) (label item).

(** [array.sort(compare)], which is stable. *)
Fixpoint insertSorted (item : CompletionItem) (sorted : list CompletionItem)
  : list CompletionItem :=
  match sorted with
  | [] => [item]
  | x :: rest =>
      if (localeCompare (sortKey item) (sortKey x) <? 0)%Z
      then item :: sorted
      else x :: insertSorted item rest
  end.

Definition sortItems (items : list CompletionItem) : list CompletionItem :=
  foldr insertSorted [] (rev items).

(** The suggestions and the map entries for the sorted items; a fresh
    object per item, the first at reference [next]. *)
Definition convertItems (items : list CompletionItem) (request : Request)
    (apiVersion : Q) (shouldReplace : bool)
    (onDidConvertCompletionItem : option CompletionItemAdjuster)
  : list Suggestion :=
  map (λ item, completionItemToSuggestion item emptySuggestion request apiVersion
                 shouldReplace onDidConvertCompletionItem)
      (sortItems items).

(** [completionItemsToSuggestions(completions, request, apiVersion,
    triggerColumns, shouldReplace, onDidConvertCompletionItem)]. *)
Definition completionItemsToSuggestions (completions : CompletionResponse)
    (request : Request) (apiVersion : Q) (shouldReplace : bool)
    (onDidConvertCompletionItem : option CompletionItemAdjuster) (st : state)
  : list (nat * PossiblyResolvedCompletionItem) * state :=
  let completionsArray :=
    match completions with
    | ItemArray items => items
    | CompletionList _ items => items
    | NoCompletions => []
    end in
  let sorted := sortItems completionsArray in
  let converted :=
    convertItems completionsArray request apiVersion shouldReplace
                 onDidConvertCompletionItem in
  let next := length (suggestions (Cancellation.world st)) in
  (zip (seq next (length sorted))
       (map (λ item, Build_PossiblyResolvedCompletionItem item false) sorted),
   onWorld (λ w, World (suggestions w ++ converted) (_suggestionCache w) (trace w))
           st).

(** ** Requests *)

Definition createCompletionContext (triggerCharacter : string) (triggerOnly : bool)
  : CompletionContext :=
  if String.eqb triggerCharacter "" then Invoked
  else if triggerOnly then TriggerCharacter triggerCharacter
  else TriggerForIncompleteCompletions triggerCharacter.

Variable plat : Uri.platform.

(** [createCompletionParams(request, triggerCharacter, triggerOnly)];
    [None] when [Convert.pathToUri] throws. *)
Definition createCompletionParams (request : Request) (triggerCharacter : string)
    (triggerOnly : bool) : option CompletionParams :=
  uri ← Uri.pathToUri plat (default "" (getPath (editor request)));
  Some (Build_CompletionParams uri
          (Convert.pointToPosition (bufferPosition request))
          (createCompletionContext triggerCharacter triggerOnly)).

(** The trigger point [getOrBuildSuggestions] computes for a request. *)
Definition computeTriggerPoint (request : Request) (triggerChar : string)
    (triggerOnly : bool) : Atom.Point :=
  let triggerColumn :=
    if negb (String.eqb triggerChar "") && triggerOnly
    then (Atom.column (bufferPosition request)
          - Z.of_nat (String.length triggerChar))%Z
    else (Atom.column (bufferPosition request)
          - Z.of_nat (String.length (prefix request))
          - Z.of_nat (String.length triggerChar))%Z in
  Atom.mkPoint (Atom.row (bufferPosition request)) triggerColumn.

(** The work [getOrBuildSuggestions] hands to [doWithCancellationToken]:
    build the parameters and send the request. *)
Definition requestCompletion (server : ActiveServer) (request : Request)
    (triggerChar : string) (triggerOnly : bool) (cancellationToken : nat)
    (st : state) : outcome CompletionResponse * state :=
  match createCompletionParams request triggerChar triggerOnly with
  | Some params =>
      (completion (connection server) params,
       emit (CompletionRequest (connectionId (connection server)) params
                               cancellationToken) st)
  | None => (Rejected "pathToUri", st)
  end.

(** [getOrBuildSuggestions(server, request, triggerChar, triggerOnly,
    apiVersion, shouldReplace, onDidConvertCompletionItem)]. *)
Definition getOrBuildSuggestions (server : ActiveServer) (request : Request)
    (triggerChar : string) (triggerOnly : bool) (apiVersion : Q)
    (shouldReplace : bool)
    (onDidConvertCompletionItem : option CompletionItemAdjuster) (st : state)
  : outcome (list nat) * state :=
  let st := emit (Log "getOrBuildSuggestions:") st in
  let cache := _suggestionCache (Cancellation.world st) !! serverId server in
  let triggerPoint := computeTriggerPoint request triggerChar triggerOnly in
  let valid (cache : SuggestionCacheEntry) : bool :=
    negb (isIncomplete cache) &&
    String.eqb (Autocomplete.triggerChar cache) triggerChar &&
    Atom.Point_isEqual (Autocomplete.triggerPoint cache) triggerPoint &&
    Atom.Point_isLessThanOrEqual (originalBufferPoint cache)
                                 (bufferPosition request) in
  let validCache :=
    match cache with
    | Some cache => if valid cache then Some cache else None
    | None => None
    end in
  match validCache with
  | Some cache =>
      let st := emit (Log "cache is valid!") st in
      let result := map fst (suggestionMap cache) in
      let st := emit (Log "returning cached!") st in
      (Resolved result, st)
  | None =>
      let st := emit (Log "Getting completions…") st in
      match Cancellation.doWithCancellationToken
              (connectionId (connection server))
              (requestCompletion server request triggerChar triggerOnly) st with
      | (Rejected err, st) => (Rejected err, st)
      | (Resolved completions, st) =>
          let isComplete :=
            match completions with
            | NoCompletions => true
            | ItemArray _ => true
            | CompletionList isIncomplete _ => negb isIncomplete
            end in
          let '(suggestionMap, st) :=
            completionItemsToSuggestions completions request apiVersion
              shouldReplace onDidConvertCompletionItem st in
          let st :=
            setCache (serverId server)
              (Build_SuggestionCacheEntry (negb isComplete) triggerPoint
                 (bufferPosition request) triggerChar suggestionMap) st in
          (Resolved (map fst suggestionMap), st)
      end
  end.

End sorting.

(** The four conditions under which a cache entry answers a request. *)
Definition reusable (cache : SuggestionCacheEntry) (request : Request)
    (triggerChar : string) (triggerOnly : bool) : Prop :=
  isIncomplete cache = false ∧
  Autocomplete.triggerChar cache = triggerChar ∧
  triggerPoint cache = computeTriggerPoint request triggerChar triggerOnly ∧
  (Atom.row (originalBufferPoint cache) < Atom.row (bufferPosition request) ∨
   (Atom.row (originalBufferPoint cache) = Atom.row (bufferPosition request) ∧
    Atom.column (originalBufferPoint cache) ≤ Atom.column (bufferPosition request)))%Z.

(** ** Resolving a suggestion *)

(** [resolveSuggestion(resolvedCompletionItem, suggestion, request,
    onDidConvertCompletionItem)]. *)
Definition resolveSuggestion (resolvedCompletionItem : CompletionItem)
    (suggestion : Suggestion) (request : Request)
    (onDidConvertCompletionItem : option CompletionItemAdjuster) : Suggestion :=
  let s := applyDetailsToSuggestion resolvedCompletionItem suggestion in
  match onDidConvertCompletionItem with
  | Some adjust => adjust resolvedCompletionItem s request
  | None => s
  end.

(** [map.get(key)] of a [Map] kept in insertion order. *)
Fixpoint mapGet {V} (key : nat) (m : list (nat * V)) : option V :=
  match m with
  | [] => None
  | (k, v) :: rest => if Nat.eqb k key then Some v else mapGet key rest
  end.

(** Set the [isResolved] property of the entry of [key]. *)
Fixpoint markResolved (key : nat) (m : list (nat * PossiblyResolvedCompletionItem))
  : list (nat * PossiblyResolvedCompletionItem) :=
  match m with
  | [] => []
  | (k, v) :: rest =>
      if Nat.eqb k key
      then (k, Build_PossiblyResolvedCompletionItem (prCompletionItem v) true) :: rest
      else (k, v) :: markResolved key rest
  end.

Definition setResolved (server suggestion : nat) : state → state :=
  onWorld (λ w,
    World (suggestions w)
          (alter (λ cache,
                    Build_SuggestionCacheEntry (isIncomplete cache)
                      (triggerPoint cache) (originalBufferPoint cache)
                      (triggerChar cache)
                      (markResolved suggestion (suggestionMap cache)))
                 server (_suggestionCache w))
          (trace w)).

(** [completeSuggestion(server, suggestion, request,
    onDidConvertCompletionItem)]; [suggestion] is the reference of the
    suggestion object, which is also what the call returns. *)
Definition completeSuggestion (server : ActiveServer) (suggestion : nat)
    (request : Request)
    (onDidConvertCompletionItem : option CompletionItemAdjuster) (st : state)
  : outcome nat * state :=
  match _suggestionCache (Cancellation.world st) !! serverId server with
  | Some cache =>
      match mapGet suggestion (suggestionMap cache) with
      | Some possiblyResolvedCompletionItem =>
          if negb (isResolved possiblyResolvedCompletionItem) then
            let item := prCompletionItem possiblyResolvedCompletionItem in
            let st := emit (ResolveRequest (connectionId (connection server)) item)
                           st in
            match completionItemResolve (connection server) item with
            | Rejected err => (Rejected err, st)
            | Resolved (Some resolvedCompletionItem) =>
                let st :=
                  updateSuggestion suggestion
                    (λ s, resolveSuggestion resolvedCompletionItem s request
                            onDidConvertCompletionItem) st in
                (Resolved suggestion, setResolved (serverId server) suggestion st)
            | Resolved None => (Resolved suggestion, st)
            end
          else (Resolved suggestion, st)
      | None => (Resolved suggestion, st)
      end
  | None => (Resolved suggestion, st)
  end.

(** The properties of a suggestion that say what accepting it inserts
    and where, and the rest that resolving must leave alone. *)
Definition sameInsertion (a b : Suggestion) : Prop :=
  text a = text b ∧ snippet a = snippet b ∧ sugTextEdit a = sugTextEdit b ∧
  sugAdditionalTextEdits a = sugAdditionalTextEdits b ∧
  replacementPrefix a = replacementPrefix b ∧
  customReplacementPrefix a = customReplacementPrefix b ∧
  displayText a = displayText b ∧ filterText a = filterText b ∧
  type_ a = type_ b ∧ completionItem a = completionItem b.

(** ** Examples *)

Definition exampleItem : CompletionItem :=
  Build_CompletionItem "foobar" (Some 3) None None None None None None None.

Definition exampleEditor : TextEditor :=
  Build_TextEditor (Some "/proj/src/a.ts") (λ _ _, "").

(** A server that answers a completion request with an incomplete list
    of one item and a resolve request with [null]. *)
Definition exampleServer : ActiveServer :=
  Build_ActiveServer 1
    (Build_LanguageClientConnection 5
       (λ _, Resolved (CompletionList true [exampleItem]))
       (λ _, Resolved None)).

(** A server that answers a resolve request with details. *)
Definition detailedItem : CompletionItem :=
  Build_CompletionItem "foobar" (Some 3) (Some "fn()")
    (Some (MarkupContent "markdown" "docs")) None (Some "other") None None None.
Definition resolvingServer : ActiveServer :=
  Build_ActiveServer 1
    (Build_LanguageClientConnection 5
       (λ _, Resolved NoCompletions)
       (λ _, Resolved (Some detailedItem))).

(** The request of scenario A, at (3, 10) with prefix ["foo"], and a
    follow-up two characters later. *)
Definition firstRequest : Request :=
  Build_Request exampleEditor (Atom.mkPoint 3 10) "foo" false.
Definition followUpRequest : Request :=
  Build_Request exampleEditor (Atom.mkPoint 3 12) "fooba" false.

Definition exampleSuggestion : Suggestion :=
  completionItemToSuggestion exampleItem emptySuggestion firstRequest
    (Qmake 5 1) false None.

Definition exampleEntry : SuggestionCacheEntry :=
  Build_SuggestionCacheEntry false (Atom.mkPoint 3 7) (Atom.mkPoint 3 10) ""
    [(0, Build_PossiblyResolvedCompletionItem exampleItem false)].

Definition emptyState : state :=
  Cancellation.State [] ∅ [] (World [] ∅ []).
Definition cachedState : state :=
  Cancellation.State [] ∅ [] (World [exampleSuggestion] {[ 1 := exampleEntry ]} []).

Definition byLength (a b : string) : Z :=
  (Z.of_nat (String.length a) - Z.of_nat (String.length b))%Z.

End Autocomplete.

(* ================================================================== *)
(** * adapters/linter-push-v2-adapter.ts and intentions-list-adapter.ts *)
(* ================================================================== *)

Module Diagnostics.

(** ** Protocol data *)

Inductive DiagnosticCode := CodeNumber (n : Z) | CodeString (s : string).

Record Location := { locUri : string; locRange : Lsp.Range }.

Record DiagnosticRelatedInformation := {
  location : Location;
  relatedMessage : string
}.

Record Diagnostic := {
  range : Lsp.Range;
  severity : option Lsp.DiagnosticSeverity;
  code : option DiagnosticCode;
  codeDescription : option string;
  source : option string;
  message : string;
  tags : list nat;
  relatedInformation : option (list DiagnosticRelatedInformation);
  data : option string
}.

Record PublishDiagnosticsParams := {
  uri : string;
  diagnostics : list Diagnostic
}.

#[global] Instance DiagnosticCode_eq_dec : EqDecision DiagnosticCode.
Proof. solve_decision. Defined.
#[global] Instance Location_eq_dec : EqDecision Location.
Proof. solve_decision. Defined.
#[global] Instance RelatedInformation_eq_dec : EqDecision DiagnosticRelatedInformation.
Proof. solve_decision. Defined.
#[global] Instance Diagnostic_eq_dec : EqDecision Diagnostic.
Proof. solve_decision. Defined.

(** ** Linter messages *)

Inductive MessageSeverity := SeverityError | SeverityWarning | SeverityInfo.

Record Reference := { refFile : string; refPosition : option Atom.Point }.

(** [linter.Message]; a property not set is [None].  [solutions] is
    left out: it is assigned only under the two flags below, which are
    off. *)
Record Message := {
  file : string;
  position : Atom.Range;
  reference : option Reference;
  url : option string;
  icon : option string;
  excerpt : string;
  linterName : option string;
  messageSeverity : MessageSeverity;
  description : option string;
  key : option string
}.

Definition SHOULD_LOAD_SOLUTIONS : bool := false.
Definition SHOULD_PRELOAD_SOLUTIONS_FOR_EACH_LINTER_MESSAGE : bool := false.

Definition lsSeverityToV2MessageSeverity (s : Lsp.DiagnosticSeverity)
  : MessageSeverity :=
  match s with
  | Lsp.Error => SeverityError
  | Lsp.Warning => SeverityWarning
  | Lsp.Information | Lsp.Hint => SeverityInfo
  end.

Definition iconForLSSeverity (s : Lsp.DiagnosticSeverity) : option string :=
  match s with
  | Lsp.Error => Some "stop"
  | Lsp.Warning => Some "warning"
  | Lsp.Information => Some "info"
  | Lsp.Hint => Some "light-bulb"
  end.

Definition severityName (s : MessageSeverity) : string :=
  match s with
  | SeverityError => "error" | SeverityWarning => "warning" | SeverityInfo => "info"
  end.

(** A value in a template literal. *)
Definition shown (o : option string) : string := default "undefined" o.

(** A string that is set and not empty. *)
Definition truthy (o : option string) : option string :=
  match o with
  | Some s => if String.eqb s "" then None else Some s
  | None => None
  end.

(** [getDiagnosticKey(diagnostic)]. *)
Definition getDiagnosticKey (diagnostic : Diagnostic) : string :=
  let range := Convert.lsRangeToAtomRange (range diagnostic) in
  let severity :=
    match severity diagnostic with
    | Some s => pretty (Lsp.severityNumber s)
    | None => ""
    end in
  let code :=
    match code diagnostic with
    | Some (CodeNumber n) => pretty n
    | Some (CodeString s) => s
    | None => ""
    end in
  message diagnostic +:+ ":" +:+ severity +:+ ":" +:+ code +:+ ":"
    +:+ Atom.Range_toString range.

(** The key [updateMessageKey(message)] stores in [message.key]. *)
Definition computeMessageKey (m : Message) : string :=
  let nameStr := "$LINTER:" +:+ shown (linterName m) in
  let locationStr :=
    "$LOCATION:" +:+ file m +:+ "$" +:+ pretty (Atom.row (Atom.start (position m)))
    +:+ "$" +:+ pretty (Atom.column (Atom.start (position m)))
    +:+ "$" +:+ pretty (Atom.row (Atom.end_ (position m)))
    +:+ "$" +:+ pretty (Atom.column (Atom.end_ (position m))) in
  let referenceStr :=
    match reference m with
    | Some r =>
        "$REFERENCE:" +:+ refFile r +:+ "$" +:+
        match refPosition r with
        | Some p => pretty (Atom.row p) +:+ "$" +:+ pretty (Atom.column p)
        | None => ""
        end
    | None => "$REFERENCE:null"
    end in
  let excerptStr := "$EXCERPT:" +:+ excerpt m in
  let severityStr := "$SEVERITY:" +:+ severityName (messageSeverity m) in
  let iconStr :=
    match truthy (icon m) with
    | Some i => "$ICON:" +:+ i | None => "$ICON:null"
    end in
  let urlStr :=
    match truthy (url m) with
    | Some u => "$URL:" +:+ u | None => "$URL:null"
    end in
  let descriptionStr :=
    match description m with
    | Some d => "$DESCRIPTION:" +:+ d | None => "$DESCRIPTION:null"
    end in
  nameStr +:+ locationStr +:+ referenceStr +:+ excerptStr +:+ severityStr
    +:+ iconStr +:+ urlStr +:+ descriptionStr.

Definition setKey (k : string) (m : Message) : Message :=
  Build_Message (file m) (position m) (reference m) (url m) (icon m) (excerpt m)
    (linterName m) (messageSeverity m) (description m) (Some k).

(** [updateMessageKey(message)] when [message.key] is not a string. *)
Definition withKey (m : Message) : Message :=
  match key m with
  | Some _ => m
  | None => setKey (computeMessageKey m) m
  end.

(** ** The surroundings of the adapter *)

(** An item of a pane: a text editor, with its reference and its path,
    or something else. *)
Inductive PaneItem :=
  | TextEditorItem (editor : nat) (path : option string)
  | OtherItem.

(** [LinterDelegate]: the two callbacks of the client. *)
Record LinterDelegate := {
  shouldIgnoreMessage : Diagnostic → option nat → Atom.Range → bool;
  transformMessage : option (Message → Diagnostic → option nat → Message)
}.

(** What the adapter reads and does not change: the platform, the
    panes of the workspace, and the delegate if there is one. *)
Record environment := {
  plat : Uri.platform;
  panes : list (list PaneItem);
  _delegate : option LinterDelegate
}.

Definition editorsOfPane (path : string) (pane : list PaneItem) : list nat :=
  flat_map (λ item,
    match item with
    | TextEditorItem editor (Some p) => if String.eqb p path then [editor] else []
    | _ => []
    end) pane.

(** utils.ts, [findAllTextEditorsForPath(path)]. *)
Definition findAllTextEditorsForPath (env : environment) (path : string)
  : list nat :=
  flat_map (editorsOfPane path) (panes env).

(** utils.ts, [findFirstTextEditorForPath(path)]. *)
Definition findFirstTextEditorForPath (env : environment) (path : string)
  : option nat :=
  head (findAllTextEditorsForPath env path).

(** ** The intentions index *)

Record MessageBundle := {
  bundleMessage : nat;
  bundleCode : string;
  bundlePath : string
}.

(** [EditorIntentionsList]: three maps keyed by object identity, in
    insertion order.  A message and its range are objects of their own,
    so [set] adds an entry. *)
Record EditorIntentionsList := {
  linterMessageBundleByRange : list (Atom.Range * MessageBundle);
  diagnosticByLinterMessage : list (nat * Diagnostic);
  diagnosticByRange : list (Atom.Range * Diagnostic)
}.

Definition emptyList : EditorIntentionsList := Build_EditorIntentionsList [] [] [].

(** [intentionsList.add(range, bundle, diag)]. *)
Definition add (range : Atom.Range) (bundle : MessageBundle) (diag : Diagnostic)
    (l : EditorIntentionsList) : EditorIntentionsList :=
  Build_EditorIntentionsList
    (linterMessageBundleByRange l ++ [(range, bundle)])
    (diagnosticByLinterMessage l ++ [(bundleMessage bundle, diag)])
    (diagnosticByRange l ++ [(range, diag)]).

(** [IntentionsListAdapter.listsByEditor]. *)
Definition listsByEditor := gmap nat EditorIntentionsList.

(** [clearLinterIntentions(editor)]. *)
Definition clearLinterIntentions (editor : nat) (lists : gmap nat EditorIntentionsList)
  : gmap nat EditorIntentionsList :=
  alter (λ _, emptyList) editor lists.

(** [findOrCreateEditorIntentionsList(editor)] followed by [add]. *)
Definition addToEditor (range : Atom.Range) (bundle : MessageBundle)
    (diag : Diagnostic) (lists : gmap nat EditorIntentionsList) (editor : nat)
  : gmap nat EditorIntentionsList :=
  <[editor := add range bundle diag (default emptyList (lists !! editor))]> lists.

(** ** The adapter *)

Inductive event :=
  | SetMessages (indie : nat) (path : string) (messages : list nat)
  | OnDidSave (editor : nat).

(** The adapter's state.  [messageStore] holds the message objects, the
    message with reference [r] being [messageStore !! r];
    [_intentionsManager] is the index of the intentions adapter when one
    is attached. *)
Record state := State {
  messageStore : list Message;
  _diagnosticMap : gmap string (list nat);
  _lsDiagnosticMap : gmap string (gmap string Diagnostic);
  _indies : list nat;
  _lastDiagnosticsParamsByEditor : gmap nat PublishDiagnosticsParams;
  _editorsWithSaveCallbacks : gset nat;
  _intentionsManager : option (gmap nat EditorIntentionsList);
  trace : list event
}.

Definition withStore (f : list Message → list Message) (st : state) : state :=
  State (f (messageStore st)) (_diagnosticMap st) (_lsDiagnosticMap st)
    (_indies st) (_lastDiagnosticsParamsByEditor st)
    (_editorsWithSaveCallbacks st) (_intentionsManager st) (trace st).

Definition withIntentions
    (f : gmap nat EditorIntentionsList → gmap nat EditorIntentionsList)
    (st : state) : state :=
  State (messageStore st) (_diagnosticMap st) (_lsDiagnosticMap st)
    (_indies st) (_lastDiagnosticsParamsByEditor st)
    (_editorsWithSaveCallbacks st) (f <$> _intentionsManager st) (trace st).

(** The position of the message with reference [r]. *)
Definition positionOf (st : state) (r : nat) : Atom.Range :=
  default (Atom.mkRange (Atom.mkPoint 0 0) (Atom.mkPoint 0 0))
          (position <$> messageStore st !! r).

(** [relatedInformationToReference(relatedInfo)]; the outer [None] when
    [Convert.uriToPath] throws. *)
Definition relatedInformationToReference (env : environment)
    (relatedInfo : option (list DiagnosticRelatedInformation))
  : option (option Reference) :=
  match relatedInfo with
  | None | Some [] => Some None
  | Some (first :: _) =>
      f ← Uri.uriToPath (plat env) (locUri (location first));
      Some (Some (Build_Reference f
        (Some (Atom.start (Convert.lsRangeToAtomRange (locRange (location first)))))))
  end.

(** [lsDiagnosticToV2Message(path, diagnostic)]; [None] when it throws. *)
Definition lsDiagnosticToV2Message (env : environment) (path : string)
    (diagnostic : Diagnostic) : option Message :=
  ref ← relatedInformationToReference env (relatedInformation diagnostic);
  Some (Build_Message path
          (Convert.lsRangeToAtomRange (range diagnostic))
          ref
          (codeDescription diagnostic)
          (iconForLSSeverity (default Lsp.Error (severity diagnostic)))
          (message diagnostic)
          (source diagnostic)
          (lsSeverityToV2MessageSeverity (default Lsp.Error (severity diagnostic)))
          None None).

(** [diag.code ? String(diag.code) : null]. *)
Definition codeString (diag : Diagnostic) : option string :=
  match code diag with
  | Some (CodeNumber n) => if (n =? 0)%Z then None else Some (pretty n)
  | Some (CodeString s) => if String.eqb s "" then None else Some s
  | None => None
  end.

(** [this._delegate?.shouldIgnoreMessage(diag, editor, range)]. *)
Definition ignored (env : environment) (path : string) (diag : Diagnostic) : bool :=
  match _delegate env with
  | Some delegate =>
      shouldIgnoreMessage delegate diag (findFirstTextEditorForPath env path)
        (Convert.lsRangeToAtomRange (range diag))
  | None => false
  end.

(** [this._delegate?.transformMessage?.(linterMessage, diag, editor)
    ?? linterMessage]. *)
Definition transformed (env : environment) (path : string) (diag : Diagnostic)
    (linterMessage : Message) : Message :=
  match _delegate env with
  | Some delegate =>
      match transformMessage delegate with
      | Some transform =>
          transform linterMessage diag (findFirstTextEditorForPath env path)
      | None => linterMessage
      end
  | None => linterMessage
  end.

(** [IntentionsListAdapter.onLinterMessageAdded(path, message, code, diag,
    callback)]. *)
Definition onLinterMessageAdded (env : environment) (path : string)
    (range : Atom.Range) (message : nat) (code : string) (diag : Diagnostic)
    (lists : gmap nat EditorIntentionsList) : gmap nat EditorIntentionsList :=
  let bundle := Build_MessageBundle message code path in
  foldl (addToEditor range bundle diag) lists (findAllTextEditorsForPath env path).

(** [addIntentionsForLinterMessage(path, message, code, diag)]. *)
Definition addIntentionsForLinterMessage (env : environment) (path : string)
    (message : nat) (code : string) (diag : Diagnostic) (st : state) : state :=
  withIntentions
    (onLinterMessageAdded env path (positionOf st message) message code diag) st.

(** [transformOrIgnoreDiagnosticMessage(path, diag)]: the reference of
    the message, or [null]; the outer [None] when it throws. *)
Definition transformOrIgnoreDiagnosticMessage (env : environment) (path : string)
    (diag : Diagnostic) (st : state) : option (option nat * state) :=
  if ignored env path diag then Some (None, st)
  else
    let code := codeString diag in
    linterMessage ← lsDiagnosticToV2Message env path diag;
    let linterMessage := transformed env path diag linterMessage in
    let r := length (messageStore st) in
    let st := withStore (λ store, store ++ [linterMessage]) st in
    let st :=
      match code with
      | Some code => addIntentionsForLinterMessage env path r code diag st
      | None => st
      end in
    Some (Some r, st).

(** [getMessageKey(message)]. *)
Definition getMessageKey (r : nat) (st : state) : string * state :=
  let st := withStore (alter withKey r) st in
  (default "" (messageStore st !! r ≫= key), st).

(** The local variables of [captureDiagnostics]. *)
Record locals := Locals {
  codeMap : gmap string Diagnostic;
  diagnosticMap : gmap string nat;
  messages : list nat;
  retainedDiagnostics : list Diagnostic;
  codeActionRange : option Atom.Range
}.

Definition noLocals : locals := Locals ∅ ∅ [] [] None.

(** The body of the loop over [params.diagnostics]. *)
Definition captureStep (env : environment) (path : string)
    (acc : option (locals * state)) (diagnostic : Diagnostic)
  : option (locals * state) :=
  '(l, st) ← acc;
  '(linterMessage, st) ← transformOrIgnoreDiagnosticMessage env path diagnostic st;
  match linterMessage with
  | None => Some (l, st)
  | Some r =>
      let range := positionOf st r in
      let codeActionRange :=
        match codeActionRange l with
        | None => range
        | Some current => Atom.Range_union current range
        end in
      let '(messageKey, st) := getMessageKey r st in
      Some (Locals (<[messageKey := diagnostic]> (codeMap l))
                   (<[getDiagnosticKey diagnostic := r]> (diagnosticMap l))
                   (messages l ++ [r])
                   (retainedDiagnostics l ++ [diagnostic])
                   (Some codeActionRange),
            st)
  end.

(** The loop over [params.diagnostics]. *)
Definition captureLoop (env : environment) (path : string)
    (diags : list Diagnostic) (st : state) : option (locals * state) :=
  foldl (captureStep env path) (Some (noLocals, st)) diags.

(** What [captureDiagnostics] does for one open editor of the path
    before the loop. *)
Definition noteEditor (params : PublishDiagnosticsParams) (st : state)
    (editor : nat) : state :=
  let registered := bool_decide (editor ∈ _editorsWithSaveCallbacks st) in
  State (messageStore st) (_diagnosticMap st) (_lsDiagnosticMap st) (_indies st)
    (<[editor := params]> (_lastDiagnosticsParamsByEditor st))
    ({[editor]} ∪ _editorsWithSaveCallbacks st)
    (clearLinterIntentions editor <$> _intentionsManager st)
    (if registered then trace st else trace st ++ [OnDidSave editor]).

(** [captureDiagnostics(params)]; [None] when it throws.  The request
    for code actions of the whole range is under [SHOULD_LOAD_SOLUTIONS]
    and is not sent. *)
Definition captureDiagnostics (env : environment)
    (params : PublishDiagnosticsParams) (st : state) : option (locals * state) :=
  path ← Uri.uriToPath (plat env) (uri params);
  let textEditors := findAllTextEditorsForPath env path in
  let st := foldl (noteEditor params) st textEditors in
  '(l, st) ← captureLoop env path (diagnostics params) st;
  Some (l,
        State (messageStore st)
          (<[path := messages l]> (_diagnosticMap st))
          (<[path := codeMap l]> (_lsDiagnosticMap st))
          (_indies st) (_lastDiagnosticsParamsByEditor st)
          (_editorsWithSaveCallbacks st) (_intentionsManager st)
          (trace st ++ map (λ i, SetMessages i path (messages l)) (_indies st))).

(** ** What the loop computes, stated without the loop *)

(** The diagnostics the suppression predicate lets through. *)
Definition keptDiagnostics (env : environment) (path : string)
    (diags : list Diagnostic) : list Diagnostic :=
  List.filter (λ d, negb (ignored env path d)) diags.

(** The lint message made of a retained diagnostic, with its key. *)
Definition made (env : environment) (path : string) (d : Diagnostic)
  : option Message :=
  m ← lsDiagnosticToV2Message env path d;
  Some (withKey (transformed env path d m)).

Definition keyOf (m : Message) : string := default "" (key m).

Definition unionRange (current : option Atom.Range) (range : Atom.Range)
  : option Atom.Range :=
  Some match current with
       | None => range
       | Some current => Atom.Range_union current range
       end.

(** Registering one retained diagnostic, with the reference and the
    message made of it, in the index of every open editor of the path:
    only a diagnostic with a code is registered. *)
Definition register (env : environment) (path : string)
    (lists : gmap nat EditorIntentionsList) (entry : Diagnostic * nat * Message)
  : gmap nat EditorIntentionsList :=
  let '(d, r, m) := entry in
  match codeString d with
  | Some c => onLinterMessageAdded env path (position m) r c d lists
  | None => lists
  end.

(** The index of one editor after such registrations. *)
Definition indexOf (path : string) (entries : list (Diagnostic * nat * Message))
  : EditorIntentionsList :=
  foldl (λ l entry,
           let '(d, r, m) := entry in
           match codeString d with
           | Some c => add (position m) (Build_MessageBundle r c path) d l
           | None => l
           end) emptyList entries.

Definition isOnDidSave (e : event) : bool :=
  match e with OnDidSave _ => true | _ => false end.

(** ** Examples *)

Definition noRange : Lsp.Range :=
  Lsp.mkRange (Lsp.mkPosition 1 0) (Lsp.mkPosition 1 5).

(** The diagnostic of scenario C, and one without a code. *)
Definition unusedVar : Diagnostic :=
  Build_Diagnostic noRange (Some Lsp.Warning) (Some (CodeString "W1")) None
    (Some "tsc") "unused var" [] None None.
Definition noCode : Diagnostic :=
  Build_Diagnostic noRange (Some Lsp.Error) None None (Some "tsc") "bad" [] None None.
Definition hint : Diagnostic :=
  Build_Diagnostic noRange (Some Lsp.Hint) (Some (CodeNumber 7)) None
    (Some "tsc") "style" [] None None.

(** A client that ignores hints, with one editor open on the file. *)
Definition exampleEnv : environment :=
  Build_environment Uri.posix
    [[OtherItem; TextEditorItem 4 (Some "/proj/src/a.ts")]]
    (Some (Build_LinterDelegate
             (λ d _ _, bool_decide (severity d = Some Lsp.Hint)) None)).

Definition exampleParams : PublishDiagnosticsParams :=
  Build_PublishDiagnosticsParams "file:///proj/src/a.ts" [unusedVar; hint; noCode].

Definition exampleState : state :=
  State [] ∅ ∅ [9] ∅ ∅ (Some ∅) [].

End Diagnostics.

(* ================================================================== *)
(** * adapters/apply-edit-adapter.ts: applying a workspace edit *)
(* ================================================================== *)

Module ApplyEdit.

Import Atom.

(** ** The host: the file system and the text of a buffer *)

(** [fs.Stats], as far as the adapter reads it. *)
Record Stats := mkStats { isDirectory : bool }.

(** [fs.promises] and [rimraf].  [lstat] answers the stats or nothing
    (the adapter turns a rejection into [false]); [access] answers whether
    it resolved; the other operations settle, and leave a file system. *)
Class FileSystem (FS : Type) := {
  lstat : FS → string → option Stats;
  access : FS → string → bool;
  unlink : FS → string → outcome unit * FS;
  rmdir : FS → string → outcome unit * FS;
  rimraf : FS → string → outcome unit * FS;
  rename : FS → string → string → outcome unit * FS;
  writeFile : FS → string → string → outcome unit * FS
}.

(** The text of a buffer: the length of a row (nothing past the last
    row), the text with a range replaced, where the marker layer puts a
    range that was marked on a text after the given changes, and the text
    the workspace loads when it opens a path that is not open yet. *)
Class TextModel (FS Text : Type) := {
  lineLength : Text → Z → option Z;
  replaceRange : Text → Range → string → Text;
  trackedRange : Text → list (Range * string) → Range → Range;
  loadText : FS → string → outcome Text
}.

(** [sync] code returns or throws. *)
Inductive result (T : Type) : Type :=
  | Returned (v : T)
  | Thrown (message : string).
Arguments Returned {T} v.
Arguments Thrown {T} message.

(** ** The text buffer and its undo history *)

Section buffers.
Context {Text : Type}.

(** The undo stack, the newest entry first: checkpoints, and changes
    with the text before them. *)
Inductive entry :=
  | Checkpoint (id : nat)
  | Transaction (before : Text).

Record TextBuffer := Buffer {
  getPath : string;
  text : Text;
  undoStack : list entry;
  nextCheckpointId : nat
}.

Definition isTransaction (e : entry) : bool :=
  match e with Transaction _ => true | Checkpoint _ => false end.

Definition undo (restored : Text) (e : entry) : Text :=
  match e with Transaction before => before | Checkpoint _ => restored end.

Fixpoint checkpointIds (stack : list entry) : list nat :=
  match stack with
  | [] => []
  | Checkpoint id :: below => id :: checkpointIds below
  | Transaction _ :: below => checkpointIds below
  end.

(** The entries above a checkpoint and those below it, when it is on the
    stack. *)
Fixpoint sinceCheckpoint (checkpoint : nat) (stack : list entry)
  : option (list entry * list entry) :=
  match stack with
  | [] => None
  | Checkpoint c :: below =>
      if decide (c = checkpoint) then Some ([], below)
      else (λ ab, (Checkpoint c :: ab.1, ab.2)) <$> sinceCheckpoint checkpoint below
  | Transaction before :: below =>
      (λ ab, (Transaction before :: ab.1, ab.2)) <$> sinceCheckpoint checkpoint below
  end.

(** [buffer.createCheckpoint()]. *)
Definition createCheckpoint (b : TextBuffer) : nat * TextBuffer :=
  (nextCheckpointId b,
   Buffer (getPath b) (text b) (Checkpoint (nextCheckpointId b) :: undoStack b)
          (S (nextCheckpointId b))).

(** [buffer.revertToCheckpoint(checkpoint)]: undoes the changes since the
    checkpoint and drops it with all above it; [false] and no change when
    the checkpoint is not on the stack. *)
Definition revertToCheckpoint (checkpoint : nat) (b : TextBuffer)
  : bool * TextBuffer :=
  match sinceCheckpoint checkpoint (undoStack b) with
  | Some (above, below) =>
      (true, Buffer (getPath b) (foldl undo (text b) above) below
                    (nextCheckpointId b))
  | None => (false, b)
  end.

(** [buffer.groupChangesSinceCheckpoint(checkpoint)]: the changes since
    the checkpoint become one, the checkpoint stays. *)
Definition groupChangesSinceCheckpoint (checkpoint : nat) (b : TextBuffer)
  : bool * TextBuffer :=
  match sinceCheckpoint checkpoint (undoStack b) with
  | Some (above, below) =>
      (true,
       if existsb isTransaction above
       then Buffer (getPath b) (text b)
                   (Transaction (foldl undo (text b) above)
                      :: Checkpoint checkpoint :: below)
                   (nextCheckpointId b)
       else b)
  | None => (false, b)
  end.

(** Every checkpoint on the stack was handed out by this buffer. *)
Definition wfBuffer (b : TextBuffer) : Prop :=
  Forall (λ id, id < nextCheckpointId b) (checkpointIds (undoStack b)).

End buffers.
Arguments entry : clear implicits.
Arguments TextBuffer : clear implicits.

(** ** The workspace edit *)

Record CreateFileOptions := mkCreateFileOptions {
  create_overwrite : option bool;
  create_ignoreIfExists : option bool
}.
Record RenameFileOptions := mkRenameFileOptions {
  rename_overwrite : option bool;
  rename_ignoreIfExists : option bool
}.
Record DeleteFileOptions := mkDeleteFileOptions {
  recursive : option bool;
  ignoreIfNotExists : option bool
}.

(** An entry of [documentChanges]. *)
Inductive DocumentChange :=
  | TextDocumentEdit (uri : string) (edits : list Lsp.TextEdit)
  | CreateFile (uri : string) (options : option CreateFileOptions)
  | RenameFile (oldUri newUri : string) (options : option RenameFileOptions)
  | DeleteFile (uri : string) (options : option DeleteFileOptions).

(** [edit.kind]; a text document edit has none. *)
Definition kind (edit : DocumentChange) : string :=
  match edit with
  | TextDocumentEdit _ _ => "undefined"
  | CreateFile _ _ => "create"
  | RenameFile _ _ _ => "rename"
  | DeleteFile _ _ => "delete"
  end.

(** [WorkspaceEdit]: both keys are optional; [changes] lists the edits of
    each URI in the order of [Object.keys]. *)
Record WorkspaceEdit := mkWorkspaceEdit {
  documentChanges : option (list DocumentChange);
  changes : option (list (string * list Lsp.TextEdit))
}.

(** [normalize(workspaceEdit)], the [documentChanges] it leaves. *)
Definition normalize (workspaceEdit : WorkspaceEdit) : list DocumentChange :=
  match documentChanges workspaceEdit with
  | Some documentChanges => documentChanges
  | None =>
      map (λ ue, TextDocumentEdit ue.1 ue.2) (default [] (changes workspaceEdit))
  end.

(** The message of the [TypeError] of [new URL]. *)
Definition invalidURL : string := "Invalid URL".

(** JavaScript truthiness of an optional flag. *)
Definition flag (o : option bool) : bool := default false o.

Record Notification := mkNotification {
  message : string;
  description : string;
  detail : string
}.

(** ** The adapter *)

Section adapter.
Context {FS Text : Type} `{!FileSystem FS} `{!TextModel FS Text}.
Variable plat : Uri.platform.

(** The workspace: the file system, the open editors with their buffers
    (one editor for a path, named by it), the editors that have a marker
    layer, and the notifications shown. *)
Record world := World {
  fs : FS;
  buffers : gmap string (TextBuffer Text);
  _markerLayersForEditors : gset string;
  notifications : list Notification
}.

Definition setFs (fs' : FS) (w : world) : world :=
  World fs' (buffers w) (_markerLayersForEditors w) (notifications w).
Definition setBuffers (bs : gmap string (TextBuffer Text)) (w : world) : world :=
  World (fs w) bs (_markerLayersForEditors w) (notifications w).

(** [atom.workspace.open(path, { searchAllPanes: true, ... })]. *)
Definition workspace_open (path : string) (w : world)
  : outcome (TextBuffer Text) * world :=
  match buffers w !! path with
  | Some b => (Resolved b, w)
  | None =>
      match loadText (fs w) path with
      | Resolved t =>
          let b := Buffer path t [] 0 in
          (Resolved b, setBuffers (<[path := b]> (buffers w)) w)
      | Rejected reason => (Rejected reason, w)
      end
  end.

(** [atom.notifications.addError(message, { description, detail })]. *)
Definition addError (message description detail : string) (w : world) : world :=
  World (fs w) (buffers w) (_markerLayersForEditors w)
        (notifications w ++ [mkNotification message description detail]).

(** [findOrCreateMarkerLayerForEditor(editor)]. *)
Definition findOrCreateMarkerLayerForEditor (editor : string) (w : world) : world :=
  if decide (editor ∈ _markerLayersForEditors w) then w
  else World (fs w) (buffers w) ({[editor]} ∪ _markerLayersForEditors w)
             (notifications w).

(** [buffer.setTextInRange(range, text)]. *)
Definition setTextInRange (range : Range) (newText : string) (b : TextBuffer Text)
  : TextBuffer Text :=
  Buffer (getPath b) (replaceRange (text b) range newText)
         (Transaction (text b) :: undoStack b) (nextCheckpointId b).

(** [validateEdit(buffer, edit, prevEdit)]: the message it throws, if
    any. *)
Definition validateEdit (b : TextBuffer Text) (edit : Convert.TextEdit)
    (prevEdit : option Convert.TextEdit) : option string :=
  let path := getPath b in
  if match prevEdit with
     | Some prevEdit =>
         (0 <? Point_compare (end_ (Convert.oldRange edit))
                             (start (Convert.oldRange prevEdit)))%Z
     | None => false
     end
  then Some ("Found overlapping edit ranges in " +:+ path)
  else
    let startRow := row (start (Convert.oldRange edit)) in
    let startCol := column (start (Convert.oldRange edit)) in
    match lineLength (text b) startRow with
    | None =>
        Some ("Out of range edit on " +:+ path +:+ ":" +:+ pretty (startRow + 1)%Z
              +:+ ":" +:+ pretty (startCol + 1)%Z +:+ ". Desired edit range: "
              +:+ Range_toString (Convert.oldRange edit))
    | Some _ => None
    end.

(** [edits.sort((edit1, edit2) => -edit1.oldRange.compare(edit2.oldRange))],
    which is stable. *)
Fixpoint insertEdit (edit : Convert.TextEdit) (sorted : list Convert.TextEdit)
  : list Convert.TextEdit :=
  match sorted with
  | [] => [edit]
  | x :: rest =>
      if (- Range_compare (Convert.oldRange edit) (Convert.oldRange x) <? 0)%Z
      then edit :: sorted
      else x :: insertEdit edit rest
  end.

Definition sortEdits (edits : list Convert.TextEdit) : list Convert.TextEdit :=
  foldr insertEdit [] (rev edits).

(** The [reduce] of [applyEdits] over the sorted edits.  Every edit was
    marked on the text [marked] before the first change, so the marker of
    the current edit is never missing; its range is where the layer has
    moved it by the changes [made] so far. *)
Fixpoint applySorted (marked : Text) (made : list (Range * string))
    (previous : option Convert.TextEdit) (edits : list Convert.TextEdit)
    (b : TextBuffer Text) : result unit * TextBuffer Text :=
  match edits with
  | [] => (Returned (), b)
  | current :: rest =>
      match validateEdit b current previous with
      | Some message => (Thrown message, b)
      | None =>
          let range := trackedRange marked made (Convert.oldRange current) in
          applySorted marked (made ++ [(range, Convert.newText current)])
                      (Some current) rest
                      (setTextInRange range (Convert.newText current) b)
      end
  end.

(** [applyEdits(editor, edits)], on the buffer [b] of the editor. *)
Definition applyEdits (editor : string) (b : TextBuffer Text)
    (edits : list Convert.TextEdit) (w : world) : result nat * world :=
  let '(checkpoint, b) := createCheckpoint b in
  let w := findOrCreateMarkerLayerForEditor editor w in
  match applySorted (text b) [] None (sortEdits edits) b with
  | (Returned _, b) =>
      (Returned checkpoint,
       setBuffers (<[editor := (groupChangesSinceCheckpoint checkpoint b).2]>
                     (buffers w)) w)
  | (Thrown message, b) =>
      (Thrown message,
       setBuffers (<[editor := (revertToCheckpoint checkpoint b).2]>
                     (buffers w)) w)
  end.

(** [handleResourceOperation(edit)], on the file system. *)
Definition handleResourceOperation (edit : DocumentChange) (fs : FS)
  : outcome unit * FS :=
  match edit with
  | DeleteFile uri options =>
      match Uri.uriToPath plat uri with
      | None => (Rejected invalidURL, fs)
      | Some path =>
          match lstat fs path with
          | None =>
              if bool_decide ((options ≫= ignoreIfNotExists) ≠ Some false)
              then (Resolved (), fs)
              else (Rejected "Target doesn't exist.", fs)
          | Some stats =>
              if isDirectory stats then
                if flag (options ≫= recursive) then rimraf fs path
                else rmdir fs path
              else unlink fs path
          end
      end
  | RenameFile oldUri newUri options =>
      match Uri.uriToPath plat oldUri, Uri.uriToPath plat newUri with
      | Some oldPath, Some newPath =>
          let exists_ := access fs newPath in
          let ignoreIfExists := flag (options ≫= rename_ignoreIfExists) in
          let overwrite := flag (options ≫= rename_overwrite) in
          if exists_ && ignoreIfExists && negb overwrite then (Resolved (), fs)
          else if exists_ && negb ignoreIfExists && negb overwrite
          then (Rejected "Target exists.", fs)
          else rename fs oldPath newPath
      | _, _ => (Rejected invalidURL, fs)
      end
  | CreateFile uri options =>
      match Uri.uriToPath plat uri with
      | None => (Rejected invalidURL, fs)
      | Some path =>
          let exists_ := access fs path in
          let ignoreIfExists := flag (options ≫= create_ignoreIfExists) in
          let overwrite := flag (options ≫= create_overwrite) in
          if exists_ && ignoreIfExists && negb overwrite then (Resolved (), fs)
          else writeFile fs path ""
      end
  | TextDocumentEdit _ _ => (Resolved (), fs)
  end.

(** One of the promises of [apply]: what it settles with (the checkpoint
    it pushed, for a text document edit) and the workspace it leaves. *)
Definition settle (edit : DocumentChange) (w : world)
  : outcome (option (string * nat)) * world :=
  match edit with
  | TextDocumentEdit uri edits =>
      match Uri.uriToPath plat uri with
      | None => (Rejected invalidURL, w)
      | Some path =>
          match workspace_open path w with
          | (Rejected reason, w) => (Rejected reason, w)
          | (Resolved buffer, w) =>
              match applyEdits path buffer
                               (Convert.convertLsTextEdits (Some edits)) w with
              | (Thrown message, w) => (Rejected message, w)
              | (Returned checkpoint, w) => (Resolved (Some (path, checkpoint)), w)
              end
          end
      end
  | _ =>
      match handleResourceOperation edit (fs w) with
      | (Rejected reason, fs') =>
          (Rejected ("Error during " +:+ kind edit +:+ " resource operation: "
                     +:+ reason),
           setFs fs' w)
      | (Resolved _, fs') => (Resolved None, setFs fs' w)
      end
  end.

(** The promises settle one after the other, in the order [edits], until
    one rejects: the reason if one did, the checkpoints pushed, and the
    workspace. *)
Fixpoint settleAll (edits : list DocumentChange)
    (checkpoints : list (string * nat)) (w : world)
  : option string * list (string * nat) * world :=
  match edits with
  | [] => (None, checkpoints, w)
  | edit :: rest =>
      match settle edit w with
      | (Rejected reason, w) => (Some reason, checkpoints, w)
      | (Resolved pushed, w) => settleAll rest (checkpoints ++ option_list pushed) w
      end
  end.

(** [checkpoints.forEach(({ buffer, checkpoint }) =>
    buffer.revertToCheckpoint(checkpoint))]. *)
Definition revertAll (checkpoints : list (string * nat)) (w : world) : world :=
  foldl (λ w bc,
           setBuffers (alter (λ b, (revertToCheckpoint bc.2 b).2) bc.1 (buffers w)) w)
        w checkpoints.

(** [apply(workspaceEdit)]: [applied], and the workspace when the promise
    of [apply] resolves.  [order] lists the entries of [documentChanges]
    by index, in the order their promises settle; the entries after the
    first that rejects have not settled when [apply] resolves. *)
Definition apply (workspaceEdit : WorkspaceEdit) (order : list nat) (w : world)
  : bool * world :=
  let documentChanges := normalize workspaceEdit in
  match settleAll (omap (λ i, documentChanges !! i) order) [] w with
  | (None, _, w) => (true, w)
  | (Some reason, checkpoints, w) =>
      (false,
       revertAll checkpoints
         (addError "workspace/applyEdits failed" "Failed to apply edits." reason w))
  end.

(** *** What the properties speak of *)

(** The path of the buffer a change edits. *)
Definition editedPath (edit : DocumentChange) : option string :=
  match edit with
  | TextDocumentEdit uri _ => Uri.uriToPath plat uri
  | _ => None
  end.

(** The file system after the resource operations among [edits]. *)
Definition resourceEffects (edits : list DocumentChange) (fs : FS) : FS :=
  foldl (λ fs edit, (handleResourceOperation edit fs).2) fs edits.

(** The checkpoints pushed for the buffer of [path], the oldest first. *)
Definition checkpointsOf (path : string) (checkpoints : list (string * nat))
  : list nat :=
  map snd (List.filter (λ bc, bool_decide (bc.1 = path)) checkpoints).

(** [t] is the text the buffer of [path] had in the workspace [w], or the
    text it was opened with when [w] has no such buffer. *)
Definition original (w : world) (path : string) (t : Text) : Prop :=
  match buffers w !! path with
  | Some b => t = text b
  | None => ∃ fs0, loadText fs0 path = Resolved t
  end.

(** What holds of the buffers while the promises settle, relative to the
    workspace [w0] at the call. *)
Definition invariant (w0 : world) (checkpoints : list (string * nat)) (w : world)
  : Prop :=
  ∀ path,
    match buffers w !! path with
    | None => buffers w0 !! path = None ∧ checkpointsOf path checkpoints = []
    | Some b =>
        wfBuffer b ∧
        ∃ t0, original w0 path t0 ∧
          match checkpointsOf path checkpoints with
          | [] => text b = t0
          | first :: more =>
              ∃ above below,
                sinceCheckpoint first (undoStack b) = Some (above, below) ∧
                foldl undo (text b) above = t0 ∧
                Forall (λ id, id < first) (checkpointIds below) ∧
                Forall (λ id, first < id) more ∧
                first < nextCheckpointId b
          end
    end.

End adapter.
Arguments world : clear implicits.

(** ** Examples: a flat file system in memory and a text of lines *)

Inductive node := File (content : string) | Directory.

#[global] Instance node_eq_dec : EqDecision node.
Proof. solve_decision. Defined.

Definition memfs := gmap string node.

Definition isNode (n : option node) : bool :=
  match n with Some _ => true | None => false end.

#[global] Instance memfs_FileSystem : FileSystem memfs := {
  lstat fs path :=
    (λ n, mkStats (bool_decide (n = Directory))) <$> fs !! path;
  access fs path := isNode (fs !! path);
  unlink fs path :=
    match fs !! path with
    | Some (File _) => (Resolved (), delete path fs)
    | Some Directory => (Rejected "EISDIR", fs)
    | None => (Rejected "ENOENT", fs)
    end;
  rmdir fs path :=
    match fs !! path with
    | Some Directory => (Resolved (), delete path fs)
    | Some (File _) => (Rejected "ENOTDIR", fs)
    | None => (Rejected "ENOENT", fs)
    end;
  rimraf fs path := (Resolved (), delete path fs);
  rename fs oldPath newPath :=
    match fs !! oldPath with
    | Some n => (Resolved (), <[newPath := n]> (delete oldPath fs))
    | None => (Rejected "ENOENT", fs)
    end;
  writeFile fs path data :=
    match fs !! path with
    | Some Directory => (Rejected "EISDIR", fs)
    | _ => (Resolved (), <[path := File data]> fs)
    end
}.

Definition newline : ascii := ascii_of_nat 10.

(** The lengths of the rows of a text. *)
Fixpoint lineLengths (t : string) (n : Z) : list Z :=
  match t with
  | EmptyString => [n]
  | String c rest =>
      if decide (c = newline) then n :: lineLengths rest 0%Z
      else lineLengths rest (n + 1)%Z
  end.

(** The offset of a point in a text, clipped to the text. *)
Fixpoint offset (t : string) (row column : nat) : nat :=
  match t with
  | EmptyString => 0
  | String c rest =>
      match row with
      | 0 =>
          if decide (c = newline) then 0
          else match column with
               | 0 => 0
               | S column => S (offset rest 0 column)
               end
      | S row' => S (offset rest (if decide (c = newline) then row' else row) column)
      end
  end.

Definition offsetOf (t : string) (p : Point) : nat :=
  offset t (Z.to_nat (row p)) (Z.to_nat (column p)).

#[global] Instance string_TextModel : TextModel memfs string := {
  lineLength t row :=
    if (row <? 0)%Z then None else lineLengths t 0%Z !! Z.to_nat row;
  replaceRange t range newText :=
    let a := offsetOf t (start range) in
    let b := offsetOf t (end_ range) in
    String.substring 0 a t +:+ newText
      +:+ String.substring b (String.length t - b) t;
  trackedRange _ _ range := range;
  loadText fs path :=
    match fs !! path with
    | Some (File content) => Resolved content
    | Some Directory => Rejected "EISDIR"
    | None => Resolved ""
    end
}.

Definition lsRange (r1 c1 r2 c2 : Z) : Lsp.Range :=
  Lsp.mkRange (Lsp.mkPosition r1 c1) (Lsp.mkPosition r2 c2).

(** A file is created, an open buffer is edited, and the deletion of a
    file that is not there is asked for. *)
Definition exampleEdit : WorkspaceEdit :=
  mkWorkspaceEdit
    (Some [CreateFile "file:///proj/new.ts" None;
           TextDocumentEdit "file:///proj/a.ts"
             [Lsp.mkTextEdit (lsRange 0 4 0 5) "y";
              Lsp.mkTextEdit (lsRange 1 0 1 0) "// ok"];
           DeleteFile "file:///proj/missing.ts"
             (Some (mkDeleteFileOptions None (Some false)))])
    None.

Definition exampleText : string :=
  String.append "let x = 1" (String newline "x").

Definition exampleWorld : world memfs string :=
  World (<["/proj/a.ts" := File exampleText]> ∅)
        (<["/proj/a.ts" := Buffer "/proj/a.ts" exampleText [] 0]> ∅)
        ∅ [].

End ApplyEdit.
(* ================================================================== *)
(** * convert.ts and the autocomplete adapter: selectors of grammar scopes *)
(* ================================================================== *)

Module Scopes.

(** The double quote. *)
Definition quot : ascii := "034"%char.

(** What [s.replace(/[...]/g, (c) => attributeMap[c])] writes for one
    character: its entity for the five characters of the expression, the
    character itself otherwise. *)
Definition encodeChar (c : ascii) : string :=
  if Ascii.eqb c "&" then "&amp;"
  else if Ascii.eqb c "<" then "&lt;"
  else if Ascii.eqb c ">" then "&gt;"
  else if Ascii.eqb c quot then "&quot;"
  else if Ascii.eqb c "'" then "&apos;"
  else String c EmptyString.

(** [Convert.encodeHTMLAttribute(s)]. *)
Fixpoint encodeHTMLAttribute (s : string) : string :=
  match s with
  | EmptyString => EmptyString
  | String c rest => encodeChar c +:+ encodeHTMLAttribute rest
  end.

(** [g.replace(/\./g, " ")]. *)
Fixpoint dotsToSpaces (g : string) : string :=
  match g with
  | EmptyString => EmptyString
  | String c rest =>
      String (if Ascii.eqb c "." then " "%char else c) (dotsToSpaces rest)
  end.

(** [array.join(separator)]. *)
Fixpoint join (separator : string) (l : list string) : string :=
  match l with
  | [] => EmptyString
  | [x] => x
  | x :: rest => x +:+ separator +:+ join separator rest
  end.

(** The selector of one grammar scope. *)
Definition textEditorScope (g : string) : string :=
  "atom-text-editor[data-grammar=" +:+
  String quot (encodeHTMLAttribute (dotsToSpaces g) +:+ String quot "]").

(** [Convert.grammarScopesToTextEditorScopes(grammarScopes)]. *)
Definition grammarScopesToTextEditorScopes (grammarScopes : list string) : string :=
  join ", " (map textEditorScope grammarScopes).

(** [grammarScope.includes(".")]. *)
Fixpoint includesDot (s : string) : bool :=
  match s with
  | EmptyString => false
  | String c rest => Ascii.eqb c "." || includesDot rest
  end.

(** [grammarScope[0] !== "."]. *)
Definition firstIsNotDot (s : string) : bool :=
  match s with
  | EmptyString => true
  | String c _ => negb (Ascii.eqb c ".")
  end.

(** [grammarScopeToAutoCompleteSelector(grammarScope)]. *)
Definition grammarScopeToAutoCompleteSelector (grammarScope : string) : string :=
  if includesDot grammarScope && firstIsNotDot grammarScope
  then String "." grammarScope else grammarScope.

(** The [selector] of [provideAutocomplete()], for the grammar scopes of
    the client. *)
Definition autocompleteSelector (grammarScopes : list string) : string :=
  join ", " (map grammarScopeToAutoCompleteSelector grammarScopes).

(** How often a character occurs in a string. *)
Fixpoint occurrences (c : ascii) (s : string) : nat :=
  match s with
  | EmptyString => 0
  | String x rest => (if Ascii.eqb x c then 1 else 0) + occurrences c rest
  end.

End Scopes.
(* ================================================================== *)
(** * auto-languageclient.ts: the standard error of the server *)
(* ================================================================== *)

Module Stderr.

Definition newline : ascii := "010"%char.

(** [s.split("\n")]: never empty; the empty string gives one empty
    line. *)
Fixpoint split (s : string) : list string :=
  match s with
  | EmptyString => [EmptyString]
  | String c rest =>
      if Ascii.eqb c newline then EmptyString :: split rest
      else match split rest with
           | line :: lines => String c line :: lines
           | [] => [String c EmptyString]
           end
  end.

(** [lines.slice(-n)]. *)
Definition slice_last {A} (n : nat) (l : list A) : list A :=
  drop (length l - n) l.

(** [s.split("\n").slice(-5).join("\n")]. *)
Definition lastLines (s : string) : string :=
  Scopes.join (String newline EmptyString) (slice_last 5 (split s)).

(** What the client keeps and what it logs. *)
Record state := State {
  processStdErr : string;
  warnings : list string
}.

(** The [processStdErr] of a new client. *)
Definition initial : state := State EmptyString [].

Definition isEmpty (s : string) : bool :=
  match s with EmptyString => true | String _ _ => false end.

(** [handleServerStderr(stderr, projectPath)]: a warning for each line
    that is not empty. *)
Definition handleServerStderr (stderr : string) (st : state) : state :=
  State (processStdErr st)
        (warnings st ++
           map (λ line, "stderr " +:+ line)
               (List.filter (λ l, negb (isEmpty l)) (split stderr))).

(** [onSpawnStdErrData(chunk, projectPath)], with
    [errorString = chunk.toString()]. *)
Definition onSpawnStdErrData (st : state) (errorString : string) : state :=
  let st := handleServerStderr errorString st in
  State (lastLines (processStdErr st +:+ errorString)) (warnings st).

(** No newline in a line. *)
Definition oneLine (s : string) : Prop := Scopes.occurrences newline s = 0.

(** All the chunks, one after the other. *)
Definition received (chunks : list string) : string :=
  foldr String.append EmptyString chunks.

End Stderr.
(* ================================================================== *)
(** * The workspace file operations adapter *)
(* ================================================================== *)

Module FileOperations.

(** [FileOperationPatternKind]: ['file'] or ['folder']. *)
Inductive FileOperationPatternKind := file | folder.

Definition kindName (k : FileOperationPatternKind) : string :=
  match k with file => "file" | folder => "folder" end.

(** [FileOperationFilter], as far as the adapter reads it: [scheme] and
    [pattern.glob]. *)
Record FileOperationFilter := mkFilter {
  scheme : option string;
  glob : option string
}.

(** [FileOperationRegistrationOptions]. *)
Record FileOperationRegistrationOptions := mkOptions {
  filters : option (list FileOperationFilter)
}.

Record MoveAction := mkMove { initialPath : string; newPath : string }.

(** [fs.Stats], as far as the adapter reads it. *)
Record Stats := mkStats { isDirectory : bool; isFile : bool }.

(** What the adapter asks of its surroundings: [fs/promises.lstat],
    [atom.project.relativizePath] and [minimatch]. *)
Record host := mkHost {
  lstat : string → outcome Stats;
  relativizePath : string → option string * string;
  minimatch : string → string → bool
}.

(** A string that is set and not empty. *)
Definition truthy (o : option string) : option string :=
  match o with
  | Some EmptyString | None => None
  | Some s => Some s
  end.

(** The values a callback of [Array.prototype.filter] returns here, and
    [ToBoolean] of them: a promise is an object, and an object is true. *)
Inductive value :=
  | Boolean (b : bool)
  | Promise (settled : outcome bool).

Definition ToBoolean (v : value) : bool :=
  match v with
  | Boolean b => b
  | Promise _ => true
  end.

Section adapter.
Variable h : host.
Variable plat : Uri.platform.

(** [getTypeForFilePath(filePath)]. *)
Definition getTypeForFilePath (filePath : string)
  : outcome (option FileOperationPatternKind) :=
  match lstat h filePath with
  | Rejected reason => Rejected reason
  | Resolved stat =>
      Resolved (if isDirectory stat then Some folder
                else if isFile stat then Some file
                else None)
  end.

(** [pathMatchesGlob(filePath, glob)]. *)
Definition pathMatchesGlob (filePath glob : string) : bool :=
  let '(projectPath, relativePath) := relativizePath h filePath in
  match truthy projectPath with
  | None => false
  | Some _ => minimatch h relativePath glob
  end.

(** The loop of [pathMatchesFilters] over the filters. *)
Fixpoint matchesSomeFilter (type : FileOperationPatternKind) (filePath : string)
    (filters : list FileOperationFilter) : bool :=
  match filters with
  | [] => false
  | filter :: rest =>
      match truthy (scheme filter) with
      | Some s =>
          if negb (String.eqb (kindName type) s)
          then matchesSomeFilter type filePath rest
          else match truthy (glob filter) with
               | None => true
               | Some g => pathMatchesGlob filePath g
               end
      | None =>
          match truthy (glob filter) with
          | None => true
          | Some g => pathMatchesGlob filePath g
          end
      end
  end.

(** [pathMatchesFilters(filePath, filters)]. *)
Definition pathMatchesFilters (filePath : string)
    (filters : list FileOperationFilter) : outcome bool :=
  match getTypeForFilePath filePath with
  | Rejected reason => Rejected reason
  | Resolved None => Resolved false
  | Resolved (Some type) =>
      match filters with
      | [] => Resolved true
      | _ => Resolved (matchesSomeFilter type filePath filters)
      end
  end.

(** [_filter(capability, items)] and [_filter(capability, items,
    property)]: [pathValue] reads the path of an item.  The callback of
    [items.filter] is an [async] function, so what [filter] tests is the
    promise it returns. *)
Definition _filter {A} (capability : option FileOperationRegistrationOptions)
    (items : list A) (pathValue : A → string) : list A :=
  match capability ≫= filters with
  | None => items
  | Some filters =>
      List.filter
        (λ item, ToBoolean (Promise (pathMatchesFilters (pathValue item) filters)))
        items
  end.

(** [property === 'initialPath' ? item.initialPath : item.newPath]. *)
Definition movePath (property : string) (item : MoveAction) : string :=
  if String.eqb property "initialPath" then initialPath item else newPath item.

(** [buildCreateOrDeleteFilesParams(paths)], the [uri] of each file;
    [None] when [Convert.pathToUri] throws. *)
Definition buildCreateOrDeleteFilesParams (paths : list string)
  : option (list string) :=
  mapM (Uri.pathToUri plat) paths.

(** [buildRenameFilesParams(paths)], the [oldUri] and [newUri] of each
    file. *)
Definition buildRenameFilesParams (paths : list MoveAction)
  : option (list (string * string)) :=
  mapM (λ m, oldUri ← Uri.pathToUri plat (initialPath m);
             newUri ← Uri.pathToUri plat (newPath m);
             Some (oldUri, newUri)) paths.

(** The parameters [didCreateFiles(paths)] and [didDeleteFiles(paths)]
    send, for the capability of the server. *)
Definition didCreateOrDeleteFiles
    (capability : option FileOperationRegistrationOptions) (paths : list string)
  : option (list string) :=
  buildCreateOrDeleteFilesParams (_filter capability paths id).

(** The parameters [didRenameFiles(paths)] sends. *)
Definition didRenameFiles
    (capability : option FileOperationRegistrationOptions) (paths : list MoveAction)
  : option (list (string * string)) :=
  buildRenameFilesParams (_filter capability paths (movePath "newPath")).

(** A filter applies to a path of the given type when it has no scheme
    or its scheme is the name of the type. *)
Definition applies (type : FileOperationPatternKind) (filter : FileOperationFilter)
  : bool :=
  match truthy (scheme filter) with
  | Some s => String.eqb (kindName type) s
  | None => true
  end.

(** What one filter says of a path. *)
Definition verdict (filePath : string) (filter : FileOperationFilter) : bool :=
  match truthy (glob filter) with
  | None => true
  | Some g => pathMatchesGlob filePath g
  end.

End adapter.

(** A project at [/proj] with TypeScript sources; a matcher that knows
    two patterns. *)
Definition exampleHost : host :=
  mkHost (λ _, Resolved (mkStats false true))
         (λ p, (Some "/proj", p))
         (λ p g, String.eqb g "**" || (String.eqb g "*.ts" && String.eqb p "/proj/a.ts")).

End FileOperations.
(* ================================================================== *)
(** * adapters/intentions-list-adapter.ts: the intentions at a point *)
(* ================================================================== *)

(** The order of points and of the ends of a range, in numbers. *)
Module Ranges.

Definition before (a b : Atom.Point) : Prop :=
  (Atom.row a < Atom.row b ∨
   (Atom.row a = Atom.row b ∧ Atom.column a ≤ Atom.column b))%Z.

(** A range is in order when its start is not after its end. *)
Definition inOrder (r : Atom.Range) : Prop := before (Atom.start r) (Atom.end_ r).

(** A range covers another. *)
Definition covers (outer inner : Atom.Range) : Prop :=
  before (Atom.start outer) (Atom.start inner) ∧
  before (Atom.end_ inner) (Atom.end_ outer).

(** The same order on the positions of the protocol. *)
Definition positionBefore (a b : Lsp.Position) : Prop :=
  (Lsp.line a < Lsp.line b ∨
   (Lsp.line a = Lsp.line b ∧ Lsp.character a ≤ Lsp.character b))%Z.

End Ranges.

Module Intentions.

Import Diagnostics.

(** [RangeMap.getResultsForPoint(point)]: the values of the ranges that
    contain the point, in the order of insertion.  The values are
    objects, so none is skipped for being false. *)
Definition getResultsForPoint {T} (entries : list (Atom.Range * T))
    (point : Atom.Point) : list T :=
  map snd (List.filter (λ entry, Atom.Range_containsPoint entry.1 point) entries).

Definition getLinterMessagesForBufferPosition (l : EditorIntentionsList)
    (point : Atom.Point) : list MessageBundle :=
  getResultsForPoint (linterMessageBundleByRange l) point.

Definition getDiagnosticsForBufferPosition (l : EditorIntentionsList)
    (point : Atom.Point) : list Diagnostic :=
  getResultsForPoint (diagnosticByRange l) point.

(** [largestRangeForDiagnosticMessages(diagnostics)]. *)
Definition largestRangeForDiagnosticMessages (diagnostics : list Diagnostic)
  : option Atom.Range :=
  foldl (λ largestRange diagnostic,
           let range := Convert.lsRangeToAtomRange (range diagnostic) in
           match largestRange with
           | None => Some range
           | Some largestRange => Some (Atom.Range_union largestRange range)
           end)
        None diagnostics.

(** The last selection of the editor. *)
Record Selection := mkSelection {
  isEmpty : bool;
  getBufferRange : Atom.Range
}.

(** The first part of [getIntentions]: the diagnostics at the cursor and
    the range for which code actions are asked. *)
Definition codeActionRequest (intentionsList : option EditorIntentionsList)
    (bufferPosition : Atom.Point) (selection : Selection)
  : Atom.Range * list Diagnostic :=
  let range := Atom.Range_new bufferPosition bufferPosition in
  let diagnostics :=
    match intentionsList with
    | Some l => getDiagnosticsForBufferPosition l bufferPosition
    | None => []
    end in
  let codeActionRange :=
    match intentionsList with
    | Some _ => largestRangeForDiagnosticMessages diagnostics
    | None => None
    end in
  (match codeActionRange with
   | Some r => r
   | None => if negb (isEmpty selection) then getBufferRange selection else range
   end,
   diagnostics).

(** [Command] of the protocol. *)
Record Command := mkCommand {
  commandTitle : string;
  command : string;
  arguments : option (list string)
}.

(** [CodeAction] of the protocol, as far as the conversion reads it; the
    workspace edit is named by a reference. *)
Record CodeAction := mkCodeAction {
  title : string;
  kind : option string;
  edit : option nat;
  actionCommand : option Command
}.

(** What the server answers: commands and code actions. *)
Inductive action :=
  | IsCommand (c : Command)
  | IsCodeAction (a : CodeAction).

(** What the callback of an intention does when it is selected. *)
Inductive callback :=
  | ApplyEdits (edit : option nat) (arguments : list string)
  | ExecuteCommand (command : string) (arguments : list string).

Record Intention := mkIntention {
  intentionTitle : string;
  icon : string;
  selected : callback;
  priority : Z
}.

Definition isSet {A} (o : option A) : bool :=
  match o with Some _ => true | None => false end.

(** code-action-adapter.ts, [isEditAction(action)]. *)
Definition isEditAction (a : CodeAction) : bool :=
  bool_decide (kind a = Some "quickfix") || isSet (edit a).

(** [editActionToCallback(action)]; [None] when it throws: the
    arguments of the command are spread into the edits, and a command
    without arguments has nothing to spread. *)
Definition editActionToCallback (a : CodeAction) : option (option callback) :=
  if negb (isSet (actionCommand a)) && negb (isSet (edit a)) then Some None
  else
    match actionCommand a with
    | None => Some (Some (ApplyEdits (edit a) []))
    | Some command =>
        args ← arguments command;
        Some (Some (ApplyEdits (edit a) args))
    end.

(** [commandActionToCallback(action, connection)]. *)
Definition commandActionToCallback (a : CodeAction) : option callback :=
  match actionCommand a with
  | None => None
  | Some outerCommand =>
      match command outerCommand, arguments outerCommand with
      | EmptyString, _ | _, None => None
      | c, Some args => Some (ExecuteCommand c args)
      end
  end.

(** [convertCodeActionToIntentionListOption(action, connection)];
    [None] when it throws. *)
Definition convertCodeActionToIntentionListOption (a : CodeAction)
  : option (option Intention) :=
  callback ← (if isEditAction a then editActionToCallback a
              else Some (commandActionToCallback a));
  match callback with
  | None => Some None
  | Some callback => Some (Some (mkIntention (title a) "tools" callback 1))
  end.

(** [CodeAction.is(action)] for an answer of the server: not a command,
    and an edit or a command is set. *)
Definition CodeAction_is (x : action) : option CodeAction :=
  match x with
  | IsCommand _ => None
  | IsCodeAction a => if isSet (edit a) || isSet (actionCommand a) then Some a else None
  end.

(** The loop of [getIntentions] over the actions: the titles taken so
    far and the results so far; [None] once a conversion has thrown. *)
Definition takeAction (acc : option (list string * list Intention)) (x : action)
  : option (list string * list Intention) :=
  '(actionTitles, results) ← acc;
  match CodeAction_is x with
  | None => Some (actionTitles, results)
  | Some a =>
      if bool_decide (title a ∈ actionTitles) then Some (actionTitles, results)
      else
        result ← convertCodeActionToIntentionListOption a;
        match result with
        | None => Some (actionTitles, results)
        | Some result => Some (actionTitles ++ [title a], results ++ [result])
        end
  end.

Definition intentionsOfActions (actions : list action) : option (list Intention) :=
  snd <$> foldl takeAction (Some ([], [])) actions.

(** [getIntentions(options, connection)], after the delegate has
    answered [actions] ([null] counts as none); [ignoreIntentions] is
    [delegate.getIgnoreIntentionsForLinterMessage].  [None] when the
    promise rejects. *)
Definition getIntentions (intentionsList : option EditorIntentionsList)
    (bufferPosition : Atom.Point) (actions : option (list action))
    (ignoreIntentions : MessageBundle → option (list Intention))
  : option (list Intention) :=
  results ← intentionsOfActions (default [] actions);
  Some (results ++
        match intentionsList with
        | Some l =>
            flat_map (λ bundle, default [] (ignoreIntentions bundle))
                     (getLinterMessagesForBufferPosition l bufferPosition)
        | None => []
        end).

(** A code action of the answer that can be made into an intention. *)
Definition convertible (x : action) (i : Intention) : Prop :=
  ∃ a, x = IsCodeAction a ∧ CodeAction_is x = Some a ∧
       convertCodeActionToIntentionListOption a = Some (Some i).

(** A code action of the answer whose conversion throws: one with an
    edit or of the kind [quickfix], and with a command that has no
    arguments. *)
Definition unconvertible (x : action) : Prop :=
  ∃ a, CodeAction_is x = Some a ∧ convertCodeActionToIntentionListOption a = None.

(** Two code actions with one title, and one whose command has no
    arguments. *)
Definition renameAction : CodeAction :=
  mkCodeAction "Rename" None (Some 0) None.
Definition renameAgain : CodeAction :=
  mkCodeAction "Rename" (Some "quickfix") (Some 1) None.
Definition bareCommand : CodeAction :=
  mkCodeAction "Fix" (Some "quickfix") None (Some (mkCommand "Fix" "fix" None)).

(** Every diagnostic of the list is stored under its own range. *)
Definition storedUnderOwnRange (l : EditorIntentionsList) : Prop :=
  Forall (λ entry, entry.1 = Convert.lsRangeToAtomRange (range entry.2))
         (diagnosticByRange l).

End Intentions.
(* ================================================================== *)
(** * adapters/linter-push-v2-adapter.ts: the other methods *)
(* ================================================================== *)

Module LinterQueries.

Import Diagnostics.

(** [LinterPushV2Adapter.diagnosticSeverityToSeverity(severity)], on
    numbers. *)
Definition diagnosticSeverityToSeverity (severity : Z) : MessageSeverity :=
  if (severity =? 1)%Z then SeverityError
  else if (severity =? 2)%Z then SeverityWarning
  else SeverityInfo.

(** [diagnosticToV2Message(path, diagnostic)], with
    [diagnostic.severity || -1]: a message without reference, url and
    icon. *)
Definition diagnosticToV2Message (path : string) (diagnostic : Diagnostic)
  : Message :=
  Build_Message path
    (Convert.lsRangeToAtomRange (range diagnostic))
    None None None
    (message diagnostic)
    (source diagnostic)
    (diagnosticSeverityToSeverity
       (match severity diagnostic with
        | Some s => Lsp.severityNumber s
        | None => -1
        end))
    None None.

(** [getLSDiagnosticForMessage(message)]: the diagnostic, and the
    message, which has its key when the key was asked for. *)
Definition getLSDiagnosticForMessage (message : Message) (st : state)
  : option Diagnostic * Message :=
  match _lsDiagnosticMap st !! file message with
  | None => (None, message)
  | Some codes => (codes !! keyOf (withKey message), withKey message)
  end.

(** [getLSDiagnosticsForMessages(linterMessages)]: the method is handed
    to [map] without its receiver, so its body reads [_lsDiagnosticMap]
    of [undefined] and throws at the first message; [None] then. *)
Definition getLSDiagnosticsForMessages (linterMessages : list Message) (st : state)
  : option (list Diagnostic) :=
  match linterMessages with
  | [] => Some []
  | _ :: _ => None
  end.

(** [recaptureDiagnosticsForEditor(editor)]: the parameters of the
    capture it leaves to [setImmediate], if any. *)
Definition recaptureDiagnosticsForEditor (editor : nat) (st : state)
  : option PublishDiagnosticsParams :=
  _lastDiagnosticsParamsByEditor st !! editor.

(** [recaptureDiagnosticsForPath(path)]: the captures it leaves to
    [setImmediate], in their order. *)
Definition recaptureDiagnosticsForPath (env : environment) (path : string)
    (st : state) : list PublishDiagnosticsParams :=
  omap (λ editor, recaptureDiagnosticsForEditor editor st)
       (findAllTextEditorsForPath env path).

(** The captures left to [setImmediate] run one after the other;
    [None] when one throws. *)
Definition runCaptures (env : environment)
    (captures : list PublishDiagnosticsParams) (st : state) : option state :=
  foldl (λ acc params, st ← acc; snd <$> captureDiagnostics env params st)
        (Some st) captures.

(** A batch for the open file of the examples, with no diagnostic. *)
Definition clearingParams : PublishDiagnosticsParams :=
  Build_PublishDiagnosticsParams "file:///proj/src/a.ts" [].

End LinterQueries.
(* ================================================================== *)
(** * The autocomplete adapter: what triggers a request *)
(* ================================================================== *)

Module Triggers.

Import Autocomplete.

(** [string.endsWith(searchString)]. *)
Definition endsWith (s searchString : string) : bool :=
  (String.length searchString <=? String.length s) &&
  String.eqb
    (String.substring (String.length s - String.length searchString)
                      (String.length searchString) s)
    searchString.

(** [cursor.column - request.prefix.length]. *)
Definition prefixStartColumn (request : Request) : Z :=
  (Atom.column (bufferPosition request) - Z.of_nat (String.length (prefix request)))%Z.

(** [AutocompleteAdapter.getTriggerCharacter(request, triggerChars)];
    the text of the buffer is read through the editor. *)
Fixpoint getTriggerCharacter (request : Request) (triggerChars : list string)
  : string * bool :=
  match triggerChars with
  | [] => ("", false)
  | triggerChar :: rest =>
      if endsWith (prefix request) triggerChar then (triggerChar, true)
      else if (Z.of_nat (String.length triggerChar) <=? prefixStartColumn request)%Z
              && String.eqb
                   (getTextInBufferRange (editor request)
                      (Atom.mkPoint (Atom.row (bufferPosition request))
                         (prefixStartColumn request
                          - Z.of_nat (String.length triggerChar))%Z)
                      (Atom.mkPoint (Atom.row (bufferPosition request))
                         (prefixStartColumn request)))
                   triggerChar
      then (triggerChar, false)
      else getTriggerCharacter request rest
  end.

(** [shouldTrigger(request, triggerChar, minWordLength)]. *)
Definition shouldTrigger (request : Request) (triggerChar : string)
    (minWordLength : Z) : bool :=
  activatedManually request
  || negb (String.eqb triggerChar "")
  || (minWordLength <=? 0)%Z
  || (minWordLength <=? Z.of_nat (String.length (prefix request)))%Z.

(** The items of a response. *)
Definition completionsArray (completions : CompletionResponse)
  : list CompletionItem :=
  match completions with
  | ItemArray items => items
  | CompletionList _ items => items
  | NoCompletions => []
  end.

(** An editor whose line 3 reads ["obj.fo"], and a request at its end. *)
Definition dottedEditor : TextEditor :=
  Build_TextEditor (Some "/proj/src/a.ts")
    (λ a b, String.substring (Z.to_nat (Atom.column a))
              (Z.to_nat (Atom.column b - Atom.column a)) "obj.fo").
Definition dottedRequest : Request :=
  Build_Request dottedEditor (Atom.mkPoint 3 6) "fo" false.

End Triggers.
(* ================================================================== *)
(** * Properties *)
(* ================================================================== *)

(** ** Cancellation tokens *)

Section cancellation_facts.
Import Cancellation.
Context {W : Type}.
Implicit Types st : state W.

Lemma refresh_unfold key st :
  cancelAndRefreshCancellationToken key st =
  let st1 := match tokens st !! key with
             | Some old => if isCancellationRequested st old then st else cancel old st
             | None => st
             end in
  (length (sources st1),
   State (sources st1 ++ [false]) (<[key := length (sources st1)]> (tokens st1))
         (cancelCalls st1) (world st1)).
Proof.
  unfold cancelAndRefreshCancellationToken.
  destruct (tokens st !! key) as [old|]; [|done].
  by destruct (isCancellationRequested st old).
Qed.

Ltac refresh_cases key st :=
  rewrite refresh_unfold; cbn;
  destruct (tokens st !! key) as [?old|] eqn:?Hold;
    [destruct (isCancellationRequested st old) eqn:?Hreq|]; cbn.

Lemma refresh_length key st :
  length (sources (cancelAndRefreshCancellationToken key st).2) = S (length (sources st)).
Proof. refresh_cases key st; rewrite length_app, ?length_insert; cbn; lia. Qed.

Lemma refresh_token_fresh key st :
  (cancelAndRefreshCancellationToken key st).1 = length (sources st).
Proof. refresh_cases key st; by rewrite ?length_insert. Qed.

Lemma refresh_tokens key st :
  tokens (cancelAndRefreshCancellationToken key st).2 =
  <[key := length (sources st)]> (tokens st).
Proof. refresh_cases key st; by rewrite ?length_insert. Qed.

Lemma refresh_world key st :
  world (cancelAndRefreshCancellationToken key st).2 = world st.
Proof. by refresh_cases key st. Qed.

Lemma refresh_cancelCalls key st :
  cancelCalls (cancelAndRefreshCancellationToken key st).2 =
  cancelCalls st ++ expected_cancels key st.
Proof.
  unfold expected_cancels. refresh_cases key st; by rewrite ?app_nil_r.
Qed.

Lemma lookup_snoc_false (l : list bool) (r : nat) :
  (l ++ [false]) !! r =
  if decide (r = length l) then Some false else l !! r.
Proof.
  case_decide as Hr.
  - subst. rewrite lookup_app_r by lia. by rewrite Nat.sub_diag.
  - destruct (decide (r < length l)).
    + by rewrite lookup_app_l.
    + rewrite lookup_app_r by lia.
      rewrite (lookup_ge_None_2 l) by lia.
      destruct (r - length l) eqn:?; [lia|done].
Qed.

(** What the store holds after a refresh: the old source of [key] reads
    cancelled, the new one reads live, every other one is as before. *)
Lemma refresh_sources key st r :
  wf st →
  sources (cancelAndRefreshCancellationToken key st).2 !! r =
  if decide (r = length (sources st)) then Some false
  else if decide (tokens st !! key = Some r) then Some true
  else sources st !! r.
Proof.
  intros Hwf. refresh_cases key st; rewrite lookup_snoc_false, ?length_insert;
    case_decide as Hr; try done.
  - pose proof (Hwf _ _ Hold) as Hlt.
    case_decide as Hr'; [|done]. simplify_eq.
    unfold isCancellationRequested in Hreq.
    by destruct (sources st !! r) as [[]|].
  - pose proof (Hwf _ _ Hold) as Hlt.
    case_decide as Hr'; simplify_eq.
    + by rewrite list_lookup_insert_eq.
    + rewrite list_lookup_insert_ne; [done|congruence].
Qed.

Lemma refresh_wf key st :
  wf st → wf (cancelAndRefreshCancellationToken key st).2.
Proof.
  intros Hwf k r. rewrite refresh_tokens, refresh_length.
  destruct (decide (key = k)) as [->|Hne].
  - rewrite lookup_insert_eq. intros [= <-]. lia.
  - rewrite lookup_insert_ne by done. intros H%Hwf. simpl in H. lia.
Qed.

Lemma refresh_allocated issued key st :
  allocated issued st →
  allocated ((key, (cancelAndRefreshCancellationToken key st).1) :: issued)
            (cancelAndRefreshCancellationToken key st).2.
Proof.
  intros Halloc. unfold allocated. rewrite refresh_length, refresh_token_fresh.
  constructor; [simpl; lia|].
  eapply Forall_impl; [exact Halloc|]. simpl. lia.
Qed.

Lemma refresh_one_live issued key st :
  wf st → allocated issued st → one_live_per_key issued st →
  one_live_per_key ((key, (cancelAndRefreshCancellationToken key st).1) :: issued)
                   (cancelAndRefreshCancellationToken key st).2.
Proof.
  intros Hwf Halloc Hinv. unfold one_live_per_key, live.
  rewrite refresh_tokens, refresh_token_fresh.
  constructor; cbn [fst snd].
  { intros _. by rewrite lookup_insert_eq. }
  apply Forall_forall. intros [k r] Hin. cbn [fst snd].
  rewrite refresh_sources by done.
  pose proof (proj1 (Forall_forall _ _) Halloc _ Hin) as Hlt.
  pose proof (proj1 (Forall_forall _ _) Hinv _ Hin) as Hreg.
  simpl in Hlt, Hreg.
  case_decide; [lia|]. case_decide as Hold; [done|].
  intros Hlive. specialize (Hreg Hlive).
  destruct (decide (key = k)) as [->|Hne]; [congruence|].
  by rewrite lookup_insert_ne.
Qed.

(** Over any sequence of refreshes from the empty registry, a token that
    is still live is the one registered for its key. *)
Lemma refreshAll_invariant keys st issued0 :
  wf st → allocated issued0 st → one_live_per_key issued0 st →
  let '(issued, st') := refreshAll keys st in
  wf st' ∧ allocated (issued ++ issued0) st' ∧ one_live_per_key (issued ++ issued0) st'.
Proof.
  revert st issued0. induction keys as [|key keys IH]; intros st issued0 Hwf Ha Hi.
  { done. }
  cbn [refreshAll].
  pose proof (refresh_wf key st Hwf) as Hwf1.
  pose proof (refresh_allocated issued0 key st Ha) as Ha1.
  pose proof (refresh_one_live issued0 key st Hwf Ha Hi) as Hi1.
  destruct (cancelAndRefreshCancellationToken key st) as [r st1].
  cbn [fst snd] in *.
  specialize (IH st1 ((key, r) :: issued0) Hwf1 Ha1 Hi1).
  destruct (refreshAll keys st1) as [issued st2].
  by rewrite <- app_assoc.
Qed.

(** C1.  [cancelAndRefreshCancellationToken(key, registry)] cancels the
    source registered under [key], calling [cancel] exactly when that
    source exists and is not yet cancelled; it then registers and returns
    a source that did not exist before and is not cancelled.  Other keys
    and other sources are untouched, and of all tokens issued for a key
    only the registered one can be live. *)
Theorem cancelAndRefresh_supersedes (key : nat) (st : state W) (issued : list (nat * nat)) :
  wf st → allocated issued st → one_live_per_key issued st →
  let '(token, st') := cancelAndRefreshCancellationToken key st in
  (∀ old, tokens st !! key = Some old → sources st' !! old = Some true) ∧
  cancelCalls st' = cancelCalls st ++
    match tokens st !! key with
    | Some old => if isCancellationRequested st old then [] else [old]
    | None => []
    end ∧
  sources st !! token = None ∧
  live st' token ∧
  tokens st' !! key = Some token ∧
  (∀ k, k ≠ key → tokens st' !! k = tokens st !! k) ∧
  (∀ r, tokens st !! key ≠ Some r → r < length (sources st) →
        sources st' !! r = sources st !! r) ∧
  world st' = world st ∧
  wf st' ∧ one_live_per_key ((key, token) :: issued) st'.
Proof.
  intros Hwf Ha Hi.
  pose proof (refresh_token_fresh key st) as Htok.
  pose proof (refresh_tokens key st) as Hreg.
  pose proof (refresh_cancelCalls key st) as Hcalls.
  pose proof (refresh_sources key st) as Hsrc.
  pose proof (refresh_wf key st Hwf) as Hwf'.
  pose proof (refresh_one_live issued key st Hwf Ha Hi) as Hi'.
  pose proof (refresh_world key st) as Hworld.
  destruct (cancelAndRefreshCancellationToken key st) as [token st'].
  cbn [fst snd] in *. subst token.
  repeat split; try done.
  - intros old Hold. rewrite Hsrc by done.
    pose proof (Hwf _ _ Hold). cbn beta in *.
    case_decide; [lia|]. by case_decide.
  - apply lookup_ge_None. lia.
  - unfold live. rewrite Hsrc by done. by case_decide.
  - rewrite Hreg. apply lookup_insert_eq.
  - intros k Hk. rewrite Hreg. by apply lookup_insert_ne.
  - intros r Hr Hlt. rewrite Hsrc by done.
    case_decide; [lia|]. by case_decide.
Qed.

(** C7, success path: once the wrapped work resolves, the key has no
    entry in the registry. *)
Lemma doWithCancellationToken_resolved_removes_entry {T} key
    (work : nat → state W → outcome T * state W) st :
  (∀ token st1, ∃ v st2, work token st1 = (Resolved v, st2)) →
  tokens (doWithCancellationToken key work st).2 !! key = None.
Proof.
  intros Hres. unfold doWithCancellationToken.
  destruct (cancelAndRefreshCancellationToken key st) as [token st1].
  destruct (Hres token st1) as (v & st2 & ->). simpl.
  apply lookup_delete_eq.
Qed.

(** C7, failure path: when the wrapped work rejects, the call rejects
    with the same reason and the source installed for the key is still
    registered. *)
Theorem doWithCancellationToken_rejected_keeps_entry (key : nat) (err : string)
    (st : state W) :
  doWithCancellationToken (T := unit) key (λ _ s, (Rejected err, s)) st =
    (Rejected err, (cancelAndRefreshCancellationToken key st).2) ∧
  tokens (doWithCancellationToken (T := unit) key (λ _ s, (Rejected err, s)) st).2 !! key
    = Some (length (sources st)).
Proof.
  unfold doWithCancellationToken.
  pose proof (refresh_tokens key st) as Hreg.
  destruct (cancelAndRefreshCancellationToken key st) as [token st1].
  simpl in *. split; [done|]. rewrite Hreg. apply lookup_insert_eq.
Qed.

End cancellation_facts.

Lemma cancelAndRefresh_supersedes_witness :
  let st := Cancellation.example_state in
  let issued := Cancellation.example_issued in
  Cancellation.wf st ∧ Cancellation.allocated issued st ∧
  Cancellation.one_live_per_key issued st ∧
  Cancellation.tokens (Cancellation.cancelAndRefreshCancellationToken 7 st).2 !! 7
    = Some 2.
Proof.
  cbn zeta. unfold Cancellation.example_state, Cancellation.example_issued.
  set (example_state := Cancellation.State [false; true] {[ 7 := 0 ]} [1] tt).
  set (example_issued := [(7, 0); (7, 1)]).
  assert (Hwf : Cancellation.wf example_state).
  { apply map_Forall_singleton. cbn. lia. }
  assert (Ha : Cancellation.allocated example_issued example_state).
  { repeat constructor. }
  assert (Hi : Cancellation.one_live_per_key example_issued example_state).
  { repeat constructor; cbn; unfold Cancellation.live; cbn; congruence. }
  split; [exact Hwf|]. split; [exact Ha|]. split; [exact Hi|].
  pose proof (cancelAndRefresh_supersedes 7 example_state example_issued Hwf Ha Hi) as H.
  destruct (Cancellation.cancelAndRefreshCancellationToken 7 example_state)
    as [token st'] eqn:E.
  destruct H as (_ & _ & _ & _ & Hreg & _).
  vm_compute in E. injection E as <- <-. exact Hreg.
Defined.

(** ** Session restart and RPC connection *)

Section session_facts.
Import Session.

Lemma onConnectionClose_deactivating budget name projectPath st :
  _isDeactivating st = true →
  onConnectionClose budget name projectPath st = st.
Proof. intros H. unfold onConnectionClose. by rewrite H. Qed.

(** One termination, for any value of the counter. *)
Lemma onConnectionClose_step budget name projectPath st :
  _isDeactivating st = false →
  let c := default 0 (restartCounters st !! projectPath) in
  onConnectionClose budget name projectPath st =
  State false (<[projectPath := S c]> (restartCounters st))
        (trace st ++ if bool_decide (c < budget)
                     then restartEvents projectPath
                     else giveUpEvents name projectPath).
Proof.
  intros H. unfold onConnectionClose. rewrite H. cbn.
  case_bool_decide as H1; case_bool_decide as H2; try lia; cbn;
    unfold emit, startServer, emit; cbn; rewrite H;
    by rewrite <- !app_assoc.
Qed.

(** After [k] terminations from a fresh counter the counter reads [k]
    (absent when [k = 0]) and the client is still not deactivating. *)
Lemma terminations_counter budget name projectPath k st :
  _isDeactivating st = false →
  restartCounters st !! projectPath = None →
  let st' := terminations budget name projectPath k st in
  _isDeactivating st' = false ∧
  default 0 (restartCounters st' !! projectPath) = k.
Proof.
  intros Hd Hc. induction k as [|k IH].
  { cbn. by rewrite Hc. }
  destruct IH as [IHd IHc]. cbn [terminations].
  rewrite onConnectionClose_step by done. cbn.
  split; [done|]. rewrite lookup_insert_eq. cbn. by rewrite IHc.
Qed.

(** C2.  While the client is not deactivating, the first [budget]
    unexpected terminations of the server of one project root each stop
    the server, log at debug level and start a server for the same
    path, with no notification; the termination after them stops the
    server, logs a warning and adds one error notification, and starts
    no server. *)
Theorem close_handler_restart_budget (budget : nat) (name projectPath : string)
    (st : state) (k : nat) :
  _isDeactivating st = false →
  restartCounters st !! projectPath = None →
  let before := terminations budget name projectPath k st in
  let after := onConnectionClose budget name projectPath before in
  (k < budget → trace after = trace before ++ restartEvents projectPath) ∧
  (k = budget → trace after = trace before ++ giveUpEvents name projectPath) ∧
  (k ≤ budget →
     length (List.filter isStartServer (trace after)) =
       length (List.filter isStartServer (trace st)) + k + (if bool_decide (k < budget) then 1 else 0)
     ∧ length (List.filter isAddError (trace after)) =
       length (List.filter isAddError (trace st)) + (if bool_decide (k = budget) then 1 else 0)).
Proof.
  intros Hd Hc. cbn zeta.
  assert (Htrace : ∀ j, j ≤ budget →
    length (List.filter isStartServer (trace (terminations budget name projectPath j st)))
      = length (List.filter isStartServer (trace st)) + j ∧
    length (List.filter isAddError (trace (terminations budget name projectPath j st)))
      = length (List.filter isAddError (trace st))).
  { induction j as [|j IH]; intros Hj.
    { cbn. lia. }
    destruct IH as [IH1 IH2]; [lia|].
    destruct (terminations_counter budget name projectPath j st Hd Hc) as [Hd' Hc'].
    cbn [terminations].
    rewrite onConnectionClose_step by done. cbn [trace].
    rewrite Hc'. rewrite bool_decide_true by lia.
    rewrite !List.filter_app, !length_app, IH1, IH2. cbn. lia. }
  destruct (terminations_counter budget name projectPath k st Hd Hc) as [Hd' Hc'].
  rewrite onConnectionClose_step by done. cbn [trace]. rewrite Hc'.
  split; [|split].
  - intros Hk. by rewrite bool_decide_true.
  - intros Hk. by rewrite bool_decide_false by lia.
  - intros Hk. destruct (Htrace k Hk) as [H1 H2].
    rewrite !List.filter_app, !length_app, H1, H2.
    case_bool_decide; case_bool_decide; try lia; cbn; lia.
Qed.

(** Scenario D of the specification: budget 3, four terminations. *)
Lemma close_handler_restart_budget_witness :
  let st := State false ∅ [] in
  _isDeactivating st = false ∧ restartCounters st !! "/proj" = None ∧
  trace (terminations 3 "ide" "/proj" 4 st) =
    restartEvents "/proj" ++ restartEvents "/proj" ++ restartEvents "/proj" ++
    giveUpEvents "ide" "/proj".
Proof.
  cbn zeta. split; [reflexivity|]. split; [reflexivity|].
  pose proof (close_handler_restart_budget 3 "ide" "/proj" (State false ∅ []) 3
                eq_refl eq_refl) as (_ & H & _).
  change (terminations 3 "ide" "/proj" 4 (State false ∅ []))
    with (onConnectionClose 3 "ide" "/proj"
            (terminations 3 "ide" "/proj" 3 (State false ∅ []))).
  rewrite (H eq_refl). reflexivity.
Defined.

(** C8, at the failing input.  With the stdio transport and a process
    without a stdin handle, [createRpcConnection] logs the error and then
    returns the string ["stdio"] in place of a connection: it does not
    throw. *)
Theorem createRpcConnection_stdio_without_stdin (languageName : string)
    (sock p : nat) (out : option nat) (log : list event) :
  createRpcConnection languageName stdio sock
    {| pid := p; stdin := None; stdout := out |} log =
  (Return (JsString "stdio"), log ++ [LogError (noStdioMessage languageName)]).
Proof. reflexivity. Qed.

(** The same holds for a process without a stdout handle. *)
Lemma createRpcConnection_stdio_without_stdout languageName sock p inp log :
  createRpcConnection languageName stdio sock
    {| pid := p; stdin := inp; stdout := None |} log =
  (Return (JsString "stdio"), log ++ [LogError (noStdioMessage languageName)]).
Proof. by destruct inp. Qed.

(** [createRpcConnection] never throws, and it yields a message
    connection in every case but that one. *)
Lemma createRpcConnection_returns languageName connectionType sock lsProcess log :
  ∃ v, (createRpcConnection languageName connectionType sock lsProcess log).1 = Return v ∧
    (v = JsString "stdio" ↔
     connectionType = stdio ∧ (stdin lsProcess = None ∨ stdout lsProcess = None)).
Proof.
  destruct connectionType; cbn.
  1,2: eexists; split; [done|]; intuition congruence.
  destruct (stdin lsProcess), (stdout lsProcess); cbn;
    eexists; (split; [done|]); intuition congruence.
Qed.

End session_facts.

(** ** Paths and URIs *)

Section uri_facts.
Import Uri.

Ltac each_byte c := destruct c as [[] [] [] [] [] [] [] []].

(** *** Facts about single bytes, by enumeration *)

Lemma hexByte_percentEncodeByte c :
  match percentEncodeByte c with
  | [p; h1; h2] => p = "%"%char ∧ hexByte h1 h2 = Some c
  | _ => False
  end.
Proof. each_byte c; vm_compute; done. Qed.

Lemma keptByPathToUri_facts c :
  keptByPathToUri c = true →
  (code c <? 128)%N = true ∧ isC0ControlOrSpace c = false ∧
  isTabOrNewline c = false ∧ inPathPercentEncodeSet c = false ∧
  Ascii.eqb c "%" = false ∧ Ascii.eqb c "?" = false ∧ Ascii.eqb c "#" = false ∧
  Ascii.eqb c "\" = false ∧
  (uriUnescaped c || uriReserved c || Ascii.eqb c "#") = true ∧
  (toLower c = "."%char → c = "."%char) ∧ toLower c ≠ "%"%char.
Proof. each_byte c; vm_compute; intros; repeat split; congruence. Qed.

Lemma not_kept_facts c :
  keptByPathToUri c = false →
  match percentEncodeByte c with
  | [p; h1; h2] =>
      isC0ControlOrSpace h1 = false ∧ isTabOrNewline h1 = false ∧
      inPathPercentEncodeSet h1 = false ∧ isSlash h1 = false ∧
      Ascii.eqb h1 "?" = false ∧ Ascii.eqb h1 "#" = false ∧
      isC0ControlOrSpace h2 = false ∧ isTabOrNewline h2 = false ∧
      inPathPercentEncodeSet h2 = false ∧ isSlash h2 = false ∧
      Ascii.eqb h2 "?" = false ∧ Ascii.eqb h2 "#" = false ∧
      ¬ (toLower h1 = "2"%char ∧ toLower h2 = "e"%char) ∧
      toLower h1 ≠ "."%char ∧ toLower h1 ≠ "%"%char
  | _ => False
  end.
Proof. each_byte c; vm_compute; intros; repeat split; try congruence; intros []; congruence. Qed.

Lemma lead_facts c :
  match leadInfo c with
  | Some (1, _, _) => leadingOnes c = 0 ∧ (code c <? 128)%N = true
  | Some (S (S n), lo, _) =>
      leadingOnes c = S (S n) ∧ n ≤ 2 ∧ (128 <=? lo)%N = true ∧
      keptByPathToUri c = false
  | Some (0, _, _) => False
  | None => True
  end.
Proof. each_byte c; vm_compute; repeat split; lia. Qed.

Lemma high_not_kept c : (128 <=? code c)%N = true → keptByPathToUri c = false.
Proof. each_byte c; vm_compute; congruence. Qed.

Lemma low_leadInfo c : (code c <? 128)%N = true → leadInfo c = Some (1, 0%N, 0%N).
Proof. each_byte c; vm_compute; congruence. Qed.

Lemma inRange_high lo hi c :
  (128 <=? lo)%N = true → inRange lo hi c = true → (128 <=? code c)%N = true.
Proof.
  unfold inRange. intros H1 [H2 _]%andb_true_iff.
  apply N.leb_le in H1, H2. apply N.leb_le. lia.
Qed.

(** The shape of an escaped character. *)
Lemma escapeChar_cases c :
  (keptByPathToUri c = true ∧ escapeChar c = [c]) ∨
  (keptByPathToUri c = false ∧
   ∃ h1 h2, escapeChar c = ["%"%char; h1; h2] ∧ percentEncodeByte c = ["%"%char; h1; h2] ∧
            hexByte h1 h2 = Some c).
Proof.
  unfold escapeChar. destruct (keptByPathToUri c) eqn:K; [by left|right].
  split; [done|]. pose proof (hexByte_percentEncodeByte c) as H.
  destruct (percentEncodeByte c) as [|p [|h1 [|h2 [|]]]]; try done.
  destruct H as [-> H]. by exists h1, h2.
Qed.

(** *** decodeURIComponent undoes the escaping *)

Lemma valid_tail_high b0 tl :
  validUtf8CodePoint (b0 :: tl) = true → Forall (λ c, (128 <=? code c)%N = true) tl.
Proof.
  unfold validUtf8CodePoint. pose proof (lead_facts b0) as Hl.
  destruct (leadInfo b0) as [[[n lo] hi]|]; [|done].
  intros [Hlen Htl]%andb_true_iff.
  destruct tl as [|b1 tl]; [constructor|].
  destruct n as [|[|n]]; [done| |].
  { cbn in Hlen. by destruct (length tl). }
  destruct Hl as (_ & _ & Hlo & _).
  apply andb_true_iff in Htl as [H1 H2].
  constructor; [by eapply inRange_high|].
  apply Forall_forall. intros c Hc.
  rewrite forallb_forall in H2. apply (inRange_high 128 191); [done|].
  apply H2. by apply list_elem_of_In.
Qed.

Lemma wellFormedFrom_pending_high k : ∀ b0 tl s,
  wellFormedFrom (b0 :: tl) (S k) s = true →
  Forall (λ c, (128 <=? code c)%N = true) tl.
Proof.
  induction k as [|k IH]; intros b0 tl [|c s] H; try done.
  - cbn in H. apply andb_true_iff in H as [H _].
    change (validUtf8CodePoint (b0 :: (tl ++ [c])) = true) in H.
    apply valid_tail_high in H. by apply Forall_app in H as [H _].
  - cbn [wellFormedFrom] in H.
    change (wellFormedFrom (b0 :: (tl ++ [c])) (S k) s = true) in H.
    apply IH in H. by apply Forall_app in H as [H _].
Qed.

Lemma DecodeFrom_escapePath s : ∀ pending need,
  wellFormedFrom pending need s = true →
  (need ≠ 0 → pending ≠ []) →
  DecodeFrom pending need (escapePath s) =
    Some (match need with 0 => [] | _ => pending end ++ s).
Proof.
  induction s as [|c s IH]; intros pending need Hwf Hne.
  { destruct need; [done|]. cbn in Hwf. done. }
  change (escapePath (c :: s)) with (escapeChar c ++ escapePath s).
  destruct need as [|[|k]].
  - (* at the start of a code point *)
    cbn [wellFormedFrom] in Hwf. pose proof (lead_facts c) as Hl.
    destruct (escapeChar_cases c) as [[K ->]|(K & h1 & h2 & -> & _ & Hhex)].
    + destruct (keptByPathToUri_facts c K) as (Hlow & _ & _ & _ & Hpct & _).
      rewrite (low_leadInfo c Hlow) in Hwf.
      cbn [app DecodeFrom]. rewrite Hpct.
      by rewrite (IH [] 0 Hwf).
    + cbn [app DecodeFrom]. change (Ascii.eqb "%" "%") with true. cbn match.
      rewrite Hhex.
      destruct (leadInfo c) as [[[n lo] hi]|]; [|done].
      destruct n as [|[|n]]; [done| |].
      * destruct Hl as [-> _]. by rewrite (IH [] 0 Hwf).
      * destruct Hl as (-> & Hn & _).
        destruct n as [|[|[|n]]]; try lia; cbn [Nat.sub] in Hwf;
          by rewrite (IH [c] _ Hwf).
  - (* the last continuation byte *)
    cbn [wellFormedFrom] in Hwf. apply andb_true_iff in Hwf as [Hv Hwf].
    destruct pending as [|b0 tl]; [by destruct Hne|].
    pose proof (valid_tail_high b0 (tl ++ [c]) Hv) as Hhigh.
    apply Forall_app in Hhigh as [_ Hc]. apply (proj1 (Forall_singleton _ _)) in Hc.
    destruct (escapeChar_cases c) as [[K _]|(K & h1 & h2 & -> & _ & Hhex)].
    { by rewrite (high_not_kept c Hc) in K. }
    cbn [app DecodeFrom]. change (Ascii.eqb "%" "%") with true. cbn match.
    rewrite Hhex. change (b0 :: tl ++ [c]) with ((b0 :: tl) ++ [c]).
    rewrite Hv, (IH [] 0 Hwf) by done. cbn.
    by rewrite <- app_assoc.
  - (* an inner continuation byte *)
    cbn [wellFormedFrom] in Hwf.
    destruct pending as [|b0 tl]; [by destruct Hne|].
    pose proof (wellFormedFrom_pending_high k b0 (tl ++ [c]) s Hwf) as Hhigh.
    apply Forall_app in Hhigh as [_ Hc]. apply (proj1 (Forall_singleton _ _)) in Hc.
    destruct (escapeChar_cases c) as [[K _]|(K & h1 & h2 & -> & _ & Hhex)].
    { by rewrite (high_not_kept c Hc) in K. }
    cbn [app DecodeFrom]. change (Ascii.eqb "%" "%") with true. cbn match.
    rewrite Hhex. change (b0 :: tl ++ [c]) with ((b0 :: tl) ++ [c]).
    rewrite (IH _ _ Hwf) by done.
    by rewrite <- app_assoc.
Qed.

Lemma decodeURIComponent_escapePath s :
  wellFormed s = true → decodeURIComponent (escapePath s) = Some s.
Proof. intros H. by apply (DecodeFrom_escapePath s [] 0). Qed.

(** *** The URL parser on an escaped path *)

Lemma escapePath_nil_inv s : escapePath s = [] → s = [].
Proof.
  destruct s as [|c s]; [done|].
  change (escapePath (c :: s)) with (escapeChar c ++ escapePath s).
  by destruct (escapeChar_cases c) as [[_ ->]|(_ & h1 & h2 & -> & _)].
Qed.

Lemma escapePath_app a b : escapePath (a ++ b) = escapePath a ++ escapePath b.
Proof. unfold escapePath. by rewrite flat_map_app. Qed.

(** Peel the first character off an escaped segment whose lower-case
    form is known. *)
Ltac peel :=
  match goal with
  | H : map toLower (escapePath ?seg) = [] |- _ =>
      is_var seg; apply map_eq_nil in H; apply escapePath_nil_inv in H; subst seg
  | H : map toLower (escapePath ?seg) = _ :: _ |- _ =>
      is_var seg; destruct seg as [|? ?]; [discriminate H|]
  | H : map toLower (escapePath (?c :: ?seg)) = _ :: _ |- _ =>
      change (escapePath (c :: seg)) with (escapeChar c ++ escapePath seg) in H;
      let K := fresh "K" in let E := fresh "E" in let Hp := fresh "Hp" in
      let Hn := fresh "Hn" in
      destruct (escapeChar_cases c) as [[K E]|(K & ?h1 & ?h2 & E & Hp & _)];
      rewrite E in H; clear E;
      [ pose proof (keptByPathToUri_facts c K)
          as (_ & _ & _ & _ & _ & _ & _ & _ & _ & ? & ?)
      | pose proof (not_kept_facts c K) as Hn; rewrite Hp in Hn;
        destruct Hn as (_ & _ & _ & _ & _ & _ & _ & _ & _ & _ & _ & _ & ? & ? & ?) ];
      cbn [app map] in H; injection H as ? H
  end.

Lemma dots_of_escapePath seg :
  notDot seg →
  isSingleDot (escapePath seg) = false ∧ isDoubleDot (escapePath seg) = false.
Proof.
  intros [H1 H2]. unfold isSingleDot, isDoubleDot, chars_eqb.
  repeat match goal with
         | |- context [bool_decide (?a = ?b)] =>
             rewrite (bool_decide_false (a = b)); [|intros H]
         end; [done|..]; unfold lowercase in H; cbn in H;
    repeat peel; try congruence; try tauto;
    repeat match goal with
           | Hi : ?P → _, Hp : ?P |- _ => specialize (Hi Hp)
           end; by subst.
Qed.

Lemma drive_letter_of_escapePath seg a b :
  escapePath seg = [a; b] → isWindowsDriveLetter [a; b] = true → b = ":"%char.
Proof.
  intros E Hd. cbn in Hd. apply andb_true_iff in Hd as [_ Hb].
  apply orb_true_iff in Hb as [Hb|Hb]; apply Ascii.eqb_eq in Hb; [done|]. subst b.
  destruct seg as [|c1 seg]; [done|].
  change (escapePath (c1 :: seg)) with (escapeChar c1 ++ escapePath seg) in E.
  destruct (escapeChar_cases c1) as [[_ E1]|(_ & h1 & h2 & E1 & _)];
    rewrite E1 in E; [|done]. injection E as -> E.
  destruct seg as [|c2 seg]; [done|].
  change (escapePath (c2 :: seg)) with (escapeChar c2 ++ escapePath seg) in E.
  destruct (escapeChar_cases c2) as [[K2 E2]|(_ & h1 & h2 & E2 & _)];
    rewrite E2 in E; [|done]. injection E as -> E.
  by vm_compute in K2.
Qed.

Lemma endSegment_escapePath path seg atSlash :
  notDot seg →
  endSegment path (escapePath seg) atSlash = path ++ [escapePath seg].
Proof.
  intros Hseg. unfold endSegment.
  destruct (dots_of_escapePath seg Hseg) as [-> ->]. cbn [andb negb].
  destruct path as [|p path]; [|done].
  destruct (escapePath seg) as [|a [|b [|]]] eqn:E; try done.
  destruct (isWindowsDriveLetter [a; b]) eqn:Hd; [|done].
  by rewrite (drive_letter_of_escapePath seg a b E Hd).
Qed.

(** Walking the escaped form of [s] in path state collects the escaped
    segments of [s]. *)
Lemma pathState_escapePath s : ∀ path current,
  Forall (λ c, c ≠ "\"%char) s →
  Forall notDot (segmentsFrom current s) →
  pathState path (escapePath current) (escapePath s) =
    path ++ map escapePath (segmentsFrom current s).
Proof.
  induction s as [|c s IH]; intros path current Hbs Hdots.
  { cbn in *. apply Forall_inv in Hdots. by apply endSegment_escapePath. }
  apply Forall_cons in Hbs as [Hc Hbs].
  change (escapePath (c :: s)) with (escapeChar c ++ escapePath s).
  cbn [segmentsFrom] in *.
  destruct (escapeChar_cases c) as [[K ->]|(K & h1 & h2 & -> & Hp & _)].
  - destruct (keptByPathToUri_facts c K)
      as (_ & _ & _ & Hset & _ & Hq & Hh & Hb & _).
    cbn [app pathState]. unfold isSlash in *. rewrite Hb, Hq, Hh, orb_false_r.
    rewrite Hb, orb_false_r in Hdots.
    destruct (Ascii.eqb c "/") eqn:Hs; cbn [orb].
    + apply Forall_cons in Hdots as [Hcur Hdots].
      rewrite endSegment_escapePath by done.
      rewrite (IH _ [] Hbs Hdots). cbn. by rewrite <- app_assoc.
    + unfold pathPercentEncode. rewrite Hset.
      rewrite <- (IH path (current ++ [c]) Hbs Hdots).
      rewrite escapePath_app. cbn. unfold escapeChar. by rewrite K.
  - assert (isSlash c = false) as Hns.
    { unfold isSlash. destruct (Ascii.eqb c "/") eqn:Hs.
      - apply Ascii.eqb_eq in Hs. subst c. by vm_compute in K.
      - cbn. by apply Ascii.eqb_neq. }
    rewrite Hns in Hdots.
    pose proof (not_kept_facts c K) as Hn. rewrite Hp in Hn.
    destruct Hn as (_ & _ & Hs1 & Hl1 & Hq1 & Hh1 & _ & _ & Hs2 & Hl2 & Hq2 & Hh2 & _).
    cbn [app pathState]. change (isSlash "%") with false. cbn match.
    change (Ascii.eqb "%" "?" || Ascii.eqb "%" "#") with false. cbn match.
    rewrite Hl1, Hq1, Hh1, Hl2, Hq2, Hh2. cbn [orb].
    unfold pathPercentEncode. rewrite Hs1, Hs2.
    change (inPathPercentEncodeSet "%") with false. cbn match.
    rewrite Hns.
    rewrite <- (IH path (current ++ [c]) Hbs Hdots).
    rewrite escapePath_app, <- !app_assoc. cbn. unfold escapeChar.
    by rewrite K, Hp, app_nil_r.
Qed.

Lemma serializePath_segments s : ∀ current,
  Forall (λ c, c ≠ "\"%char) s →
  serializePath (map escapePath (segmentsFrom current s)) =
    "/"%char :: escapePath current ++ escapePath s.
Proof.
  induction s as [|c s IH]; intros current Hbs.
  { cbn. by rewrite !app_nil_r. }
  apply Forall_cons in Hbs as [Hc Hbs]. cbn [segmentsFrom].
  unfold isSlash. rewrite (proj2 (Ascii.eqb_neq c "\") Hc), orb_false_r.
  destruct (Ascii.eqb c "/") eqn:Hs.
  - apply Ascii.eqb_eq in Hs. subst c. cbn [map].
    change (serializePath (?a :: ?l)) with (("/"%char :: a) ++ serializePath l).
    by rewrite (IH [] Hbs).
  - rewrite (IH _ Hbs), escapePath_app, <- app_assoc.
    change (escapePath (c :: s)) with (escapeChar c ++ escapePath s).
    cbn. by rewrite app_nil_r.
Qed.

(** *** Preprocessing *)

Lemma dropWhile_id {A} (p : A → bool) l :
  Forall (λ x, p x = false) l → dropWhile p l = l.
Proof. destruct l as [|x l]; [done|]. intros H%Forall_inv. cbn. by rewrite H. Qed.

Lemma preprocess_id s : Forall plain s → preprocess s = s.
Proof.
  intros H. unfold preprocess.
  assert (Forall (λ c, isC0ControlOrSpace c = false) s) as H1.
  { eapply Forall_impl; [exact H|by intros ? []]. }
  rewrite (dropWhile_id _ s H1).
  rewrite (dropWhile_id _ (rev s) (List.Forall_rev H1)).
  rewrite rev_involutive. clear H1.
  induction H as [|c s [_ Hc] _ IH]; [done|]. cbn. by rewrite Hc, IH.
Qed.

Lemma dropWhile_keeps {A} (p : A → bool) l x t :
  p x = false → ∃ l', dropWhile p (l ++ x :: t) = l' ++ x :: t.
Proof.
  intros Hx. induction l as [|y l [l' IH]]; cbn.
  - rewrite Hx. by exists [].
  - destruct (p y); [by exists l'|]. by exists (y :: l).
Qed.

Lemma preprocess_slash rest : ∃ rest', preprocess ("/"%char :: rest) = "/"%char :: rest'.
Proof.
  unfold preprocess. cbn [dropWhile].
  change (isC0ControlOrSpace "/") with false. cbn match.
  cbn [rev]. destruct (dropWhile_keeps isC0ControlOrSpace (rev rest) "/"%char [] eq_refl)
    as [l' ->].
  rewrite rev_app_distr. cbn. by eexists.
Qed.

Lemma escapePath_plain s : Forall plain (escapePath s).
Proof.
  induction s as [|c s IH]; [constructor|].
  change (escapePath (c :: s)) with (escapeChar c ++ escapePath s).
  apply Forall_app. split; [|done].
  destruct (escapeChar_cases c) as [[K ->]|(K & h1 & h2 & -> & Hp & _)].
  - destruct (keptByPathToUri_facts c K) as (_ & ? & ? & _). by repeat constructor.
  - pose proof (not_kept_facts c K) as Hn. rewrite Hp in Hn.
    destruct Hn as (? & ? & _ & _ & _ & _ & ? & ? & _). by repeat constructor.
Qed.

(** *** pathToUri on an absolute path *)

Lemma escapeHashAndQuestion_app a b :
  escapeHashAndQuestion (a ++ b) =
  x ← escapeHashAndQuestion a; y ← escapeHashAndQuestion b; Some (x ++ y).
Proof.
  unfold escapeHashAndQuestion. induction a as [|c a IH]; cbn.
  { by destruct (mapM _ b). }
  destruct (if Ascii.eqb c "#" || Ascii.eqb c "?" then _ else _) as [piece|]; [|done].
  cbn. cbn in IH.
  destruct (mapM _ (a ++ b)) as [pieces|]; cbn in *;
    destruct (mapM _ a) as [pa|]; cbn in *; try done;
    destruct (mapM _ b) as [pb|]; cbn in *; try done.
  injection IH as ->. by rewrite app_assoc.
Qed.

Lemma escapeHashAndQuestion_char c :
  escapeHashAndQuestion
    (if uriUnescaped c || uriReserved c || Ascii.eqb c "#"
     then [c] else percentEncodeByte c)
  = Some (escapeChar c).
Proof. each_byte c; vm_compute; reflexivity. Qed.

Lemma escapeHashAndQuestion_encoded s :
  escapeHashAndQuestion
    (flat_map (λ c, if uriUnescaped c || uriReserved c || Ascii.eqb c "#"
                    then [c] else percentEncodeByte c) s)
  = Some (escapePath s).
Proof.
  induction s as [|c s IH]; [done|].
  cbn [flat_map]. rewrite escapeHashAndQuestion_app, escapeHashAndQuestion_char, IH.
  done.
Qed.

Lemma replaceAll_absent x y s :
  Forall (λ c, c ≠ x) s → replaceAll x y s = s.
Proof.
  induction 1 as [|c s Hc _ IH]; [done|]. unfold replaceAll in *. cbn.
  by rewrite (proj2 (Ascii.eqb_neq c x) Hc), IH.
Qed.

(** On a path that begins with a slash and has no backslash, and that
    the URL parser accepts, [pathToUri] is ["file://"] followed by the
    escaped path. *)
Lemma pathToUri_chars_absolute plat rest :
  Forall (λ c, c ≠ "\"%char) rest →
  wellFormed ("/"%char :: rest) = true →
  pathToUri_chars plat ("/"%char :: rest) =
    match parseURL plat ("/"%char :: rest) with
    | Some _ => Some (fileScheme ++ escapePath ("/"%char :: rest))
    | None => None
    end.
Proof.
  intros Hbs Hwf. unfold pathToUri_chars, parseURL.
  destruct (preprocess_slash rest) as [rest' ->].
  cbn [schemeStartState]. change (isAsciiAlpha "/") with false. cbn match.
  destruct (fileState plat ("/"%char :: rest')) as [path|]; [|done].
  cbn [fmap option_fmap option_map mbind option_bind protocol].
  change (chars_eqb _ _) with true. cbn [negb].
  rewrite replaceAll_absent by (constructor; [done|exact Hbs]).
  change (Ascii.eqb "/" "/") with true. cbn match.
  unfold encodeURI, Encode.
  change (wellFormed (_ ++ "/"%char :: rest)) with (wellFormed ("/"%char :: rest)).
  rewrite Hwf. cbn [mbind option_bind].
  rewrite flat_map_app, escapeHashAndQuestion_app, escapeHashAndQuestion_encoded.
  done.
Qed.

(** The URL parser on such a URI. *)
Lemma parseURL_file_uri plat s :
  Forall (λ c, c ≠ "\"%char) s →
  noDotSegments ("/"%char :: s) →
  parseURL plat (fileScheme ++ escapePath ("/"%char :: s)) =
    Some (FileURL (map escapePath (segmentsFrom [] s))).
Proof.
  intros Hbs Hdots. unfold parseURL.
  rewrite preprocess_id
    by (apply Forall_app; split; [repeat constructor|apply escapePath_plain]).
  change (escapePath ("/"%char :: s)) with ("/"%char :: escapePath s).
  change (schemeStartState _) with
    (Some (String.list_ascii_of_string "file",
           "/"%char :: "/"%char :: "/"%char :: escapePath s)).
  cbn match. change (chars_eqb _ _) with true. cbn match.
  change (fileState plat _) with (Some (pathState [] (escapePath []) (escapePath s))).
  cbn [fmap option_fmap option_map].
  unfold noDotSegments in Hdots. cbn in Hdots. apply Forall_cons in Hdots as [_ Hdots].
  by rewrite pathState_escapePath.
Qed.

Lemma roundtrip_chars plat rest uri :
  win32 plat = false →
  Forall (λ c, c ≠ "\"%char) rest →
  wellFormed ("/"%char :: rest) = true →
  noDotSegments ("/"%char :: rest) →
  pathToUri_chars plat ("/"%char :: rest) = Some uri →
  uriToPath_chars plat uri = Some ("/"%char :: rest).
Proof.
  intros Hwin Hbs Hwf Hdots. rewrite pathToUri_chars_absolute by done.
  destruct (parseURL plat _); [|done]. intros Heq.
  assert (uri = fileScheme ++ escapePath ("/"%char :: rest)) as -> by congruence.
  clear Heq. unfold uriToPath_chars. rewrite parseURL_file_uri by done.
  cbn [mbind option_bind]. rewrite (serializePath_segments rest []) by done.
  change ("/"%char :: escapePath [] ++ escapePath rest)
    with (escapePath ("/"%char :: rest)).
  rewrite decodeURIComponent_escapePath by done.
  cbn [mbind option_bind]. by rewrite Hwin.
Qed.

Lemma protocol_other plat input url :
  parseURL plat input = Some url →
  protocol url ≠ String.list_ascii_of_string "file:" →
  ∃ scheme, url = OtherURL scheme.
Proof. destruct url; [done|eauto]. Qed.

(** C10, as amended.  Off Windows, a path that begins with a slash, has
    no backslash and no [.] or [..] segment and is well-formed Unicode
    is given back by [uriToPath] from the URI [pathToUri] makes of it,
    whenever [pathToUri] returns; and a string that parses as a URL of a
    scheme other than [file] is returned as it is by both functions. *)
Theorem pathToUri_uriToPath_roundtrip (plat : platform) (p uri : string) :
  win32 plat = false →
  beginsWithSlash p → noBackslash p → wellFormedString p → noDotSegmentsIn p →
  pathToUri plat p = Some uri →
  uriToPath plat uri = Some p ∧
  ∀ s url, parseURL plat (String.list_ascii_of_string s) = Some url →
           protocol url ≠ String.list_ascii_of_string "file:" →
           pathToUri plat s = Some s ∧ uriToPath plat s = Some s.
Proof.
  intros Hwin [rest ->] Hbs Hwf Hdots Huri. split.
  - unfold pathToUri, uriToPath in *.
    unfold noBackslash, wellFormedString, noDotSegmentsIn in *.
    cbn [String.list_ascii_of_string] in *.
    apply Forall_cons in Hbs as [_ Hbs].
    destruct (pathToUri_chars plat _) as [u|] eqn:E; [|done].
    injection Huri as <-.
    rewrite String.list_ascii_of_string_of_list_ascii.
    rewrite (roundtrip_chars plat _ u Hwin Hbs Hwf Hdots E).
    cbn. by rewrite String.string_of_list_ascii_of_string.
  - intros s url Hparse Hproto.
    destruct (protocol_other plat _ url Hparse Hproto) as [scheme ->].
    unfold pathToUri, uriToPath, pathToUri_chars, uriToPath_chars.
    rewrite Hparse. cbn [mbind option_bind].
    unfold chars_eqb. rewrite (bool_decide_false _ Hproto). cbn.
    by rewrite String.string_of_list_ascii_of_string.
Qed.

Lemma pathToUri_uriToPath_roundtrip_witness :
  win32 posix = false ∧ beginsWithSlash "/a b/c#d?e.txt" ∧
  noBackslash "/a b/c#d?e.txt" ∧ wellFormedString "/a b/c#d?e.txt" ∧
  noDotSegmentsIn "/a b/c#d?e.txt" ∧
  pathToUri posix "/a b/c#d?e.txt" = Some "file:///a%20b/c%23d%3Fe.txt" ∧
  uriToPath posix "file:///a%20b/c%23d%3Fe.txt" = Some "/a b/c#d?e.txt".
Proof.
  assert (H1 : beginsWithSlash "/a b/c#d?e.txt") by (by eexists).
  assert (H2 : noBackslash "/a b/c#d?e.txt") by (repeat constructor; discriminate).
  assert (H3 : wellFormedString "/a b/c#d?e.txt") by reflexivity.
  assert (H4 : noDotSegmentsIn "/a b/c#d?e.txt")
    by (repeat constructor; discriminate).
  assert (H5 : pathToUri posix "/a b/c#d?e.txt" = Some "file:///a%20b/c%23d%3Fe.txt")
    by reflexivity.
  repeat (split; [done|]).
  exact (proj1 (pathToUri_uriToPath_roundtrip posix _ _ eq_refl H1 H2 H3 H4 H5)).
Defined.

(** C10 as stated fails on a path with a [..] segment: the URL parser
    removes the segment together with the one before it. *)
Lemma roundtrip_fails_on_dot_segments :
  beginsWithSlash "/a/../b" ∧ noBackslash "/a/../b" ∧
  (pathToUri posix "/a/../b" ≫= uriToPath posix) = Some "/b".
Proof.
  split; [by eexists|]. split; [repeat constructor; discriminate|]. reflexivity.
Qed.

(** The same on every platform that is not Windows. *)
Lemma roundtrip_fails_on_dot_segments_any plat :
  win32 plat = false →
  (pathToUri plat "/a/../b" ≫= uriToPath plat) = Some "/b".
Proof.
  intros H. unfold pathToUri, uriToPath, pathToUri_chars, uriToPath_chars.
  cbn. by rewrite H.
Qed.

(** [pathToUri] returns on an absolute path unless the path, tabs and
    newlines aside, begins with two slashes. *)
Lemma pathToUri_returns plat c rest :
  isSlash c = false → isTabOrNewline c = false → isC0ControlOrSpace c = false →
  Forall (λ c, c ≠ "\"%char) rest →
  wellFormed ("/"%char :: c :: rest) = true →
  is_Some (pathToUri_chars plat ("/"%char :: c :: rest)).
Proof.
  intros Hs Ht Hc Hbs Hwf.
  rewrite pathToUri_chars_absolute; [| |done].
  2: { constructor; [|done]. intros ->. done. }
  enough (is_Some (parseURL plat ("/"%char :: c :: rest))) as [u ->] by done.
  unfold parseURL, preprocess. cbn [dropWhile].
  change (isC0ControlOrSpace "/") with false. cbn match.
  change (rev ("/"%char :: c :: rest)) with ((rev rest ++ [c]) ++ ["/"%char]).
  rewrite <- app_assoc. cbn [app].
  destruct (dropWhile_keeps isC0ControlOrSpace (rev rest) c ["/"%char] Hc)
    as [l' E].
  rewrite E, rev_app_distr. cbn [rev app List.filter].
  change (isTabOrNewline "/") with false. rewrite Ht. cbn [negb].
  cbn [schemeStartState]. change (isAsciiAlpha "/") with false. cbn match.
  cbn [fileState]. change (isSlash "/") with true. cbn match.
  cbn [fileSlashState]. rewrite Hs. by eexists.
Qed.

End uri_facts.

(** ** The suggestion cache *)

Lemma Point_isEqual_eq (a b : Atom.Point) :
  Atom.Point_isEqual a b = true ↔ a = b.
Proof.
  unfold Atom.Point_isEqual. destruct a as [r1 c1], b as [r2 c2]. cbn.
  rewrite andb_true_iff, !Z.eqb_eq. split; [intros [-> ->]|intros [= -> ->]]; done.
Qed.

Lemma Point_isLessThanOrEqual_lex (a b : Atom.Point) :
  Atom.Point_isLessThanOrEqual a b = true ↔
  (Atom.row a < Atom.row b ∨
   (Atom.row a = Atom.row b ∧ Atom.column a ≤ Atom.column b))%Z.
Proof.
  unfold Atom.Point_isLessThanOrEqual, Atom.Point_compare.
  destruct a as [r1 c1], b as [r2 c2]. cbn.
  repeat match goal with
         | |- context [(?x <? ?y)%Z] => destruct (Z.ltb_spec x y)
         end; rewrite Z.leb_le; lia.
Qed.

Section autocomplete_facts.
Import Autocomplete.
Variable localeCompare : string → string → Z.
Variable plat : Uri.platform.

Lemma valid_reusable cache request triggerChar triggerOnly :
  negb (isIncomplete cache) &&
  String.eqb (Autocomplete.triggerChar cache) triggerChar &&
  Atom.Point_isEqual (triggerPoint cache)
    (computeTriggerPoint request triggerChar triggerOnly) &&
  Atom.Point_isLessThanOrEqual (originalBufferPoint cache) (bufferPosition request)
  = true ↔ reusable cache request triggerChar triggerOnly.
Proof.
  unfold reusable.
  rewrite !andb_true_iff, negb_true_iff, String.eqb_eq, Point_isEqual_eq,
    Point_isLessThanOrEqual_lex. tauto.
Qed.

(** C3.  [getOrBuildSuggestions] answers from the cache, sending no
    request and changing nothing but the log, when the server has a cache
    entry that is not marked incomplete, has the request's trigger
    character and trigger point, and whose original position is not
    after the request's position.  In every other case it sends one
    completion request; when the server answers, the entry of the server
    is replaced by one made from the answer, marked incomplete exactly
    when the answer is a list flagged incomplete. *)
Theorem getOrBuildSuggestions_cache_law (server : ActiveServer) (request : Request)
    (triggerChar : string) (triggerOnly : bool) (apiVersion : Q)
    (shouldReplace : bool) (adjust : option CompletionItemAdjuster) (st : state) :
  let run := getOrBuildSuggestions localeCompare plat server request triggerChar
               triggerOnly apiVersion shouldReplace adjust st in
  let w := Cancellation.world st in
  let w' := Cancellation.world run.2 in
  (∀ cache,
     _suggestionCache w !! serverId server = Some cache →
     reusable cache request triggerChar triggerOnly →
     run.1 = Resolved (map fst (suggestionMap cache)) ∧
     _suggestionCache w' = _suggestionCache w ∧
     suggestions w' = suggestions w ∧
     Cancellation.tokens run.2 = Cancellation.tokens st ∧
     Cancellation.cancelCalls run.2 = Cancellation.cancelCalls st ∧
     ∃ logs, trace w' = trace w ++ logs ∧
             Forall (λ e, isRequest e = false) logs) ∧
  ((∀ cache, _suggestionCache w !! serverId server = Some cache →
             ¬ reusable cache request triggerChar triggerOnly) →
   ∀ params completions,
     createCompletionParams plat request triggerChar triggerOnly = Some params →
     completion (connection server) params = Resolved completions →
     ∃ token entry,
       trace w' = trace w ++
         [Log "getOrBuildSuggestions:"; Log "Getting completions…";
          CompletionRequest (connectionId (connection server)) params token] ∧
       _suggestionCache w' = <[serverId server := entry]> (_suggestionCache w) ∧
       (isIncomplete entry = true ↔ ∃ items, completions = CompletionList true items) ∧
       Autocomplete.triggerChar entry = triggerChar ∧
       triggerPoint entry = computeTriggerPoint request triggerChar triggerOnly ∧
       originalBufferPoint entry = bufferPosition request ∧
       run.1 = Resolved (map fst (suggestionMap entry)) ∧
       Cancellation.tokens run.2 !! connectionId (connection server) = None).
Proof.
  cbn zeta. unfold getOrBuildSuggestions.
  cbn [emit onWorld Cancellation.world _suggestionCache].
  split.
  - intros cache Hc Hre. rewrite Hc.
    rewrite (proj2 (valid_reusable cache request triggerChar triggerOnly) Hre).
    cbn. repeat split; try done.
    eexists. split; [by rewrite <- !app_assoc|]. by repeat constructor.
  - intros Hmiss params completions Hparams Hresp.
    match goal with
    | |- context [match ?c with Some e => if @?v e then _ else _ | None => None end] =>
        assert (match c with Some e => if v e then Some e else None | None => None end
                = None) as ->
    end.
    { destruct (_ !! serverId server) as [cache|] eqn:Hc; [|done].
      rewrite (not_true_is_false _); [done|].
      intros Hv%valid_reusable. by eapply Hmiss. }
    unfold Cancellation.doWithCancellationToken.
    match goal with
    | |- context [Cancellation.cancelAndRefreshCancellationToken ?k ?s] =>
        pose proof (refresh_world k s) as Hw;
        destruct (Cancellation.cancelAndRefreshCancellationToken k s) as [token st1]
    end.
    cbn [fst snd emit onWorld Cancellation.world suggestions _suggestionCache trace]
      in Hw.
    unfold requestCompletion. rewrite Hparams, Hresp.
    unfold completionItemsToSuggestions, setCache, emit, onWorld,
      Cancellation.deleteToken.
    cbn [fst snd Cancellation.world Cancellation.sources Cancellation.tokens
         Cancellation.cancelCalls suggestions _suggestionCache trace].
    rewrite Hw. cbn [suggestions _suggestionCache trace].
    eexists token, _. split; [by rewrite <- !app_assoc|].
    split; [reflexivity|]. cbn [isIncomplete Autocomplete.triggerChar triggerPoint
      originalBufferPoint suggestionMap].
    repeat split; try done.
    + destruct completions as [| |[]]; cbn; intros; try done. by eexists.
    + intros [items ->]. done.
    + apply lookup_delete_eq.
Qed.

Lemma applyDetailsToSuggestion_frame item s :
  sameInsertion (applyDetailsToSuggestion item s) s.
Proof.
  unfold applyDetailsToSuggestion, sameInsertion.
  destruct (documentation item) as [[doc|kind value]|]; cbn; [done| |done].
  by destruct (String.eqb kind "markdown").
Qed.

Lemma mapGet_markResolved key (m : list (nat * PossiblyResolvedCompletionItem)) pr :
  mapGet key m = Some pr →
  mapGet key (markResolved key m) =
    Some (Build_PossiblyResolvedCompletionItem (prCompletionItem pr) true).
Proof.
  induction m as [|[k v] m IH]; [done|]. cbn.
  destruct (Nat.eqb k key) eqn:E; cbn; rewrite E; [by intros [= ->]|done].
Qed.

(** C9, as amended.  [completeSuggestion] sends no request and changes
    nothing for a suggestion that is not in the server's cache or is
    flagged resolved.  For a cached suggestion not yet resolved it sends
    exactly one resolve request.  When the answer is an item, the
    suggestion becomes [resolveSuggestion] of it, which without an
    adjusting callback changes at most [rightLabel], [description] and
    [descriptionMarkdown]; the entry is flagged resolved and selecting
    the suggestion again sends nothing.  When the answer is [null] or
    the request fails, nothing but the trace changes. *)
Theorem completeSuggestion_resolves_once (server : ActiveServer) (suggestion : nat)
    (request : Request) (adjust : option CompletionItemAdjuster) (st : state) :
  let run := completeSuggestion server suggestion request adjust st in
  let w := Cancellation.world st in
  let w' := Cancellation.world run.2 in
  ((∀ cache pr, _suggestionCache w !! serverId server = Some cache →
                mapGet suggestion (suggestionMap cache) = Some pr →
                isResolved pr = true) →
   run = (Resolved suggestion, st)) ∧
  (∀ cache pr,
     _suggestionCache w !! serverId server = Some cache →
     mapGet suggestion (suggestionMap cache) = Some pr →
     isResolved pr = false →
     let sent := ResolveRequest (connectionId (connection server))
                                (prCompletionItem pr) in
     trace w' = trace w ++ [sent] ∧
     match completionItemResolve (connection server) (prCompletionItem pr) with
     | Resolved (Some resolved) =>
         run.1 = Resolved suggestion ∧
         suggestions w' =
           alter (λ s, resolveSuggestion resolved s request adjust) suggestion
                 (suggestions w) ∧
         (adjust = None →
          ∀ s, suggestions w !! suggestion = Some s →
               ∃ s', suggestions w' !! suggestion = Some s' ∧ sameInsertion s' s) ∧
         completeSuggestion server suggestion request adjust run.2 =
           (Resolved suggestion, run.2)
     | Resolved None => run = (Resolved suggestion, emit sent st)
     | Rejected err => run = (Rejected err, emit sent st)
     end).
Proof.
  cbn zeta. unfold completeSuggestion. split.
  - intros Hno.
    destruct (_suggestionCache _ !! serverId server) as [cache|] eqn:Hc; [|done].
    destruct (mapGet suggestion (suggestionMap cache)) as [pr|] eqn:Hpr; [|done].
    by rewrite (Hno cache pr eq_refl Hpr).
  - intros cache pr Hc Hpr Hun. rewrite Hc, Hpr, Hun. cbn [negb].
    destruct (completionItemResolve _ _) as [[resolved|]|err]; cbn; try done.
    split; [done|]. split; [done|]. split; [done|]. split.
    + intros -> s Hs. rewrite list_lookup_alter_eq, Hs. cbn.
      eexists. split; [done|]. apply applyDetailsToSuggestion_frame.
    + rewrite lookup_alter_eq, Hc. cbn.
      by rewrite (mapGet_markResolved _ _ _ Hpr).
Qed.

End autocomplete_facts.

Lemma getOrBuildSuggestions_cache_law_witness :
  let run1 := Autocomplete.getOrBuildSuggestions Autocomplete.byLength Uri.posix
                Autocomplete.exampleServer Autocomplete.followUpRequest "" false
                (Qmake 5 1) false None Autocomplete.cachedState in
  let run2 := Autocomplete.getOrBuildSuggestions Autocomplete.byLength Uri.posix
                Autocomplete.exampleServer Autocomplete.firstRequest "" false
                (Qmake 5 1) false None Autocomplete.emptyState in
  Autocomplete.reusable Autocomplete.exampleEntry Autocomplete.followUpRequest
    "" false ∧
  run1.1 = Resolved [0] ∧
  Autocomplete.trace (Cancellation.world run1.2) =
    [Autocomplete.Log "getOrBuildSuggestions:"; Autocomplete.Log "cache is valid!";
     Autocomplete.Log "returning cached!"] ∧
  run2.1 = Resolved [0] ∧
  (Autocomplete.isIncomplete <$>
     Autocomplete._suggestionCache (Cancellation.world run2.2) !! 1) = Some true.
Proof.
  cbn zeta.
  assert (Autocomplete.reusable Autocomplete.exampleEntry
            Autocomplete.followUpRequest "" false) as Hre.
  { unfold Autocomplete.reusable. cbn. repeat split; try done. right. lia. }
  split; [exact Hre|].
  destruct (getOrBuildSuggestions_cache_law Autocomplete.byLength Uri.posix
              Autocomplete.exampleServer Autocomplete.followUpRequest "" false
              (Qmake 5 1) false None Autocomplete.cachedState) as [Hhit _].
  destruct (Hhit Autocomplete.exampleEntry eq_refl Hre) as (H1 & _).
  split; [exact H1|]. split; [reflexivity|].
  destruct (getOrBuildSuggestions_cache_law Autocomplete.byLength Uri.posix
              Autocomplete.exampleServer Autocomplete.firstRequest "" false
              (Qmake 5 1) false None Autocomplete.emptyState) as [_ Hmiss].
  edestruct Hmiss as (token & entry & _ & Hcache & Hinc & _ & _ & _ & Hres & _).
  { intros cache Hc. cbn in Hc. by rewrite lookup_empty in Hc. }
  { reflexivity. }
  { reflexivity. }
  split; [reflexivity|]. rewrite Hcache, lookup_insert_eq. cbn.
  f_equal. apply Hinc. by eexists.
Defined.


Lemma completeSuggestion_resolves_once_witness :
  let run := Autocomplete.completeSuggestion Autocomplete.resolvingServer 0
               Autocomplete.firstRequest None Autocomplete.cachedState in
  Autocomplete._suggestionCache (Cancellation.world Autocomplete.cachedState) !! 1
    = Some Autocomplete.exampleEntry ∧
  Autocomplete.mapGet 0 (Autocomplete.suggestionMap Autocomplete.exampleEntry)
    = Some (Autocomplete.Build_PossiblyResolvedCompletionItem
              Autocomplete.exampleItem false) ∧
  Autocomplete.trace (Cancellation.world run.2) =
    [Autocomplete.ResolveRequest 5 Autocomplete.exampleItem] ∧
  Autocomplete.completeSuggestion Autocomplete.resolvingServer 0
    Autocomplete.firstRequest None run.2 = (Resolved 0, run.2).
Proof.
  cbn zeta. split; [reflexivity|]. split; [reflexivity|].
  destruct (completeSuggestion_resolves_once Autocomplete.resolvingServer 0
              Autocomplete.firstRequest None Autocomplete.cachedState) as [_ H].
  destruct (H Autocomplete.exampleEntry _ eq_refl eq_refl eq_refl) as [Htrace Hrest].
  split; [exact Htrace|]. cbn in Hrest. apply Hrest.
Defined.

(** C9 as stated fails when the server answers a resolve request with
    [null]: the entry is not flagged, and selecting the same suggestion
    again sends a second request. *)
Lemma completeSuggestion_null_answer_requests_again :
  let once := Autocomplete.completeSuggestion Autocomplete.exampleServer 0
                Autocomplete.firstRequest None Autocomplete.cachedState in
  let twice := Autocomplete.completeSuggestion Autocomplete.exampleServer 0
                 Autocomplete.firstRequest None once.2 in
  Autocomplete.trace (Cancellation.world twice.2) =
    [Autocomplete.ResolveRequest 5 Autocomplete.exampleItem;
     Autocomplete.ResolveRequest 5 Autocomplete.exampleItem].
Proof. reflexivity. Qed.

(** With an adjusting callback the suggestion may change in any
    property: here the callback replaces the text to insert. *)
Lemma completeSuggestion_adjuster_changes_text :
  let adjust : Autocomplete.CompletionItemAdjuster :=
    λ item s _, Autocomplete.Build_Suggestion (Autocomplete.insertText item)
      (Autocomplete.snippet s) (Autocomplete.displayText s)
      (Autocomplete.filterText s) (Autocomplete.type_ s)
      (Autocomplete.rightLabel s) (Autocomplete.description s)
      (Autocomplete.descriptionMarkdown s) (Autocomplete.sugTextEdit s)
      (Autocomplete.sugAdditionalTextEdits s)
      (Autocomplete.customReplacementPrefix s) (Autocomplete.replacementPrefix s)
      (Autocomplete.completionItem s) in
  let run := Autocomplete.completeSuggestion Autocomplete.resolvingServer 0
               Autocomplete.firstRequest (Some adjust) Autocomplete.cachedState in
  Autocomplete.text <$> Autocomplete.suggestions (Cancellation.world run.2) !! 0
    = Some (Some "other") ∧
  Autocomplete.text <$>
    Autocomplete.suggestions (Cancellation.world Autocomplete.cachedState) !! 0
    = Some (Some "foobar").
Proof. split; reflexivity. Qed.

(** ** Diagnostics *)

Section diagnostics_facts.
Import Diagnostics.
Variable env : environment.
Variable path : string.

Lemma foldl_captureStep_None diags :
  foldl (captureStep env path) None diags = None.
Proof. by induction diags. Qed.

Lemma alter_snoc {A} (f : A → A) (l : list A) x :
  alter f (length l) (l ++ [x]) = l ++ [f x].
Proof. induction l as [|y l IH]; [done|]. cbn. by rewrite IH. Qed.

Lemma lookup_snoc {A} (l : list A) x : (l ++ [x]) !! length l = Some x.
Proof. rewrite lookup_app_r by lia. by rewrite Nat.sub_diag. Qed.

Lemma key_withKey m : key (withKey m) = Some (keyOf (withKey m)).
Proof. unfold withKey, keyOf. by destruct (key m) eqn:E; cbn; rewrite ?E. Qed.

Lemma position_withKey m : position (withKey m) = position m.
Proof. unfold withKey. by destruct (key m). Qed.

(** One turn of the loop on a suppressed diagnostic. *)
Lemma captureStep_ignored l st d :
  ignored env path d = true →
  captureStep env path (Some (l, st)) d = Some (l, st).
Proof.
  intros H. unfold captureStep, transformOrIgnoreDiagnosticMessage. cbn.
  by rewrite H.
Qed.

(** One turn of the loop on a retained diagnostic. *)
Lemma captureStep_kept l st d :
  ignored env path d = false →
  captureStep env path (Some (l, st)) d =
  m ← made env path d;
  Some (Locals (<[keyOf m := d]> (codeMap l))
               (<[getDiagnosticKey d := length (messageStore st)]> (diagnosticMap l))
               (messages l ++ [length (messageStore st)])
               (retainedDiagnostics l ++ [d])
               (unionRange (codeActionRange l) (position m)),
        State (messageStore st ++ [m]) (_diagnosticMap st) (_lsDiagnosticMap st)
          (_indies st) (_lastDiagnosticsParamsByEditor st)
          (_editorsWithSaveCallbacks st)
          ((λ lists, register env path lists (d, length (messageStore st), m))
             <$> _intentionsManager st)
          (trace st)).
Proof.
  intros H. unfold captureStep, transformOrIgnoreDiagnosticMessage, made. cbn.
  rewrite H. cbn.
  destruct (lsDiagnosticToV2Message env path d) as [m0|]; [|done]. cbn.
  set (m := transformed env path d m0).
  unfold getMessageKey, positionOf, register, addIntentionsForLinterMessage,
    withIntentions, withStore, positionOf.
  destruct (codeString d) as [c|] eqn:Hc; cbn;
    rewrite !alter_snoc, !lookup_snoc; cbn;
    rewrite key_withKey, position_withKey; cbn;
    destruct (_intentionsManager st); cbn; try done;
    destruct (codeActionRange l); done.
Qed.

(** The loop, from any value of its variables. *)
Lemma captureLoop_from diags : ∀ l0 st0 l st',
  foldl (captureStep env path) (Some (l0, st0)) diags = Some (l, st') →
  let kept := keptDiagnostics env path diags in
  let refs := seq (length (messageStore st0)) (length kept) in
  ∃ msgs,
    mapM (made env path) kept = Some msgs ∧
    l = Locals
          (foldl (λ m dm, <[keyOf dm.2 := dm.1]> m) (codeMap l0) (zip kept msgs))
          (foldl (λ m dr, <[getDiagnosticKey dr.1 := dr.2]> m) (diagnosticMap l0)
                 (zip kept refs))
          (messages l0 ++ refs) (retainedDiagnostics l0 ++ kept)
          (foldl unionRange (codeActionRange l0) (map position msgs)) ∧
    st' = State (messageStore st0 ++ msgs) (_diagnosticMap st0)
            (_lsDiagnosticMap st0) (_indies st0)
            (_lastDiagnosticsParamsByEditor st0) (_editorsWithSaveCallbacks st0)
            ((λ lists, foldl (register env path) lists (zip (zip kept refs) msgs))
               <$> _intentionsManager st0)
            (trace st0).
Proof.
  induction diags as [|d diags IH]; intros l0 st0 l st' Hrun; cbn zeta.
  { cbn in Hrun. injection Hrun as <- <-. exists []. cbn.
    rewrite !app_nil_r. split; [done|]. split; [by destruct l0|].
    destruct st0 as [? ? ? ? ? ? [?|] ?]; done. }
  cbn [foldl] in Hrun. unfold keptDiagnostics. cbn [List.filter].
  destruct (ignored env path d) eqn:Hig; cbn [negb].
  { rewrite captureStep_ignored in Hrun by done. by apply IH. }
  rewrite captureStep_kept in Hrun by done.
  destruct (made env path d) as [m|] eqn:Hm; cbn in Hrun;
    [|by rewrite foldl_captureStep_None in Hrun].
  apply IH in Hrun as (msgs & Hmsgs & -> & ->). cbn zeta in *.
  fold (keptDiagnostics env path diags) in *.
  exists (m :: msgs). cbn [length messageStore]. rewrite length_app. cbn [length].
  replace (length (messageStore st0) + 1) with (S (length (messageStore st0))) by lia.
  split; [|split].
  - cbn. by rewrite Hm, Hmsgs.
  - cbn. by rewrite <- !app_assoc.
  - cbn. rewrite <- !app_assoc. cbn.
    destruct (_intentionsManager st0); done.
Qed.

(** The loop returns when every retained diagnostic can be made into a
    message. *)
Lemma captureLoop_returns diags : ∀ l0 st0,
  is_Some (mapM (made env path) (keptDiagnostics env path diags)) →
  is_Some (foldl (captureStep env path) (Some (l0, st0)) diags).
Proof.
  induction diags as [|d diags IH]; intros l0 st0 Hmade; [done|].
  cbn [foldl]. unfold keptDiagnostics in Hmade. cbn [List.filter] in Hmade.
  destruct (ignored env path d) eqn:Hig; cbn [negb] in Hmade.
  { rewrite captureStep_ignored by done. by apply IH. }
  rewrite captureStep_kept by done. cbn in Hmade.
  destruct (made env path d) as [m|]; cbn in *; [|by destruct Hmade].
  apply IH. fold (keptDiagnostics env path diags) in Hmade.
  by destruct (mapM _ (keptDiagnostics env path diags)).
Qed.

(** Before the loop: every open editor of the path is noted and its
    index cleared. *)
Lemma noteEditor_fold params editors : ∀ st,
  let st1 := foldl (noteEditor params) st editors in
  messageStore st1 = messageStore st ∧ _diagnosticMap st1 = _diagnosticMap st ∧
  _lsDiagnosticMap st1 = _lsDiagnosticMap st ∧ _indies st1 = _indies st ∧
  _intentionsManager st1 =
    (λ lists, foldl (λ ls e, clearLinterIntentions e ls) lists editors)
      <$> _intentionsManager st ∧
  ∃ saves, Forall (λ e, isOnDidSave e = true) saves ∧ trace st1 = trace st ++ saves.
Proof.
  induction editors as [|e editors IH]; intros st; cbn zeta.
  { cbn. repeat split; try done.
    - by destruct (_intentionsManager st).
    - exists []. by rewrite app_nil_r. }
  cbn [foldl]. destruct (IH (noteEditor params st e)) as (-> & -> & -> & -> & -> & saves & Hs & ->).
  cbn. repeat split; try done.
  - by destruct (_intentionsManager st).
  - case_bool_decide.
    + by exists saves.
    + exists (OnDidSave e :: saves). split; [by constructor|].
      by rewrite <- app_assoc.
Qed.

Lemma cleared_lookup editors e : ∀ lists,
  e ∈ editors →
  default emptyList
    (foldl (λ ls e, clearLinterIntentions e ls) lists editors !! e) = emptyList.
Proof.
  induction editors as [|e' editors IH]; intros lists Hin; [by inversion Hin|].
  cbn [foldl]. destruct (decide (e ∈ editors)) as [Hin'|Hnin]; [by apply IH|].
  apply elem_of_cons in Hin as [->|]; [|done].
  assert (∀ ls, e' ∉ editors →
    foldl (λ ls e, clearLinterIntentions e ls) ls editors !! e' = ls !! e') as Hframe.
  { clear. induction editors as [|x editors IH]; intros ls Hx; [done|].
    apply not_elem_of_cons in Hx as [Hne Hx].
    cbn [foldl]. rewrite IH by done.
    unfold clearLinterIntentions. by rewrite lookup_alter_ne. }
  rewrite Hframe by done. unfold clearLinterIntentions.
  rewrite lookup_alter_eq. by destruct (lists !! e').
Qed.

Lemma addToEditor_fold rg b d editors e : ∀ lists,
  NoDup editors →
  foldl (addToEditor rg b d) lists editors !! e =
    if decide (e ∈ editors)
    then Some (add rg b d (default emptyList (lists !! e)))
    else lists !! e.
Proof.
  induction editors as [|x editors IH]; intros lists Hnd; [done|].
  apply NoDup_cons in Hnd as [Hx Hnd]. cbn [foldl]. rewrite IH by done.
  unfold addToEditor.
  destruct (decide (e = x)) as [->|Hne].
  - rewrite decide_False by done. rewrite decide_True by left.
    by rewrite lookup_insert_eq.
  - rewrite lookup_insert_ne by done.
    destruct (decide (e ∈ editors)) as [Hin|Hnin].
    + by rewrite decide_True by (by right).
    + rewrite decide_False; [done|]. by intros [?|?]%elem_of_cons.
Qed.

(** The index of an open editor of the path after the registrations of
    the loop, when it was empty before them. *)
Lemma register_fold entries e : ∀ lists l0,
  NoDup (findAllTextEditorsForPath env path) →
  e ∈ findAllTextEditorsForPath env path →
  default emptyList (lists !! e) = l0 →
  default emptyList (foldl (register env path) lists entries !! e) =
    foldl (λ l entry,
             let '(d, r, m) := entry in
             match codeString d with
             | Some c => add (position m) (Build_MessageBundle r c path) d l
             | None => l
             end) l0 entries.
Proof.
  induction entries as [|[[d r] m] entries IH]; intros lists l0 Hnd Hin Hl0; [done|].
  cbn [foldl]. apply IH; [done..|].
  unfold register. destruct (codeString d) as [c|]; [|done].
  unfold onLinterMessageAdded. rewrite addToEditor_fold by done.
  rewrite decide_True by done. cbn. by rewrite Hl0.
Qed.

Lemma foldl_insert_values {K} `{Countable K} {A B} (key : A * B → K) (l : list (A * B)) :
  ∀ (m0 : gmap K A) k a,
    foldl (λ m ab, <[key ab := ab.1]> m) m0 l !! k = Some a →
    m0 !! k = Some a ∨ ∃ b, (a, b) ∈ l ∧ k = key (a, b).
Proof.
  induction l as [|[a' b'] l IH]; intros m0 k a Hk; [by left|].
  cbn [foldl] in Hk. apply IH in Hk as [Hk|(b & Hb & ->)].
  - destruct (decide (key (a', b') = k)) as [<-|Hne].
    + rewrite lookup_insert_eq in Hk. injection Hk as <-.
      right. exists b'. split; [left|done].
    + rewrite lookup_insert_ne in Hk by done. by left.
  - right. exists b. split; [by right|done].
Qed.

Lemma foldl_insert_keys {K} `{Countable K} {A B} (key : A → K) (l : list (A * B)) :
  ∀ (m0 : gmap K B) k b,
    foldl (λ m ab, <[key ab.1 := ab.2]> m) m0 l !! k = Some b →
    m0 !! k = Some b ∨ ∃ a, (a, b) ∈ l ∧ k = key a.
Proof.
  induction l as [|[a' b'] l IH]; intros m0 k b Hk; [by left|].
  cbn [foldl] in Hk. apply IH in Hk as [Hk|(a & Ha & ->)].
  - destruct (decide (key a' = k)) as [<-|Hne].
    + rewrite lookup_insert_eq in Hk. injection Hk as <-.
      right. exists a'. split; [left|done].
    + rewrite lookup_insert_ne in Hk by done. by left.
  - right. exists a. split; [by right|done].
Qed.

Lemma foldl_insert_present {K} `{Countable K} {A B} (key : A → K) (l : list (A * B)) :
  ∀ (m0 : gmap K B) a b,
    (a, b) ∈ l → is_Some (foldl (λ m ab, <[key ab.1 := ab.2]> m) m0 l !! key a).
Proof.
  assert (∀ (l : list (A * B)) (m0 : gmap K B) k,
            is_Some (m0 !! k) →
            is_Some (foldl (λ m ab, <[key ab.1 := ab.2]> m) m0 l !! k)) as Hmono.
  { clear. intros l. induction l as [|[a' b'] l IH]; intros m0 k Hk; [done|].
    cbn [foldl]. apply IH. destruct (decide (key a' = k)) as [<-|Hne].
    - by rewrite lookup_insert_eq.
    - by rewrite lookup_insert_ne. }
  induction l as [|[a' b'] l IH]; intros m0 a b Hin; [by inversion Hin|].
  cbn [foldl]. apply elem_of_cons in Hin as [[= <- <-]|Hin].
  - apply Hmono. by rewrite lookup_insert_eq.
  - by eapply IH.
Qed.

End diagnostics_facts.

Section capture.
Import Diagnostics.

Lemma indexOf_diagnostics path entries :
  map snd (diagnosticByRange (indexOf path entries)) =
    List.filter (λ d, bool_decide (is_Some (codeString d)))
                (map (λ entry, entry.1.1) entries).
Proof.
  unfold indexOf.
  enough (∀ l0, map snd (diagnosticByRange
            (foldl (λ l entry, let '(d, r, m) := entry in
                      match codeString d with
                      | Some c => add (position m) (Build_MessageBundle r c path) d l
                      | None => l
                      end) l0 entries)) =
          map snd (diagnosticByRange l0) ++
          List.filter (λ d, bool_decide (is_Some (codeString d)))
                      (map (λ entry, entry.1.1) entries)) as Hgen by apply Hgen.
  induction entries as [|[[d r] m] entries IH]; intros l0.
  { cbn. by rewrite app_nil_r. }
  cbn [foldl map List.filter fst]. rewrite IH.
  destruct (codeString d) as [c|]; cbn; [|done].
  by rewrite map_app, <- app_assoc.
Qed.

Lemma zip_fst_fst {A B C} (a : list A) (b : list B) (c : list C) :
  length a = length b → length a = length c →
  map (λ entry : A * B * C, entry.1.1) (zip (zip a b) c) = a.
Proof.
  revert b c. induction a as [|x a IH]; intros [|y b] [|z c]; cbn; try done.
  intros [=] [=]. by rewrite IH.
Qed.

(** The identity key reads the message text, the severity, the code
    and the range of a diagnostic, and nothing else. *)
Lemma getDiagnosticKey_fields d1 d2 :
  message d1 = message d2 → severity d1 = severity d2 → code d1 = code d2 →
  range d1 = range d2 → getDiagnosticKey d1 = getDiagnosticKey d2.
Proof. unfold getDiagnosticKey. by intros -> -> -> ->. Qed.

(** C4.  The identity key of a diagnostic is a function of its message
    text, severity, code and range only; and when a batch has been
    captured, capturing the same batch again returns, retains the same
    diagnostics with the same identity keys, fills the key-to-message map
    under the same keys and the key-to-diagnostic map with the same
    entries, while the messages are new objects with the contents of the
    first ones. *)
Theorem diagnostic_keys_stable (env : environment)
    (params : PublishDiagnosticsParams) (st : state) (l1 : locals) (st1 : state) :
  (∀ d1 d2, message d1 = message d2 → severity d1 = severity d2 →
            code d1 = code d2 → range d1 = range d2 →
            getDiagnosticKey d1 = getDiagnosticKey d2) ∧
  (captureDiagnostics env params st = Some (l1, st1) →
   ∃ l2 st2,
     captureDiagnostics env params st1 = Some (l2, st2) ∧
     retainedDiagnostics l2 = retainedDiagnostics l1 ∧
     map getDiagnosticKey (retainedDiagnostics l2) =
       map getDiagnosticKey (retainedDiagnostics l1) ∧
     (∀ k, is_Some (diagnosticMap l2 !! k) ↔ is_Some (diagnosticMap l1 !! k)) ∧
     codeMap l2 = codeMap l1 ∧
     messages l2 = map (λ r, r + length (messages l1)) (messages l1) ∧
     ∀ i r1 r2, messages l1 !! i = Some r1 → messages l2 !! i = Some r2 →
                messageStore st2 !! r2 = messageStore st2 !! r1).
Proof.
  split; [apply getDiagnosticKey_fields|].
  unfold captureDiagnostics. intros Hrun.
  destruct (Uri.uriToPath (plat env) (uri params)) as [path|] eqn:Hpath; [|done].
  cbn [mbind option_bind] in *.
  set (editors := findAllTextEditorsForPath env path) in *.
  pose proof (noteEditor_fold params editors st) as Hnote. cbn zeta in Hnote.
  destruct Hnote as (Hstore & _).
  unfold captureLoop in *.
  destruct (foldl (captureStep env path) _ (diagnostics params))
    as [[la sta]|] eqn:Hloop; [|done].
  cbn in Hrun. injection Hrun as <- <-.
  apply captureLoop_from in Hloop as (msgs & Hmsgs & -> & ->). cbn zeta.
  set (kept := keptDiagnostics env path (diagnostics params)) in *.
  assert (length kept = length msgs) as Hlen by (by eapply length_mapM).
  match goal with
  | |- context [foldl (noteEditor params) ?s editors] =>
      pose proof (noteEditor_fold params editors s) as Hnote2;
      set (stb := foldl (noteEditor params) s editors) in *
  end.
  cbn zeta in Hnote2. destruct Hnote2 as (Hstore2 & _). cbn in Hstore2.
  destruct (captureLoop_returns env path (diagnostics params) noLocals stb)
    as [[lb stc] Hloop2]; [by exists msgs|].
  rewrite Hloop2. cbn.
  apply captureLoop_from in Hloop2 as (msgs2 & Hmsgs2 & -> & ->). cbn zeta.
  fold kept in Hmsgs2 |- *. rewrite Hmsgs in Hmsgs2. injection Hmsgs2 as <-.
  rewrite Hstore2, Hstore.
  eexists _, _. split; [done|]. cbn.
  split; [done|]. split; [done|]. split.
  { intros k. split; intros [r Hr];
      apply (foldl_insert_keys getDiagnosticKey) in Hr
        as [Hr|(d & Hin & ->)]; try (by rewrite lookup_empty in Hr);
      apply elem_of_zip_l, list_elem_of_lookup in Hin as [i Hi];
      match goal with
      | |- context [zip kept (seq ?b ?n)] =>
          destruct (lookup_lt_is_Some_2 (seq b n) i) as [r' Hr'];
          [rewrite length_seq; by eapply lookup_lt_Some|];
          apply (foldl_insert_present getDiagnosticKey _ _ d r');
          apply list_elem_of_lookup; exists i;
          by apply lookup_zip_with_Some; eauto
      end. }
  split; [done|].
  rewrite length_app, length_seq, <- Hlen. split.
  { generalize (length (messageStore st)). generalize (length kept). clear.
    intros n b. rewrite (Nat.add_comm b n), <- (fmap_add_seq n b n).
    apply list_fmap_ext. intros; lia. }
  intros i r1 r2 H1 H2.
  apply lookup_seq in H1 as [-> Hi]. apply lookup_seq in H2 as [-> _].
  rewrite <- app_assoc. rewrite !(lookup_app_r (messageStore st)) by lia.
  rewrite lookup_app_r by lia. rewrite lookup_app_l by lia.
  f_equal; lia.
Qed.

Lemma diagnostic_keys_stable_witness :
  let first := captureDiagnostics exampleEnv exampleParams exampleState in
  ∃ l1 st1 l2 st2,
    first = Some (l1, st1) ∧
    captureDiagnostics exampleEnv exampleParams st1 = Some (l2, st2) ∧
    map getDiagnosticKey (retainedDiagnostics l2) =
      ["unused var:2:W1:[(1, 0) - (1, 5)]"; "bad:1::[(1, 0) - (1, 5)]"] ∧
    messages l1 = [0; 1] ∧ messages l2 = [2; 3].
Proof.
  cbn zeta.
  pose (res := captureDiagnostics exampleEnv exampleParams exampleState).
  assert (captureDiagnostics exampleEnv exampleParams exampleState = res)
    as E by reflexivity.
  assert ((λ x, (retainedDiagnostics x.1, messages x.1)) <$> res
          = Some ([unusedVar; noCode], [0; 1]))
    as Hfacts by (vm_compute; reflexivity).
  clearbody res. destruct res as [[l1 st1]|]; [|discriminate Hfacts].
  cbn in Hfacts. injection Hfacts as Hkept1 Hrefs1.
  destruct (diagnostic_keys_stable exampleEnv exampleParams exampleState l1 st1)
    as [_ H].
  destruct (H E) as (l2 & st2 & Hrun & Hkept & Hkeys & _ & _ & Hrefs & _).
  exists l1, st1, l2, st2. split; [exact E|]. split; [exact Hrun|].
  rewrite Hkeys, Hrefs, Hkept1, Hrefs1. split; [reflexivity|]. split; reflexivity.
Defined.

(** C5, as amended.  When [captureDiagnostics] returns, the retained
    diagnostics are exactly those of the batch the suppression predicate
    does not ignore; each of them, in order, has been made into a lint
    message with its key; these messages and no others are published
    under the path; both key maps hold retained diagnostics only, and
    every retained one has its identity key in the key-to-message map;
    the code-action range is the union of their ranges; and, when an
    intentions index is attached, the index of every open editor of the
    path holds exactly the retained diagnostics that have a code. *)
Theorem captureDiagnostics_retains_and_drops (env : environment)
    (params : PublishDiagnosticsParams) (st : state) (l : locals) (st' : state) :
  captureDiagnostics env params st = Some (l, st') →
  ∃ path msgs,
    Uri.uriToPath (plat env) (uri params) = Some path ∧
    let kept := keptDiagnostics env path (diagnostics params) in
    let refs := seq (length (messageStore st)) (length kept) in
    let editors := findAllTextEditorsForPath env path in
    (∀ d, d ∈ kept ↔ d ∈ diagnostics params ∧ ignored env path d = false) ∧
    mapM (made env path) kept = Some msgs ∧
    messageStore st' = messageStore st ++ msgs ∧
    retainedDiagnostics l = kept ∧ messages l = refs ∧
    _diagnosticMap st' !! path = Some refs ∧
    (∃ saves, Forall (λ e, isOnDidSave e = true) saves ∧
              trace st' = trace st ++ saves ++
                          map (λ i, SetMessages i path refs) (_indies st)) ∧
    _lsDiagnosticMap st' !! path = Some (codeMap l) ∧
    (∀ k d, codeMap l !! k = Some d → d ∈ kept) ∧
    (∀ k r, diagnosticMap l !! k = Some r →
            ∃ d, d ∈ kept ∧ k = getDiagnosticKey d ∧ r ∈ refs) ∧
    (∀ d, d ∈ kept → is_Some (diagnosticMap l !! getDiagnosticKey d)) ∧
    codeActionRange l = foldl unionRange None (map position msgs) ∧
    (NoDup editors →
     ∀ lists, _intentionsManager st = Some lists →
       ∃ lists', _intentionsManager st' = Some lists' ∧
         ∀ e, e ∈ editors →
           default emptyList (lists' !! e) = indexOf path (zip (zip kept refs) msgs) ∧
           map snd (diagnosticByRange (default emptyList (lists' !! e))) =
             List.filter (λ d, bool_decide (is_Some (codeString d))) kept).
Proof.
  unfold captureDiagnostics. intros Hrun.
  destruct (Uri.uriToPath (plat env) (uri params)) as [path|] eqn:Hpath; [|done].
  cbn [mbind option_bind] in Hrun.
  set (editors := findAllTextEditorsForPath env path) in *.
  pose proof (noteEditor_fold params editors st) as Hnote. cbn zeta in Hnote.
  set (st1 := foldl (noteEditor params) st editors) in *.
  destruct Hnote as (Hstore & Hdm & Hlm & Hindies & Hint & saves & Hsaves & Htrace).
  unfold captureLoop in Hrun.
  destruct (foldl (captureStep env path) _ _) as [[l1 st2]|] eqn:Hloop; [|done].
  cbn in Hrun. injection Hrun as <- <-.
  apply captureLoop_from in Hloop as (msgs & Hmsgs & -> & ->). cbn zeta.
  set (kept := keptDiagnostics env path (diagnostics params)) in *.
  rewrite Hstore in *.
  set (refs := seq (length (messageStore st)) (length kept)) in *.
  assert (length kept = length msgs) as Hlen by (by eapply length_mapM).
  exists path, msgs. cbn.
  split; [done|]. split.
  { intros d. unfold kept, keptDiagnostics.
    rewrite list_elem_of_In, filter_In, negb_true_iff, <- list_elem_of_In. tauto. }
  split; [done|]. split; [done|]. split; [done|]. split; [done|].
  split; [by rewrite lookup_insert_eq|]. split.
  { exists saves. split; [done|]. by rewrite Htrace, Hindies, <- app_assoc. }
  split; [by rewrite lookup_insert_eq|]. split.
  { intros k d Hk.
    apply (foldl_insert_values (λ dm, keyOf dm.2)) in Hk as [Hk|(m & Hin & _)].
    - by rewrite lookup_empty in Hk.
    - by apply elem_of_zip_l in Hin. }
  split.
  { intros k r Hk.
    apply (foldl_insert_keys getDiagnosticKey) in Hk as [Hk|(d & Hin & ->)].
    - by rewrite lookup_empty in Hk.
    - exists d. split; [by apply elem_of_zip_l in Hin|].
      split; [done|]. by apply elem_of_zip_r in Hin. }
  split.
  { intros d Hd. apply list_elem_of_lookup in Hd as [i Hi].
    destruct (lookup_lt_is_Some_2 refs i) as [r Hr].
    { unfold refs. rewrite length_seq. by eapply lookup_lt_Some. }
    apply (foldl_insert_present getDiagnosticKey _ _ d r).
    apply list_elem_of_lookup. exists i. by apply lookup_zip_with_Some; eauto. }
  split; [done|].
  intros Hnd lists Hlists. rewrite Hint, Hlists. cbn.
  eexists. split; [done|]. intros e He.
  assert (default emptyList
            (foldl (register env path)
               (foldl (λ ls e0, clearLinterIntentions e0 ls) lists editors)
               (zip (zip kept refs) msgs) !! e) =
          indexOf path (zip (zip kept refs) msgs)) as Hindex.
  { apply register_fold; [done..|]. by apply cleared_lookup. }
  split; [done|]. rewrite Hindex, indexOf_diagnostics, zip_fst_fst; [done| |done].
  unfold refs. by rewrite length_seq.
Qed.

Lemma captureDiagnostics_retains_and_drops_witness :
  ∃ l st',
    captureDiagnostics exampleEnv exampleParams exampleState = Some (l, st') ∧
    retainedDiagnostics l = [unusedVar; noCode] ∧
    _diagnosticMap st' !! "/proj/src/a.ts" = Some [0; 1] ∧
    map snd (diagnosticByRange
               (default emptyList (_intentionsManager st' ≫= (.!! 4)))) = [unusedVar].
Proof.
  pose (res := captureDiagnostics exampleEnv exampleParams exampleState).
  assert (captureDiagnostics exampleEnv exampleParams exampleState = res)
    as E by reflexivity.
  assert ((λ _, tt) <$> res = Some tt) as Hres by (vm_compute; reflexivity).
  clearbody res. destruct res as [[l st']|]; [|discriminate Hres]. clear Hres.
  exists l, st'. split; [exact E|].
  destruct (captureDiagnostics_retains_and_drops _ _ _ _ _ E)
    as (path & msgs & Hpath & _ & _ & _ & Hkept & _ & Hpub & _ & _ & _ & _ & _ & _ & Hidx).
  vm_compute in Hpath. injection Hpath as <-.
  split; [by rewrite Hkept|]. split; [by rewrite Hpub|].
  assert (NoDup (findAllTextEditorsForPath exampleEnv "/proj/src/a.ts")) as Hnd
    by (vm_compute; apply NoDup_singleton).
  destruct (Hidx Hnd ∅) as (lists' & Hl & Hin); [done|].
  rewrite Hl. cbn. destruct (Hin 4) as [_ ->]; [|done].
  vm_compute. apply list_elem_of_here.
Defined.

(** C5 as stated fails for a retained diagnostic without a code: it is
    published, and no intention is registered for it although an index is
    attached and an editor is open on the file. *)
Lemma retained_without_code_not_registered :
  ∃ l st',
    captureDiagnostics exampleEnv exampleParams exampleState = Some (l, st') ∧
    ignored exampleEnv "/proj/src/a.ts" noCode = false ∧
    noCode ∈ retainedDiagnostics l ∧
    1 ∈ default [] (_diagnosticMap st' !! "/proj/src/a.ts") ∧
    excerpt <$> messageStore st' !! 1 = Some "bad" ∧
    ∀ e lists, _intentionsManager st' = Some lists →
               noCode ∉ map snd (diagnosticByRange (default emptyList (lists !! e))).
Proof.
  pose (res := captureDiagnostics exampleEnv exampleParams exampleState).
  assert (captureDiagnostics exampleEnv exampleParams exampleState = res)
    as E by reflexivity.
  assert ((λ x, (bool_decide (noCode ∈ retainedDiagnostics x.1),
                 bool_decide (1 ∈ default [] (_diagnosticMap x.2 !! "/proj/src/a.ts")),
                 excerpt <$> messageStore x.2 !! 1,
                 match _intentionsManager x.2 with
                 | Some lists =>
                     bool_decide
                       (map_Forall
                          (λ _ idx, noCode ∉ map snd (diagnosticByRange idx)) lists)
                 | None => true
                 end)) <$> res
          = Some (true, true, Some "bad", true))
    as Hfacts by (vm_compute; reflexivity).
  clearbody res. destruct res as [[l st']|]; [|discriminate Hfacts].
  cbn [fmap option_fmap option_map fst snd] in Hfacts.
  injection Hfacts as Hkept Hpub Hstore Hlists.
  exists l, st'. split; [exact E|]. split; [reflexivity|].
  split; [by apply bool_decide_eq_true in Hkept|].
  split; [by apply bool_decide_eq_true in Hpub|].
  split; [exact Hstore|]. intros e lists Hmanager. rewrite Hmanager in Hlists.
  apply bool_decide_eq_true in Hlists. specialize (Hlists e).
  destruct (lists !! e) as [idx|]; cbn; [by apply Hlists|by inversion 1].
Qed.

End capture.

(* ------------------------------------------------------------------ *)
(** ** Applying a workspace edit *)
(* ------------------------------------------------------------------ *)

Section applyedit_facts.
Import ApplyEdit.
Context {FS Text : Type} `{!FileSystem FS} `{!TextModel FS Text}.
Variable plat : Uri.platform.

Implicit Types (b : TextBuffer Text) (w : world FS Text)
         (stack top above below : list (entry Text)).

(** *** The undo stack *)

Lemma sinceCheckpoint_absent c stack :
  c ∉ checkpointIds stack → sinceCheckpoint c stack = None.
Proof.
  induction stack as [|[id|before] stack IH]; intros Hc; [done| |].
  - cbn in *. apply not_elem_of_cons in Hc as [Hne Hc].
    destruct (decide (id = c)); [congruence|]. by rewrite IH.
  - cbn in *. by rewrite IH.
Qed.

Lemma sinceCheckpoint_transactions c top stack :
  Forall (λ e, isTransaction e = true) top →
  sinceCheckpoint c (top ++ stack) =
    (λ ab, (top ++ ab.1, ab.2)) <$> sinceCheckpoint c stack.
Proof.
  induction 1 as [|[id|before] top Ht _ IH]; cbn.
  - by destruct (sinceCheckpoint c stack) as [[]|].
  - done.
  - rewrite IH. by destruct (sinceCheckpoint c stack) as [[]|].
Qed.

Lemma checkpointIds_transactions top stack :
  Forall (λ e, isTransaction e = true) top →
  checkpointIds (top ++ stack) = checkpointIds stack.
Proof. induction 1 as [|[id|before] top Ht _ IH]; cbn; done. Qed.

Lemma existsb_transactions top :
  Forall (λ e, isTransaction e = true) top →
  existsb isTransaction top = false → top = [].
Proof. destruct 1 as [|e top He _]; cbn; [done|]. by rewrite He. Qed.

(** Reverting to the first checkpoint of a buffer, then to the later
    ones: the later ones are gone with the first. *)
Lemma revert_first b first more above below :
  sinceCheckpoint first (undoStack b) = Some (above, below) →
  Forall (λ id, id < first) (checkpointIds below) →
  Forall (λ id, first < id) more →
  foldl (λ b c, (revertToCheckpoint c b).2) b (first :: more) =
    Buffer (getPath b) (foldl undo (text b) above) below (nextCheckpointId b).
Proof.
  intros Hsince Hbelow Hmore. cbn [foldl].
  unfold revertToCheckpoint at 2. rewrite Hsince. cbn [snd].
  induction Hmore as [|c more Hc _ IH]; [done|].
  cbn [foldl]. unfold revertToCheckpoint at 2. cbn [undoStack].
  rewrite sinceCheckpoint_absent; [exact IH|].
  intros Hin. eapply Forall_forall in Hbelow; [|exact Hin]. lia.
Qed.

(** *** [applyEdits] *)

Lemma applySorted_stack edits : ∀ marked made previous b r b',
  applySorted marked made previous edits b = (r, b') →
  ∃ top,
    undoStack b' = top ++ undoStack b ∧
    Forall (λ e, isTransaction e = true) top ∧
    foldl undo (text b') top = text b ∧
    nextCheckpointId b' = nextCheckpointId b ∧ getPath b' = getPath b.
Proof.
  induction edits as [|current rest IH]; intros marked made previous b r b' Hrun.
  { injection Hrun as <- <-. by exists []. }
  cbn [applySorted] in Hrun.
  destruct (validateEdit b current previous) as [msg|].
  { injection Hrun as <- <-. by exists []. }
  apply IH in Hrun as (top & Hstack & Htop & Htext & Hnext & Hpath).
  cbn in Hstack, Hnext, Hpath.
  exists (top ++ [Transaction (text b)]). split_and!.
  - by rewrite Hstack, <- app_assoc.
  - apply Forall_app. split; [done|]. by apply Forall_singleton.
  - by rewrite foldl_app.
  - done.
  - done.
Qed.

Lemma findOrCreateMarkerLayerForEditor_frame editor w :
  fs (findOrCreateMarkerLayerForEditor editor w) = fs w ∧
  buffers (findOrCreateMarkerLayerForEditor editor w) = buffers w ∧
  notifications (findOrCreateMarkerLayerForEditor editor w) = notifications w.
Proof. unfold findOrCreateMarkerLayerForEditor. by destruct (decide _). Qed.

(** [applyEdits] leaves the checkpoint it returns on the stack, above the
    stack it found, with changes that undo to the text it found; when it
    throws, the buffer is as it found it. *)
Lemma applyEdits_buffer editor b edits w r w' :
  applyEdits editor b edits w = (r, w') →
  fs w' = fs w ∧ notifications w' = notifications w ∧
  ∃ b',
    buffers w' = <[editor := b']> (buffers w) ∧
    match r with
    | Returned c =>
        c = nextCheckpointId b ∧ nextCheckpointId b' = S c ∧
        ∃ top,
          undoStack b' = top ++ Checkpoint c :: undoStack b ∧
          Forall (λ e, isTransaction e = true) top ∧
          foldl undo (text b') top = text b
    | Thrown _ =>
        b' = Buffer (getPath b) (text b) (undoStack b) (S (nextCheckpointId b))
    end.
Proof.
  unfold applyEdits, createCheckpoint. intros Hrun.
  destruct (findOrCreateMarkerLayerForEditor_frame editor w) as (Hfs & Hbs & Hns).
  destruct (applySorted _ _ _ _ _) as [[[]|msg] b1] eqn:Hsorted;
    apply applySorted_stack in Hsorted as (top & Hstack & Htop & Htext & Hnext & Hpath);
    cbn in Hstack, Htext, Hnext, Hpath; injection Hrun as <- <-; cbn;
    (split; [done|]); (split; [done|]); eexists; (split; [by rewrite Hbs|]).
  - unfold groupChangesSinceCheckpoint.
    rewrite Hstack, sinceCheckpoint_transactions by done. cbn.
    destruct (decide _) as [_|]; [|done]. cbn. rewrite app_nil_r.
    split; [done|].
    destruct (existsb isTransaction top) eqn:Hany; cbn.
    + split; [done|]. exists [Transaction (foldl undo (text b1) top)].
      split; [done|]. split; [by apply Forall_singleton|]. by rewrite Htext.
    + split; [done|]. exists top. done.
  - unfold revertToCheckpoint.
    rewrite Hstack, sinceCheckpoint_transactions by done. cbn.
    destruct (decide _) as [_|]; [|done]. cbn. rewrite app_nil_r.
    by rewrite Htext, Hpath, Hnext.
Qed.

(** *** The checkpoints of a buffer *)

Lemma checkpointsOf_snoc path cps c :
  checkpointsOf path (cps ++ [(path, c)]) = checkpointsOf path cps ++ [c].
Proof.
  unfold checkpointsOf. rewrite List.filter_app, map_app. cbn.
  by rewrite bool_decide_eq_true_2.
Qed.

Lemma checkpointsOf_snoc_ne path other cps c :
  other ≠ path →
  checkpointsOf path (cps ++ [(other, c)]) = checkpointsOf path cps.
Proof.
  intros Hne. unfold checkpointsOf. rewrite List.filter_app, map_app. cbn.
  rewrite bool_decide_eq_false_2 by done. cbn. by rewrite app_nil_r.
Qed.

(** *** The invariant *)

Lemma invariant_initial w :
  map_Forall (λ _ b, wfBuffer b) (buffers w) → invariant w [] w.
Proof.
  intros Hwf path. destruct (buffers w !! path) as [b|] eqn:Hb; [|done].
  split; [by eapply Hwf|]. exists (text b). unfold original. by rewrite Hb.
Qed.

Lemma invariant_setFs w0 cps w fs' :
  invariant w0 cps w → invariant w0 cps (setFs fs' w).
Proof. done. Qed.

(** Opening an editor: the buffer of the path, which is new when there
    was none. *)
Lemma workspace_open_invariant w0 cps path w r w' :
  invariant w0 cps w →
  workspace_open path w = (r, w') →
  fs w' = fs w ∧ notifications w' = notifications w ∧ invariant w0 cps w' ∧
  match r with
  | Resolved b => buffers w' !! path = Some b
  | Rejected _ => w' = w
  end.
Proof.
  intros Hinv. unfold workspace_open.
  destruct (buffers w !! path) as [b|] eqn:Hb.
  { intros [= <- <-]. done. }
  destruct (loadText (fs w) path) as [t|reason] eqn:Hload;
    intros [= <- <-]; [|done].
  split; [done|]. split; [done|]. split; [|by apply lookup_insert_eq].
  intros q. cbn. destruct (decide (q = path)) as [->|Hne].
  - rewrite lookup_insert_eq. specialize (Hinv path). rewrite Hb in Hinv.
    destruct Hinv as [Hnone Hcps]. split; [by apply Forall_nil|].
    exists t. rewrite Hcps. split; [|done].
    unfold original. rewrite Hnone. by exists (fs w).
  - rewrite lookup_insert_ne by done. apply Hinv.
Qed.

(** [applyEdits] on the buffer of an open editor. *)
Lemma applyEdits_invariant w0 cps path b edits w r w' :
  invariant w0 cps w →
  buffers w !! path = Some b →
  applyEdits path b edits w = (r, w') →
  invariant w0 (cps ++ match r with Returned c => [(path, c)] | Thrown _ => [] end) w'.
Proof.
  intros Hinv Hb Hrun.
  apply applyEdits_buffer in Hrun as (_ & _ & b' & Hbs & Hr).
  intros q. rewrite Hbs. destruct (decide (q = path)) as [->|Hne].
  2:{ rewrite lookup_insert_ne by done. specialize (Hinv q).
      destruct r; [by rewrite checkpointsOf_snoc_ne|by rewrite app_nil_r]. }
  rewrite lookup_insert_eq. specialize (Hinv path). rewrite Hb in Hinv.
  destruct Hinv as (Hwf & t0 & Horig & Hcps).
  destruct r as [c|msg].
  - destruct Hr as (-> & Hnext & top & Hstack & Htop & Htext).
    split.
    { unfold wfBuffer. rewrite Hstack, checkpointIds_transactions, Hnext by done.
      cbn. apply Forall_cons. split; [lia|].
      eapply Forall_impl; [exact Hwf|]. cbn. lia. }
    exists t0. split; [done|]. rewrite checkpointsOf_snoc.
    destruct (checkpointsOf path cps) as [|first more]; cbn.
    + exists top, (undoStack b). rewrite Hstack, sinceCheckpoint_transactions by done.
      cbn. destruct (decide _) as [_|]; [|done]. cbn. rewrite app_nil_r.
      split; [done|]. split; [congruence|]. split; [exact Hwf|].
      split; [done|]. lia.
    + destruct Hcps as (above & below & Hsince & Hundo & Hbelow & Hmore & Hlt).
      exists (top ++ Checkpoint (nextCheckpointId b) :: above), below.
      rewrite Hstack, sinceCheckpoint_transactions by done. cbn.
      destruct (decide _) as [Heq|_]; [lia|]. rewrite Hsince. cbn.
      split; [done|]. split; [by rewrite foldl_app, Htext|].
      split; [done|]. split; [|lia].
      apply Forall_app. split; [done|]. by apply Forall_singleton.
  - subst b'. rewrite app_nil_r. split.
    { unfold wfBuffer. cbn. eapply Forall_impl; [exact Hwf|]. cbn. lia. }
    exists t0. split; [done|].
    destruct (checkpointsOf path cps) as [|first more]; [done|].
    destruct Hcps as (above & below & Hsince & Hundo & Hbelow & Hmore & Hlt).
    exists above, below. cbn. split_and!; try done. lia.
Qed.

(** One promise settles. *)
Lemma settle_invariant w0 cps edit w r w' :
  invariant w0 cps w →
  settle plat edit w = (r, w') →
  invariant w0 (cps ++ match r with
                       | Resolved pushed => option_list pushed
                       | Rejected _ => []
                       end) w' ∧
  notifications w' = notifications w ∧
  fs w' = (handleResourceOperation plat edit (fs w)).2 ∧
  match r with
  | Resolved pushed => fst <$> pushed = editedPath plat edit
  | Rejected _ => True
  end.
Proof.
  intros Hinv Hrun.
  assert (∀ fs' r',
            handleResourceOperation plat edit (fs w) = (r', fs') →
            editedPath plat edit = None →
            (r, w') = (match r' with
                       | Rejected reason =>
                           Rejected ("Error during " +:+ kind edit
                                     +:+ " resource operation: " +:+ reason)
                       | Resolved _ => Resolved None
                       end, setFs fs' w) →
            invariant w0 (cps ++ match r with
                                 | Resolved pushed => option_list pushed
                                 | Rejected _ => []
                                 end) w' ∧
            notifications w' = notifications w ∧
            fs w' = (handleResourceOperation plat edit (fs w)).2 ∧
            match r with
            | Resolved pushed => fst <$> pushed = editedPath plat edit
            | Rejected _ => True
            end) as Hresource.
  { intros fs' r' Hop Hnone Heq. rewrite Hop, Hnone.
    destruct r'; injection Heq as -> ->; rewrite app_nil_r; done. }
  destruct edit as [uri edits|uri options|oldUri newUri options|uri options].
  2-4: cbn [settle] in Hrun;
       destruct (handleResourceOperation plat _ (fs w)) as [r' fs'] eqn:Hop;
       eapply (Hresource fs' r'); [done|done|];
       by destruct r'.
  clear Hresource. cbn [settle handleResourceOperation editedPath snd] in *.
  destruct (Uri.uriToPath plat uri) as [path|] eqn:Hpath.
  2:{ injection Hrun as <- <-. by rewrite app_nil_r. }
  destruct (workspace_open path w) as [[b|reason] w1] eqn:Hopen;
    apply (workspace_open_invariant w0 cps) in Hopen as (Hfs1 & Hns1 & Hinv1 & Hb);
    [|done| |done].
  2:{ injection Hrun as <- <-. subst w1. by rewrite app_nil_r. }
  destruct (applyEdits path b _ w1) as [[c|msg] w2] eqn:Happly;
    pose proof (applyEdits_invariant w0 cps path b _ w1 _ _ Hinv1 Hb Happly) as Hinv2;
    apply applyEdits_buffer in Happly as (Hfs2 & Hns2 & _);
    injection Hrun as <- <-; (split; [exact Hinv2|]);
    (split; [congruence|]); (split; [congruence|]); done.
Qed.

(** The promises up to the first that rejects. *)
Lemma settleAll_rejected edits : ∀ cps w reason cps' w2,
  settleAll plat edits cps w = (Some reason, cps', w2) →
  ∃ performed failed pending w1,
    edits = performed ++ failed :: pending ∧
    settleAll plat performed cps w = (None, cps', w1) ∧
    settle plat failed w1 = (Rejected reason, w2).
Proof.
  induction edits as [|edit rest IH]; intros cps w reason cps' w2 Hrun; [done|].
  cbn [settleAll] in Hrun.
  destruct (settle plat edit w) as [[pushed|reason'] w1] eqn:Hsettle.
  - apply IH in Hrun as (performed & failed & pending & w1' & -> & Hall & Hfail).
    exists (edit :: performed), failed, pending, w1'.
    split; [done|]. split; [|done]. cbn [settleAll]. by rewrite Hsettle.
  - injection Hrun as <- <- <-. by exists [], edit, rest, w.
Qed.

Lemma settleAll_resolved edits : ∀ w0 cps w cps' w1,
  invariant w0 cps w →
  settleAll plat edits cps w = (None, cps', w1) →
  invariant w0 cps' w1 ∧
  notifications w1 = notifications w ∧
  fs w1 = resourceEffects plat edits (fs w) ∧
  map fst cps' = map fst cps ++ omap (editedPath plat) edits.
Proof.
  induction edits as [|edit rest IH]; intros w0 cps w cps' w1 Hinv Hrun.
  { injection Hrun as <- <-. by rewrite app_nil_r. }
  cbn [settleAll] in Hrun.
  destruct (settle plat edit w) as [[pushed|reason'] w'] eqn:Hsettle; [|done].
  apply (settle_invariant w0 cps) in Hsettle as (Hinv' & Hns & Hfs & Hpushed); [|done].
  apply (IH w0) in Hrun as (Hinv1 & Hns1 & Hfs1 & Hcps); [|done].
  split; [done|]. split; [congruence|]. split.
  { unfold resourceEffects in *. cbn [foldl]. by rewrite Hfs1, Hfs. }
  rewrite Hcps, map_app, <- app_assoc. f_equal. cbn [omap list_omap].
  rewrite <- Hpushed. by destruct pushed.
Qed.

(** *** The handler of the rejection *)

Lemma revertAll_frame cps : ∀ w,
  fs (revertAll cps w) = fs w ∧ notifications (revertAll cps w) = notifications w.
Proof.
  induction cps as [|bc cps IH]; intros w; [done|].
  unfold revertAll in *. cbn [foldl].
  match goal with |- context [foldl _ ?w1 cps] => by destruct (IH w1) as [-> ->] end.
Qed.

Lemma revertAll_lookup path cps : ∀ w,
  buffers (revertAll cps w) !! path =
    (λ b, foldl (λ b c, (revertToCheckpoint c b).2) b (checkpointsOf path cps))
      <$> buffers w !! path.
Proof.
  induction cps as [|[q c] cps IH]; intros w.
  { cbn. by destruct (buffers w !! path). }
  unfold revertAll in *. cbn [foldl]. rewrite IH. cbn [buffers setBuffers fst snd].
  unfold checkpointsOf. cbn [List.filter fst].
  destruct (decide (q = path)) as [->|Hne].
  - rewrite bool_decide_eq_true_2 by done. rewrite lookup_alter_eq.
    by destruct (buffers w !! path).
  - rewrite bool_decide_eq_false_2 by done. by rewrite lookup_alter_ne.
Qed.

(** C6.  When applying a workspace edit fails, [apply] resolves with
    [applied = false] after one error notification; the promises that
    settled before the failure were performed, each text document edit
    among them with a checkpoint; every buffer with a checkpoint is
    reverted to its first one, and every buffer has the text it had at the
    call (or was opened with); the file system is as the performed
    resource operations and the failed one left it: the handler does not
    touch it. *)
Theorem apply_failure_reverts_text_only (workspaceEdit : WorkspaceEdit)
    (order : list nat) (w w' : world FS Text) :
  map_Forall (λ _ b, wfBuffer b) (buffers w) →
  apply plat workspaceEdit order w = (false, w') →
  ∃ performed failed pending reason checkpoints w1 w2,
    omap (λ i, normalize workspaceEdit !! i) order
      = performed ++ failed :: pending ∧
    settleAll plat performed [] w = (None, checkpoints, w1) ∧
    settle plat failed w1 = (Rejected reason, w2) ∧
    map fst checkpoints = omap (editedPath plat) performed ∧
    notifications w' =
      notifications w ++ [mkNotification "workspace/applyEdits failed"
                                         "Failed to apply edits." reason] ∧
    (∀ path first,
       head (checkpointsOf path checkpoints) = Some first →
       ∃ b2, buffers w2 !! path = Some b2 ∧
             (revertToCheckpoint first b2).1 = true ∧
             buffers w' !! path = Some (revertToCheckpoint first b2).2) ∧
    (∀ path b', buffers w' !! path = Some b' → original w path (text b')) ∧
    (∀ path, is_Some (buffers w !! path) → is_Some (buffers w' !! path)) ∧
    fs w' = fs w2 ∧
    fs w2 = resourceEffects plat (performed ++ [failed]) (fs w).
Proof.
  intros Hwf. unfold apply.
  destruct (settleAll plat _ [] w) as [[[reason|] checkpoints] w2] eqn:Hrun; [|done].
  intros [= <-].
  apply settleAll_rejected in Hrun
    as (performed & failed & pending & w1 & Horder & Hdone & Hfail).
  exists performed, failed, pending, reason, checkpoints, w1, w2.
  pose proof (settleAll_resolved _ w _ _ _ _ (invariant_initial w Hwf) Hdone)
    as (Hinv1 & Hns1 & Hfs1 & Hcps).
  pose proof (settle_invariant w _ _ _ _ _ Hinv1 Hfail) as (Hinv2 & Hns2 & Hfs2 & _).
  rewrite app_nil_r in Hinv2.
  destruct (revertAll_frame checkpoints
              (addError "workspace/applyEdits failed" "Failed to apply edits."
                        reason w2)) as [Hfs' Hns'].
  split; [done|]. split; [done|]. split; [done|]. split; [done|].
  split; [rewrite Hns'; cbn; congruence|].
  assert (∀ path,
            match buffers w2 !! path with
            | None => buffers w !! path = None
            | Some b2 =>
                ∃ b', buffers (revertAll checkpoints
                                 (addError "workspace/applyEdits failed"
                                           "Failed to apply edits." reason w2))
                        !! path = Some b' ∧
                      original w path (text b') ∧
                      ∀ first, head (checkpointsOf path checkpoints) = Some first →
                               revertToCheckpoint first b2 = (true, b')
            end) as Hall.
  { intros path. specialize (Hinv2 path). rewrite revertAll_lookup. cbn [buffers addError].
    destruct (buffers w2 !! path) as [b2|]; [|by destruct Hinv2].
    destruct Hinv2 as (_ & t0 & Horig & Hcase). eexists. split; [done|].
    destruct (checkpointsOf path checkpoints) as [|first more].
    - cbn. split; [by rewrite Hcase|done].
    - destruct Hcase as (above & below & Hsince & Hundo & Hbelow & Hmore & _).
      rewrite (revert_first b2 first more above below) by done. cbn [text].
      split; [by rewrite Hundo|]. intros ? [= <-].
      unfold revertToCheckpoint. by rewrite Hsince. }
  split.
  { intros path first Hfirst. specialize (Hall path). specialize (Hinv2 path).
    destruct (buffers w2 !! path) as [b2|].
    - destruct Hall as (b' & Hb' & _ & Hrevert). exists b2.
      rewrite (Hrevert first Hfirst). done.
    - destruct Hinv2 as [_ Hnone]. by rewrite Hnone in Hfirst. }
  split.
  { intros path b' Hb'. specialize (Hall path).
    destruct (buffers w2 !! path) as [b2|] eqn:Hb2.
    - destruct Hall as (b'' & Hb'' & Horig & _). congruence.
    - rewrite revertAll_lookup in Hb'. cbn [buffers addError] in Hb'.
      by rewrite Hb2 in Hb'. }
  split.
  { intros path [b Hb]. specialize (Hall path).
    destruct (buffers w2 !! path) as [b2|]; [|congruence].
    destruct Hall as (b' & Hb' & _). by exists b'. }
  split; [done|].
  unfold resourceEffects in *. by rewrite foldl_app, <- Hfs1.
Qed.

End applyedit_facts.

Lemma apply_failure_reverts_text_only_witness :
  ∃ w',
    ApplyEdit.apply Uri.posix ApplyEdit.exampleEdit [0; 1; 2] ApplyEdit.exampleWorld
      = (false, w') ∧
    ApplyEdit.text <$> ApplyEdit.buffers w' !! "/proj/a.ts"
      = Some ApplyEdit.exampleText ∧
    ApplyEdit.fs w' !! "/proj/new.ts" = Some (ApplyEdit.File "") ∧
    ApplyEdit.fs ApplyEdit.exampleWorld !! "/proj/new.ts" = None ∧
    map ApplyEdit.detail (ApplyEdit.notifications w')
      = ["Error during delete resource operation: Target doesn't exist."].
Proof.
  pose (res := ApplyEdit.apply Uri.posix ApplyEdit.exampleEdit [0; 1; 2]
                 ApplyEdit.exampleWorld).
  assert (ApplyEdit.apply Uri.posix ApplyEdit.exampleEdit [0; 1; 2]
            ApplyEdit.exampleWorld = res) as E by reflexivity.
  assert ((res.1, ApplyEdit.fs res.2 !! "/proj/new.ts",
           map ApplyEdit.detail (ApplyEdit.notifications res.2))
          = (false, Some (ApplyEdit.File ""),
             ["Error during delete resource operation: Target doesn't exist."]))
    as Hfacts by (vm_compute; reflexivity).
  clearbody res. destruct res as [applied w']. cbn [fst snd] in Hfacts.
  injection Hfacts as -> Hfs Hns.
  exists w'. split; [exact E|].
  destruct (apply_failure_reverts_text_only Uri.posix ApplyEdit.exampleEdit
              [0; 1; 2] ApplyEdit.exampleWorld w')
    as (performed & failed & pending & reason & cps & w1 & w2 & _ & _ & _ & _
        & _ & _ & Horig & Hdom & _).
  { apply map_Forall_insert_2; [by apply Forall_nil|apply map_Forall_empty]. }
  { exact E. }
  split.
  { destruct (Hdom "/proj/a.ts") as [b' Hb']; [by eexists|].
    rewrite Hb'. cbn. f_equal. by apply (Horig _ _ Hb'). }
  split; [exact Hfs|]. split; [reflexivity|exact Hns].
Defined.

(** The second edit of the example is applied first, and the buffer shows
    both while no promise has rejected. *)
Lemma applyEdits_example :
  ∃ w',
    ApplyEdit.settle Uri.posix
      (ApplyEdit.TextDocumentEdit "file:///proj/a.ts"
         [Lsp.mkTextEdit (ApplyEdit.lsRange 0 4 0 5) "y";
          Lsp.mkTextEdit (ApplyEdit.lsRange 1 0 1 0) "// ok"])
      ApplyEdit.exampleWorld
      = (Resolved (Some ("/proj/a.ts", 0)), w') ∧
    ApplyEdit.text <$> ApplyEdit.buffers w' !! "/proj/a.ts"
      = Some (String.append "let y = 1" (String ApplyEdit.newline "// okx")).
Proof.
  pose (res := ApplyEdit.settle Uri.posix
                 (ApplyEdit.TextDocumentEdit "file:///proj/a.ts"
                    [Lsp.mkTextEdit (ApplyEdit.lsRange 0 4 0 5) "y";
                     Lsp.mkTextEdit (ApplyEdit.lsRange 1 0 1 0) "// ok"])
                 ApplyEdit.exampleWorld).
  assert (ApplyEdit.settle Uri.posix
            (ApplyEdit.TextDocumentEdit "file:///proj/a.ts"
               [Lsp.mkTextEdit (ApplyEdit.lsRange 0 4 0 5) "y";
                Lsp.mkTextEdit (ApplyEdit.lsRange 1 0 1 0) "// ok"])
            ApplyEdit.exampleWorld = res) as E by reflexivity.
  assert ((res.1, ApplyEdit.text <$> ApplyEdit.buffers res.2 !! "/proj/a.ts")
          = (Resolved (Some ("/proj/a.ts", 0)),
             Some (String.append "let y = 1" (String ApplyEdit.newline "// okx"))))
    as Hfacts by (vm_compute; reflexivity).
  clearbody res. destruct res as [r w']. cbn [fst snd] in Hfacts.
  injection Hfacts as -> Htext.
  exists w'. split; [exact E|exact Htext].
Qed.
(* ------------------------------------------------------------------ *)
(** ** Selectors of grammar scopes *)
(* ------------------------------------------------------------------ *)

Section scopes_facts.
Import Scopes.

Lemma occurrences_app c s t :
  occurrences c (s +:+ t) = occurrences c s + occurrences c t.
Proof.
  induction s as [|x s IH]; [done|].
  change (String x s +:+ t) with (String x (s +:+ t)).
  cbn [occurrences]. rewrite IH. lia.
Qed.

Ltac by_char c :=
  unfold encodeChar in *;
  destruct (Ascii.eqb_spec c "&") as [-> | ?]; [|
  destruct (Ascii.eqb_spec c "<") as [-> | ?]; [|
  destruct (Ascii.eqb_spec c ">") as [-> | ?]; [|
  destruct (Ascii.eqb_spec c quot) as [-> | ?]; [|
  destruct (Ascii.eqb_spec c "'") as [-> | ?]]]]].

Lemma encodeChar_occurrences c x :
  x = quot ∨ x = "'"%char ∨ x = "<"%char ∨ x = ">"%char →
  occurrences x (encodeChar c) = 0.
Proof.
  intros Hx. by_char c; cbn;
    try (destruct Hx as [-> | [-> | [-> | ->]]]; reflexivity).
  destruct (Ascii.eqb_spec c x) as [->|]; [|done].
  destruct Hx as [-> | [-> | [-> | ->]]]; congruence.
Qed.

Lemma encodeHTMLAttribute_safe_any s x :
  x = quot ∨ x = "'"%char ∨ x = "<"%char ∨ x = ">"%char →
  occurrences x (encodeHTMLAttribute s) = 0.
Proof.
  intros Hx. induction s as [|c s IH]; [done|].
  cbn [encodeHTMLAttribute]. by rewrite occurrences_app, IH, encodeChar_occurrences.
Qed.

(** X1.  The encoded string has no double quote, no apostrophe and no angle
    bracket, whatever the string; and a string without these and without
    an ampersand is its own encoding. *)
Theorem encodeHTMLAttribute_safe (s : string) :
  (∀ x, x = quot ∨ x = "'"%char ∨ x = "<"%char ∨ x = ">"%char →
        occurrences x (encodeHTMLAttribute s) = 0) ∧
  ((∀ x, x = quot ∨ x = "'"%char ∨ x = "<"%char ∨ x = ">"%char ∨ x = "&"%char →
         occurrences x s = 0) →
   encodeHTMLAttribute s = s).
Proof.
  split; [intros x; apply encodeHTMLAttribute_safe_any|].
  induction s as [|c s IH]; intros Hnone; [done|].
  cbn [encodeHTMLAttribute].
  assert (∀ x, x = quot ∨ x = "'"%char ∨ x = "<"%char ∨ x = ">"%char
               ∨ x = "&"%char → c ≠ x ∧ occurrences x s = 0) as Hc.
  { intros x Hx. specialize (Hnone x Hx). cbn in Hnone.
    destruct (Ascii.eqb_spec c x); [done|]. done. }
  rewrite IH by (intros x Hx; by apply Hc).
  assert (∀ x, x = quot ∨ x = "'"%char ∨ x = "<"%char ∨ x = ">"%char
               ∨ x = "&"%char → c ≠ x) as Hne by (intros x Hx; by apply Hc).
  clear Hc Hnone IH.
  by_char c; try done; exfalso; (eapply Hne; [|reflexivity]); tauto.
Qed.

Lemma encodeHTMLAttribute_safe_witness :
  occurrences quot (encodeHTMLAttribute (String quot "<b>")) = 0 ∧
  encodeHTMLAttribute "source js" = "source js".
Proof.
  split.
  - apply (proj1 (encodeHTMLAttribute_safe (String quot "<b>"))). by left.
  - apply (proj2 (encodeHTMLAttribute_safe "source js")).
    intros x [-> | [-> | [-> | [-> | ->]]]]; reflexivity.
Defined.

(** X2.  Two strings with the same encoding are the same string. *)
Theorem encodeHTMLAttribute_injective (s1 s2 : string) :
  encodeHTMLAttribute s1 = encodeHTMLAttribute s2 → s1 = s2.
Proof.
  revert s2. induction s1 as [|c1 s1 IH]; intros [|c2 s2] Heq; [done| | |].
  - cbn [encodeHTMLAttribute] in Heq. by_char c2; cbn in Heq; discriminate.
  - cbn [encodeHTMLAttribute] in Heq. by_char c1; cbn in Heq; discriminate.
  - cbn [encodeHTMLAttribute] in Heq.
    by_char c1; by_char c2; cbn in Heq;
      try discriminate;
      try (injection Heq as Heq; f_equal; by apply IH);
      try (injection Heq as ? Heq; subst; try congruence; f_equal; by apply IH).
Qed.

Lemma encodeHTMLAttribute_injective_witness :
  String quot "a" = String quot "a".
Proof. apply encodeHTMLAttribute_injective. reflexivity. Defined.

Lemma occurrences_textEditorScope g :
  occurrences quot (textEditorScope g) = 2.
Proof.
  unfold textEditorScope. rewrite occurrences_app. cbn [occurrences].
  rewrite occurrences_app, encodeHTMLAttribute_safe_any by (by left).
  reflexivity.
Qed.

(** X3.  Every selector written for a list of grammar scopes has its two
    double quotes and no other: the value of the attribute cannot close
    the quotation. *)
Theorem grammarScopesToTextEditorScopes_quotes (grammarScopes : list string) :
  occurrences quot (grammarScopesToTextEditorScopes grammarScopes)
    = 2 * length grammarScopes.
Proof.
  unfold grammarScopesToTextEditorScopes.
  induction grammarScopes as [|g [|g' rest] IH]; [done| |].
  - cbn. rewrite occurrences_textEditorScope. done.
  - change (join ", " (map textEditorScope (g :: g' :: rest)))
      with (textEditorScope g +:+ ", " +:+ join ", " (map textEditorScope (g' :: rest))).
    rewrite !occurrences_app, IH, occurrences_textEditorScope.
    change (occurrences quot ", ") with 0. cbn [length]. lia.
Qed.

(** X4.  Normalising a grammar scope for autocomplete-plus: a scope with a dot
    comes out with a leading dot, a scope without one is left alone, and
    normalising twice changes nothing more. *)
Theorem grammarScopeToAutoCompleteSelector_normal (grammarScope : string) :
  let selector := grammarScopeToAutoCompleteSelector grammarScope in
  grammarScopeToAutoCompleteSelector selector = selector ∧
  (if includesDot grammarScope then firstIsNotDot selector = false
   else selector = grammarScope) ∧
  (selector = grammarScope ∨ selector = String "." grammarScope).
Proof.
  cbn zeta. unfold grammarScopeToAutoCompleteSelector.
  destruct (includesDot grammarScope) eqn:Hdot;
    destruct (firstIsNotDot grammarScope) eqn:Hfirst;
    cbn; rewrite ?Hdot, ?Hfirst; cbn; auto.
Qed.

End scopes_facts.
(* ------------------------------------------------------------------ *)
(** ** The standard error of the server *)
(* ------------------------------------------------------------------ *)

Section stderr_facts.
Import Stderr.

Local Abbreviation nl := (String newline EmptyString).

Lemma append_cons x (a b : string) : String x a +:+ b = String x (a +:+ b).
Proof. done. Qed.

Lemma append_assoc (a b c : string) : (a +:+ b) +:+ c = a +:+ (b +:+ c).
Proof. induction a as [|x a IH]; [done|]. by rewrite !append_cons, IH. Qed.

Lemma append_empty_r (a : string) : a +:+ EmptyString = a.
Proof. induction a as [|x a IH]; [done|]. by rewrite append_cons, IH. Qed.

(** The lines of a string: all but the last, and the last, to which the
    first line of what follows is appended. *)
Lemma split_app a :
  ∃ init lst,
    split a = init ++ [lst] ∧
    ∀ b hb tb, split b = hb :: tb → split (a +:+ b) = init ++ (lst +:+ hb) :: tb.
Proof.
  induction a as [|c a (init & lst & Ha & Hab)].
  { exists [], EmptyString. split; [done|]. intros b hb tb Hb. exact Hb. }
  cbn [split]. destruct (Ascii.eqb c newline) eqn:Hc.
  - exists (EmptyString :: init), lst. split; [by rewrite Ha|].
    intros b hb tb Hb. rewrite append_cons. cbn [split]. rewrite Hc.
    by rewrite (Hab b hb tb Hb).
  - destruct init as [|i0 init].
    + exists [], (String c lst). rewrite Ha. split; [done|].
      intros b hb tb Hb. rewrite append_cons. cbn [split]. rewrite Hc.
      by rewrite (Hab b hb tb Hb).
    + exists (String c i0 :: init), lst. rewrite Ha. split; [done|].
      intros b hb tb Hb. rewrite append_cons. cbn [split]. rewrite Hc.
      by rewrite (Hab b hb tb Hb).
Qed.

Lemma split_cons s : ∃ h t, split s = h :: t.
Proof.
  destruct (split_app s) as (init & lst & -> & _).
  destruct init; cbn; eauto.
Qed.

Lemma join_split s : Scopes.join nl (split s) = s.
Proof.
  induction s as [|c s IH]; [done|]. cbn [split].
  destruct (split_cons s) as (h & t & Hs). rewrite Hs in *.
  destruct (Ascii.eqb_spec c newline) as [->|Hc].
  - change (Scopes.join nl (EmptyString :: h :: t))
      with (String newline (Scopes.join nl (h :: t))).
    by rewrite IH.
  - destruct t as [|y t].
    + cbn in *. by rewrite IH.
    + change (Scopes.join nl (String c h :: y :: t))
        with (String c (Scopes.join nl (h :: y :: t))).
      by rewrite IH.
Qed.

Lemma split_oneLine s : Forall oneLine (split s).
Proof.
  induction s as [|c s IH]; [by repeat constructor|]. cbn [split].
  destruct (Ascii.eqb c newline) eqn:Hc; [by constructor|].
  destruct (split_cons s) as (h & t & Hs). rewrite Hs in *.
  apply Forall_cons in IH as [Hh Ht]. constructor; [|done].
  unfold oneLine in *. cbn. by rewrite Hc, Hh.
Qed.

Lemma split_oneLine_id s : oneLine s → split s = [s].
Proof.
  unfold oneLine. induction s as [|c s IH]; [done|]. cbn.
  destruct (Ascii.eqb c newline); [done|]. intros Hs. by rewrite IH.
Qed.

Lemma split_join l : l ≠ [] → Forall oneLine l → split (Scopes.join nl l) = l.
Proof.
  induction l as [|x [|y l] IH]; intros Hne Hl; [done| |].
  - cbn. apply split_oneLine_id. by apply (Forall_inv Hl).
  - apply Forall_cons in Hl as [Hx Hl].
    change (Scopes.join nl (x :: y :: l))
      with (x +:+ nl +:+ Scopes.join nl (y :: l)).
    destruct (split_app x) as (init & lst & Hsx & Happ).
    rewrite split_oneLine_id in Hsx by done.
    destruct init as [|? [|]]; [|discriminate..]. injection Hsx as <-.
    erewrite Happ.
    2:{ change (nl +:+ Scopes.join nl (y :: l))
          with (String newline (Scopes.join nl (y :: l))).
        cbn [split]. rewrite Ascii.eqb_refl, IH by done. reflexivity. }
    cbn [app]. by rewrite append_empty_r.
Qed.

(** Keeping the last five of a list to which more is added. *)
Lemma slice_last_app {A} (init more : list A) :
  more ≠ [] →
  slice_last 5 (drop (length init - 4) init ++ more) = slice_last 5 (init ++ more).
Proof.
  intros Hmore. unfold slice_last.
  assert (0 < length more) by (destruct more; [done|cbn; lia]).
  rewrite !drop_app, drop_drop, !length_app, !length_drop. f_equal.
  - f_equal. lia.
  - f_equal. lia.
Qed.

Lemma lastLines_app a b : lastLines (lastLines a +:+ b) = lastLines (a +:+ b).
Proof.
  unfold lastLines at 1 3.
  destruct (split_app a) as (init & lst & Ha & Hab).
  destruct (split_cons b) as (hb & tb & Hb).
  rewrite (Hab b hb tb Hb).
  assert (slice_last 5 (split a) = drop (length init - 4) init ++ [lst]) as Hkept.
  { rewrite Ha. unfold slice_last. rewrite length_app, drop_app. cbn [length].
    replace (length init + 1 - 5) with (length init - 4) by lia.
    replace (length init - 4 - length init) with 0 by lia. done. }
  destruct (split_app (lastLines a)) as (init' & lst' & Ha' & Hab').
  unfold lastLines in Ha'. rewrite split_join, Hkept in Ha'.
  - apply app_inj_tail in Ha' as [<- <-].
    rewrite (Hab' b hb tb Hb).
    by rewrite slice_last_app.
  - rewrite Hkept. by destruct (drop _ init).
  - unfold slice_last. apply Forall_drop, split_oneLine.
Qed.

(** X5.  The client keeps the last five lines of all that the server has
    written to its standard error, however the output was cut into
    chunks. *)
Theorem onSpawnStdErrData_keeps_last_lines (chunks : list string) :
  let st := foldl onSpawnStdErrData initial chunks in
  processStdErr st = lastLines (received chunks) ∧
  length (split (processStdErr st)) ≤ 5.
Proof.
  cbn zeta.
  assert (∀ st,
            processStdErr (foldl onSpawnStdErrData st chunks) =
              match chunks with
              | [] => processStdErr st
              | _ => lastLines (processStdErr st +:+ received chunks)
              end) as Hfold.
  { induction chunks as [|chunk chunks IH]; intros st; [done|].
    cbn [foldl]. rewrite IH. cbn [onSpawnStdErrData handleServerStderr processStdErr].
    destruct chunks as [|chunk' chunks].
    - cbn. by rewrite append_empty_r.
    - rewrite lastLines_app. cbn [received foldr]. by rewrite append_assoc. }
  rewrite Hfold. cbn [initial processStdErr String.append].
  assert (∀ s, length (split (lastLines s)) ≤ 5) as Hfive.
  { intros s. unfold lastLines. destruct (split_cons s) as (h & t & Hs).
    rewrite split_join.
    - unfold slice_last. rewrite length_drop. lia.
    - unfold slice_last. rewrite Hs.
      intros Hnil%(f_equal length). rewrite length_drop in Hnil. cbn in Hnil. lia.
    - unfold slice_last. apply Forall_drop, split_oneLine. }
  destruct chunks; [split; [reflexivity|cbn; lia]|]. split; [done|]. apply Hfive.
Qed.

End stderr_facts.
(* ------------------------------------------------------------------ *)
(** ** Workspace file operations *)
(* ------------------------------------------------------------------ *)

Section fileops_facts.
Import FileOperations.
Variable h : host.
Variable plat : Uri.platform.

Lemma filter_all {A} (f : A → bool) (l : list A) :
  (∀ x, f x = true) → List.filter f l = l.
Proof.
  intros Hf. induction l as [|x l IH]; [done|]. cbn. by rewrite Hf, IH.
Qed.

(** X6.  The filters of the server never remove a path: [_filter] returns the
    items it was given, and the notifications name every file, whatever
    the filters say of it. *)
Theorem filter_keeps_every_item
    (capability : option FileOperationRegistrationOptions) :
  (∀ A (items : list A) (pathValue : A → string),
     _filter h capability items pathValue = items) ∧
  (∀ paths, didCreateOrDeleteFiles h plat capability paths
              = mapM (Uri.pathToUri plat) paths) ∧
  (∀ moves, didRenameFiles h plat capability moves
              = buildRenameFilesParams plat moves).
Proof.
  assert (∀ A (items : list A) (pathValue : A → string),
            _filter h capability items pathValue = items) as Hall.
  { intros A items pathValue. unfold _filter.
    destruct (capability ≫= filters); [|done]. by apply filter_all. }
  split; [exact Hall|]. split.
  - intros paths. unfold didCreateOrDeleteFiles. by rewrite Hall.
  - intros moves. unfold didRenameFiles. by rewrite Hall.
Qed.

(** X7.  Of the filters, the first that applies to the type of the path
    decides, and the filters after it are not consulted: the path passes
    when that filter has no glob or its glob matches, and fails
    otherwise, also when a later filter would match. *)
Theorem pathMatchesFilters_first_applicable (filePath : string)
    (type : FileOperationPatternKind)
    (skipped : list FileOperationFilter) (filter : FileOperationFilter)
    (later : list FileOperationFilter) :
  getTypeForFilePath h filePath = Resolved (Some type) →
  Forall (λ f, applies type f = false) skipped →
  applies type filter = true →
  pathMatchesFilters h filePath (skipped ++ filter :: later)
    = Resolved (verdict h filePath filter).
Proof.
  intros Htype Hskipped Hfilter. unfold pathMatchesFilters. rewrite Htype.
  assert (matchesSomeFilter h type filePath (skipped ++ filter :: later)
          = verdict h filePath filter) as ->.
  { induction Hskipped as [|f skipped Hf _ IH]; cbn [app matchesSomeFilter].
    - unfold applies, verdict in *. destruct (truthy (scheme filter)); [|done].
      by rewrite Hfilter.
    - unfold applies in Hf. destruct (truthy (scheme f)); [|done].
      by rewrite Hf. }
  by destruct skipped.
Qed.

(** X8.  When no filter applies, the path fails; without any filter it
    passes; and a path that is neither a file nor a folder fails
    always. *)
Theorem pathMatchesFilters_none_applicable (filePath : string)
    (filters : list FileOperationFilter) :
  (∀ type, getTypeForFilePath h filePath = Resolved (Some type) →
           Forall (λ f, applies type f = false) filters →
           pathMatchesFilters h filePath filters
             = Resolved (match filters with [] => true | _ => false end)) ∧
  (getTypeForFilePath h filePath = Resolved None →
   pathMatchesFilters h filePath filters = Resolved false).
Proof.
  split.
  - intros type Htype Hnone. unfold pathMatchesFilters. rewrite Htype.
    destruct filters as [|f filters]; [done|]. f_equal.
    induction Hnone as [|f' filters' Hf _ IH]; [done|]. cbn [matchesSomeFilter].
    unfold applies in Hf. destruct (truthy (scheme f')); [|done].
    by rewrite Hf.
  - intros Htype. unfold pathMatchesFilters. by rewrite Htype.
Qed.

End fileops_facts.

Lemma pathMatchesFilters_first_applicable_witness :
  FileOperations.pathMatchesFilters FileOperations.exampleHost "/proj/b.js"
    ([FileOperations.mkFilter (Some "folder") (Some "**")] ++
     FileOperations.mkFilter (Some "file") (Some "*.ts")
       :: [FileOperations.mkFilter None (Some "**")])
    = Resolved false.
Proof.
  apply (pathMatchesFilters_first_applicable FileOperations.exampleHost
           "/proj/b.js" FileOperations.file).
  - reflexivity.
  - repeat constructor.
  - reflexivity.
Defined.

Lemma pathMatchesFilters_none_applicable_witness :
  FileOperations.pathMatchesFilters FileOperations.exampleHost "/proj/b.js"
    [FileOperations.mkFilter (Some "folder") (Some "**")] = Resolved false.
Proof.
  apply (proj1 (pathMatchesFilters_none_applicable FileOperations.exampleHost
                  "/proj/b.js"
                  [FileOperations.mkFilter (Some "folder") (Some "**")])
               FileOperations.file).
  - reflexivity.
  - repeat constructor.
Defined.
(* ------------------------------------------------------------------ *)
(** ** Ranges, and the intentions at a point *)
(* ------------------------------------------------------------------ *)

Section range_facts.
Import Ranges.

(** The order of points, in numbers. *)
Lemma Point_isLessThan_lex (a b : Atom.Point) :
  Atom.Point_isLessThan a b = true ↔ ¬ before b a.
Proof.
  unfold Atom.Point_isLessThan, Atom.Point_compare, before.
  destruct a as [r1 c1], b as [r2 c2]. cbn. rewrite Z.ltb_lt.
  repeat match goal with
         | |- context [(?x <? ?y)%Z] => destruct (Z.ltb_spec x y)
         end; lia.
Qed.

Lemma Point_isGreaterThan_lex (a b : Atom.Point) :
  Atom.Point_isGreaterThan a b = true ↔ ¬ before a b.
Proof.
  unfold Atom.Point_isGreaterThan, Atom.Point_compare, before.
  destruct a as [r1 c1], b as [r2 c2]. cbn. rewrite Z.ltb_lt.
  repeat match goal with
         | |- context [(?x <? ?y)%Z] => destruct (Z.ltb_spec x y)
         end; lia.
Qed.

Lemma Point_isGreaterThanOrEqual_lex (a b : Atom.Point) :
  Atom.Point_isGreaterThanOrEqual a b = true ↔ before b a.
Proof.
  unfold Atom.Point_isGreaterThanOrEqual, Atom.Point_compare, before.
  destruct a as [r1 c1], b as [r2 c2]. cbn.
  repeat match goal with
         | |- context [(?x <? ?y)%Z] => destruct (Z.ltb_spec x y)
         end; rewrite Z.leb_le; lia.
Qed.

Lemma before_trans a b c : before a b → before b c → before a c.
Proof. unfold before. lia. Qed.

Lemma before_total a b : before a b ∨ before b a.
Proof. unfold before. lia. Qed.

Lemma before_dec a b : before a b ∨ ¬ before a b.
Proof. unfold before. lia. Qed.

Lemma before_refl a : before a a.
Proof. unfold before. lia. Qed.

Lemma Range_new_ordered p q :
  before p q → Atom.Range_new p q = Atom.mkRange p q.
Proof.
  intros H%Point_isLessThanOrEqual_lex. unfold Atom.Range_new. by rewrite H.
Qed.

Lemma Range_new_inOrder p q : inOrder (Atom.Range_new p q).
Proof.
  unfold Atom.Range_new, inOrder.
  destruct (Atom.Point_isLessThanOrEqual p q) eqn:H; cbn.
  - by apply Point_isLessThanOrEqual_lex.
  - destruct (before_total p q) as [Hpq%Point_isLessThanOrEqual_lex|]; [congruence|done].
Qed.

(** The union of two ranges in order is in order and covers both. *)
Lemma Range_union_covers (a b : Atom.Range) :
  inOrder a → inOrder b →
  let u := Atom.Range_union a b in
  inOrder u ∧
  before (Atom.start u) (Atom.start a) ∧ before (Atom.end_ a) (Atom.end_ u) ∧
  before (Atom.start u) (Atom.start b) ∧ before (Atom.end_ b) (Atom.end_ u).
Proof.
  unfold inOrder. intros Ha Hb. cbn zeta. unfold Atom.Range_union.
  set (s := if Atom.Point_isLessThan (Atom.start a) (Atom.start b)
            then Atom.start a else Atom.start b).
  set (e := if Atom.Point_isGreaterThan (Atom.end_ a) (Atom.end_ b)
            then Atom.end_ a else Atom.end_ b).
  assert (before s (Atom.start a) ∧ before s (Atom.start b)) as [Hsa Hsb].
  { subst s. destruct (Atom.Point_isLessThan _ _) eqn:Hlt.
    - apply Point_isLessThan_lex in Hlt. split; [apply before_refl|].
      by destruct (before_total (Atom.start a) (Atom.start b)).
    - split; [|apply before_refl].
      destruct (before_dec (Atom.start b) (Atom.start a)) as [|Hnot]; [done|].
      apply Point_isLessThan_lex in Hnot. congruence. }
  assert (before (Atom.end_ a) e ∧ before (Atom.end_ b) e) as [Hae Hbe].
  { subst e. destruct (Atom.Point_isGreaterThan _ _) eqn:Hgt.
    - apply Point_isGreaterThan_lex in Hgt. split; [apply before_refl|].
      by destruct (before_total (Atom.end_ a) (Atom.end_ b)).
    - split; [|apply before_refl].
      destruct (before_dec (Atom.end_ a) (Atom.end_ b)) as [|Hnot]; [done|].
      apply Point_isGreaterThan_lex in Hnot. congruence. }
  rewrite Range_new_ordered by eauto using before_trans. cbn.
  split_and!; eauto using before_trans.
Qed.

(** A range of the protocol comes out of [lsRangeToAtomRange] with its
    ends in order. *)
Lemma lsRangeToAtomRange_inOrder (r : Lsp.Range) :
  inOrder (Convert.lsRangeToAtomRange r).
Proof. apply Range_new_inOrder. Qed.

End range_facts.

Section conversion_facts.
Import Ranges.

(** X9.  Converting a range of the protocol to a range of the editor and back
    gives the range when its start is not after its end, and the range
    with its ends exchanged otherwise; the range of the editor is in order
    in both cases.  An ordered range of the editor survives the trip
    through the protocol. *)
Theorem lsRangeToAtomRange_roundtrip (r : Lsp.Range) (R : Atom.Range) :
  inOrder (Convert.lsRangeToAtomRange r) ∧
  (positionBefore (Lsp.start r) (Lsp.end_ r) →
   Convert.atomRangeToLSRange (Convert.lsRangeToAtomRange r) = r) ∧
  (¬ positionBefore (Lsp.start r) (Lsp.end_ r) →
   Convert.atomRangeToLSRange (Convert.lsRangeToAtomRange r)
     = Lsp.mkRange (Lsp.end_ r) (Lsp.start r)) ∧
  (inOrder R →
   Convert.lsRangeToAtomRange (Convert.atomRangeToLSRange R) = R).
Proof.
  split; [apply lsRangeToAtomRange_inOrder|].
  assert (∀ p q : Lsp.Position,
            positionBefore p q ↔
            before (Convert.positionToPoint p) (Convert.positionToPoint q)) as Hpos.
  { intros [l1 c1] [l2 c2]. done. }
  unfold Convert.lsRangeToAtomRange, Convert.atomRangeToLSRange, Atom.Range_new.
  split_and!.
  - intros H%Hpos%Point_isLessThanOrEqual_lex. rewrite H.
    by destruct r as [[] []].
  - intros H. destruct (Atom.Point_isLessThanOrEqual _ _) eqn:Hle.
    + by apply Point_isLessThanOrEqual_lex, Hpos in Hle.
    + by destruct r as [[] []].
  - intros H%Point_isLessThanOrEqual_lex. destruct R as [[r1 c1] [r2 c2]].
    cbn in *. unfold Convert.positionToPoint. cbn. by rewrite H.
Qed.

Lemma lsRangeToAtomRange_roundtrip_witness :
  Convert.atomRangeToLSRange
    (Convert.lsRangeToAtomRange
       (Lsp.mkRange (Lsp.mkPosition 2 7) (Lsp.mkPosition 2 3)))
    = Lsp.mkRange (Lsp.mkPosition 2 3) (Lsp.mkPosition 2 7) ∧
  Convert.atomRangeToLSRange
    (Convert.lsRangeToAtomRange
       (Lsp.mkRange (Lsp.mkPosition 1 9) (Lsp.mkPosition 2 3)))
    = Lsp.mkRange (Lsp.mkPosition 1 9) (Lsp.mkPosition 2 3) ∧
  Convert.lsRangeToAtomRange
    (Convert.atomRangeToLSRange
       (Atom.mkRange (Atom.mkPoint 1 9) (Atom.mkPoint 2 3)))
    = Atom.mkRange (Atom.mkPoint 1 9) (Atom.mkPoint 2 3).
Proof.
  split; [|split].
  - apply (lsRangeToAtomRange_roundtrip
             (Lsp.mkRange (Lsp.mkPosition 2 7) (Lsp.mkPosition 2 3))
             (Atom.mkRange (Atom.mkPoint 0 0) (Atom.mkPoint 0 0))).
    unfold positionBefore. cbn. lia.
  - apply (lsRangeToAtomRange_roundtrip
             (Lsp.mkRange (Lsp.mkPosition 1 9) (Lsp.mkPosition 2 3))
             (Atom.mkRange (Atom.mkPoint 0 0) (Atom.mkPoint 0 0))).
    unfold positionBefore. cbn. lia.
  - apply (lsRangeToAtomRange_roundtrip
             (Lsp.mkRange (Lsp.mkPosition 0 0) (Lsp.mkPosition 0 0))
             (Atom.mkRange (Atom.mkPoint 1 9) (Atom.mkPoint 2 3))).
    unfold inOrder, before. cbn. lia.
Defined.

End conversion_facts.

Section intentions_facts.
Import Ranges Diagnostics Intentions.

Lemma covers_trans a b c : covers a b → covers b c → covers a c.
Proof. unfold covers. intros [] []. eauto using before_trans. Qed.

Lemma covers_refl a : covers a a.
Proof. split; apply before_refl. Qed.

Lemma Range_containsPoint_lex r p :
  Atom.Range_containsPoint r p = true ↔
  before (Atom.start r) p ∧ before p (Atom.end_ r).
Proof.
  unfold Atom.Range_containsPoint.
  by rewrite andb_true_iff, Point_isGreaterThanOrEqual_lex,
    Point_isLessThanOrEqual_lex.
Qed.

(** The loop of [largestRangeForDiagnosticMessages], from a range in
    order. *)
Lemma largestRange_fold (diagnostics : list Diagnostic) : ∀ (current : Atom.Range),
  inOrder current →
  ∃ R,
    foldl (λ largestRange diagnostic,
             let range := Convert.lsRangeToAtomRange (range diagnostic) in
             match largestRange with
             | None => Some range
             | Some largestRange => Some (Atom.Range_union largestRange range)
             end)
          (Some current) diagnostics = Some R ∧
    inOrder R ∧ covers R current ∧
    ∀ d, d ∈ diagnostics → covers R (Convert.lsRangeToAtomRange (range d)).
Proof.
  induction diagnostics as [|d diagnostics IH]; intros current Hcurrent.
  { exists current. split; [done|]. split; [done|]. split; [apply covers_refl|].
    intros d Hd. by apply elem_of_nil in Hd. }
  cbn [foldl].
  destruct (Range_union_covers current (Convert.lsRangeToAtomRange (range d)))
    as (Hu & Hs1 & He1 & Hs2 & He2); [done|apply lsRangeToAtomRange_inOrder|].
  destruct (IH _ Hu) as (R & HR0 & HR & Hcov & Hall).
  exists R. split; [exact HR0|]. split; [done|]. split.
  { eapply covers_trans; [exact Hcov|]. by split. }
  intros d' [->|Hd']%elem_of_cons; [|by apply Hall].
  eapply covers_trans; [exact Hcov|]. by split.
Qed.

Lemma largestRangeForDiagnosticMessages_covers_all (diagnostics : list Diagnostic) :
  match largestRangeForDiagnosticMessages diagnostics with
  | None => diagnostics = []
  | Some R =>
      diagnostics ≠ [] ∧ inOrder R ∧
      ∀ d, d ∈ diagnostics → covers R (Convert.lsRangeToAtomRange (range d))
  end.
Proof.
  destruct diagnostics as [|d diagnostics]; [done|].
  destruct (largestRange_fold diagnostics (Convert.lsRangeToAtomRange (range d)))
    as (R & HR0 & HR & Hcov & Hall); [apply lsRangeToAtomRange_inOrder|].
  assert (largestRangeForDiagnosticMessages (d :: diagnostics) = Some R) as ->
    by exact HR0.
  split; [done|]. split; [done|].
  intros d' [->|Hd']%elem_of_cons; [done|by apply Hall].
Qed.

(** X10.  The range asked for covers the range of every diagnostic given, and
    there is none only for no diagnostic. *)
Theorem largestRangeForDiagnosticMessages_covers (diagnostics : list Diagnostic) :
  match largestRangeForDiagnosticMessages diagnostics with
  | None => diagnostics = []
  | Some R =>
      diagnostics ≠ [] ∧ inOrder R ∧
      ∀ d, d ∈ diagnostics → covers R (Convert.lsRangeToAtomRange (range d))
  end.
Proof. apply largestRangeForDiagnosticMessages_covers_all. Qed.

(** X11.  When every diagnostic of the list is stored under its own range and
    there is one at the cursor, the code actions are asked for a range
    that contains the cursor and covers every diagnostic at the cursor;
    without a diagnostic at the cursor they are asked for the selection,
    or for the cursor when the selection is empty. *)
Theorem codeActionRequest_range (l : EditorIntentionsList)
    (bufferPosition : Atom.Point) (selection : Selection) :
  storedUnderOwnRange l →
  let '(codeActionRange, diagnostics) :=
    codeActionRequest (Some l) bufferPosition selection in
  diagnostics = getDiagnosticsForBufferPosition l bufferPosition ∧
  match diagnostics with
  | [] =>
      codeActionRange =
        if isEmpty selection
        then Atom.mkRange bufferPosition bufferPosition
        else getBufferRange selection
  | _ =>
      Atom.Range_containsPoint codeActionRange bufferPosition = true ∧
      ∀ d, d ∈ diagnostics →
           covers codeActionRange (Convert.lsRangeToAtomRange (range d))
  end.
Proof.
  intros Hstored. unfold codeActionRequest. split; [done|].
  pose proof (largestRangeForDiagnosticMessages_covers_all
                (getDiagnosticsForBufferPosition l bufferPosition)) as Hlargest.
  destruct (largestRangeForDiagnosticMessages _) as [R|].
  - destruct Hlargest as (Hne & HR & Hall).
    destruct (getDiagnosticsForBufferPosition l bufferPosition) as [|d ds] eqn:Hds;
      [done|].
    split; [|done].
    assert (d ∈ getDiagnosticsForBufferPosition l bufferPosition) as Hd
      by (rewrite Hds; apply list_elem_of_here).
    unfold getDiagnosticsForBufferPosition, getResultsForPoint in Hd.
    apply list_elem_of_fmap in Hd as ([r d'] & -> & Hin).
    apply list_elem_of_In, filter_In in Hin as [Hin Hcontains].
    apply list_elem_of_In in Hin.
    eapply Forall_forall in Hstored; [|exact Hin]. cbn in *. subst r.
    apply Range_containsPoint_lex in Hcontains as [Hs He].
    destruct (Hall d' (list_elem_of_here _ _)) as [Hs' He'].
    apply Range_containsPoint_lex. split; eauto using before_trans.
  - rewrite Hlargest.
    destruct (isEmpty selection); cbn; [|done].
    apply Range_new_ordered, before_refl.
Qed.

Lemma convert_title a i :
  convertCodeActionToIntentionListOption a = Some (Some i) →
  intentionTitle i = title a.
Proof.
  unfold convertCodeActionToIntentionListOption.
  destruct (if isEditAction a then _ else _) as [[c|]|]; cbn; [|done..].
  by intros [= <-].
Qed.

Lemma takeAction_thrown (rest : list action) : foldl takeAction None rest = None.
Proof. by induction rest. Qed.

(** What holds of the titles taken and the results while the loop runs
    over the actions [seen]. *)
Lemma takeAction_fold (rest : list action) : ∀ seen titles results titles' results',
  foldl takeAction (Some (titles, results)) rest = Some (titles', results') →
  titles = map intentionTitle results →
  NoDup titles →
  (∀ i, i ∈ results → ∃ x, x ∈ seen ∧ convertible x i) →
  (∀ x i, x ∈ seen → convertible x i → intentionTitle i ∈ titles) →
  titles' = map intentionTitle results' ∧
  NoDup titles' ∧
  (∀ i, i ∈ results' → ∃ x, x ∈ seen ++ rest ∧ convertible x i) ∧
  (∀ x i, x ∈ seen ++ rest → convertible x i → intentionTitle i ∈ titles').
Proof.
  induction rest as [|x rest IH];
    intros seen titles results titles' results' Hrun Htitles Hnodup Hfrom Hall.
  { cbn in Hrun. injection Hrun as <- <-. rewrite app_nil_r. done. }
  cbn [foldl] in Hrun.
  replace (seen ++ x :: rest) with ((seen ++ [x]) ++ rest) by (by rewrite <- app_assoc).
  assert (∀ i, i ∈ results → ∃ y, y ∈ seen ++ [x] ∧ convertible y i) as Hfrom'.
  { intros i Hi. destruct (Hfrom i Hi) as (y & Hy & Hc). exists y.
    split; [apply elem_of_app; by left|done]. }
  unfold takeAction at 2 in Hrun. cbn [mbind option_bind] in Hrun.
  destruct (CodeAction_is x) as [a|] eqn:His.
  2:{ eapply IH; try done.
      intros y i [Hy|Hy%list_elem_of_singleton]%elem_of_app Hc;
        [by eapply Hall|]. subst y. destruct Hc as (a & _ & Ha & _). congruence. }
  assert (x = IsCodeAction a) as Hx.
  { destruct x as [c|a']; [done|]. cbn in His.
    destruct (isSet (edit a') || isSet (actionCommand a')); congruence. }
  case_bool_decide as Htaken.
  { eapply IH; try done.
    intros y i [Hy|Hy%list_elem_of_singleton]%elem_of_app Hc; [by eapply Hall|].
    subst y. destruct Hc as (a' & Ha' & _ & Hconv). rewrite Hx in Ha'.
    injection Ha' as <-. by rewrite (convert_title _ _ Hconv). }
  destruct (convertCodeActionToIntentionListOption a) as [[result|]|] eqn:Hconv;
    cbn [mbind option_bind] in Hrun.
  3:{ by rewrite takeAction_thrown in Hrun. }
  2:{ eapply IH; try done.
      intros y i [Hy|Hy%list_elem_of_singleton]%elem_of_app Hc; [by eapply Hall|].
      subst y. destruct Hc as (a' & Ha' & _ & Hconv'). rewrite Hx in Ha'.
      injection Ha' as <-. congruence. }
  eapply IH; [exact Hrun| | | |].
  - rewrite map_app. cbn. by rewrite Htitles, (convert_title _ _ Hconv).
  - apply NoDup_app. split; [done|]. split; [|apply NoDup_singleton].
    intros t Ht Ht'%list_elem_of_singleton. by subst t.
  - intros i [Hi|Hi%list_elem_of_singleton]%elem_of_app; [by apply Hfrom'|].
    subst i. exists x. split; [apply elem_of_app; right; apply list_elem_of_here|].
    by exists a.
  - intros y i [Hy|Hy%list_elem_of_singleton]%elem_of_app Hc.
    + apply elem_of_app. left. by eapply Hall.
    + subst y. destruct Hc as (a' & Ha' & _ & Hconv'). rewrite Hx in Ha'.
      injection Ha' as <-. apply elem_of_app. right.
      rewrite (convert_title _ _ Hconv'). apply list_elem_of_here.
Qed.

(** The loop returns when no conversion throws. *)
Lemma takeAction_returns (rest : list action) : ∀ acc,
  (∀ x, x ∈ rest → ¬ unconvertible x) →
  is_Some (foldl takeAction (Some acc) rest).
Proof.
  induction rest as [|x rest IH]; intros [titles results] Hnone; [by eexists|].
  cbn [foldl]. unfold takeAction at 2. cbn [mbind option_bind].
  assert (∀ y, y ∈ rest → ¬ unconvertible y) as Hrest
    by (intros y Hy; apply Hnone; by right).
  destruct (CodeAction_is x) as [a|] eqn:His; [|by apply IH].
  case_bool_decide; [by apply IH|].
  destruct (convertCodeActionToIntentionListOption a) as [[result|]|] eqn:Hconv;
    cbn [mbind option_bind]; [by apply IH..|].
  destruct (Hnone x); [by left|]. by exists a.
Qed.

(** X12.  When the loop of [getIntentions] over the code actions of an
    answer returns, no two of the intentions it has made have the same
    title; each is made of a code action of the answer, and every code
    action of the answer that can be made into an intention has its
    title among them.  It returns when no code action of the answer is
    one whose conversion throws. *)
Theorem intentionsOfActions_titles (actions : list action) :
  (∀ results,
     intentionsOfActions actions = Some results →
     NoDup (map intentionTitle results) ∧
     (∀ i, i ∈ results → ∃ x, x ∈ actions ∧ convertible x i) ∧
     (∀ x i, x ∈ actions → convertible x i →
             intentionTitle i ∈ map intentionTitle results)) ∧
  ((∀ x, x ∈ actions → ¬ unconvertible x) →
   is_Some (intentionsOfActions actions)).
Proof.
  unfold intentionsOfActions. split.
  - intros results Hrun.
    destruct (foldl takeAction (Some ([], [])) actions) as [[titles results']|] eqn:Hfold;
      [|done].
    injection Hrun as <-.
    assert (∀ i : Intention, i ∈ [] → ∃ x : action, x ∈ [] ∧ convertible x i)
      as Hfrom0 by (intros i Hi; by apply elem_of_nil in Hi).
    assert (∀ (x : action) (i : Intention),
              x ∈ [] → convertible x i → intentionTitle i ∈ [])
      as Hall0 by (intros x i Hx; by apply elem_of_nil in Hx).
    by destruct (takeAction_fold actions [] [] [] _ _ Hfold eq_refl (NoDup_nil_2)
                   Hfrom0 Hall0) as (-> & Hnodup & Hfrom & Hall).
  - intros Hnone. destruct (takeAction_returns actions ([], []) Hnone) as [out ->].
    by eexists.
Qed.

(** A code action of the kind [quickfix] whose command has no arguments
    makes the conversion throw, and with it the loop. *)
Lemma intentionsOfActions_throws :
  unconvertible (IsCodeAction bareCommand) ∧
  intentionsOfActions [IsCodeAction renameAction; IsCodeAction bareCommand] = None.
Proof. split; [by exists bareCommand|done]. Qed.

Lemma intentionsOfActions_titles_witness :
  ∃ results,
    intentionsOfActions [IsCodeAction renameAction; IsCodeAction renameAgain]
      = Some results ∧
    map intentionTitle results = ["Rename"] ∧
    NoDup (map intentionTitle results).
Proof.
  eexists. split; [reflexivity|]. split; [reflexivity|].
  by apply (intentionsOfActions_titles
              [IsCodeAction renameAction; IsCodeAction renameAgain]).
Defined.

Lemma codeActionRequest_range_witness :
  let l := add (Convert.lsRangeToAtomRange noRange)
               (Build_MessageBundle 0 "W1" "/proj/src/a.ts") unusedVar emptyList in
  let '(codeActionRange, diagnostics) :=
    codeActionRequest (Some l) (Atom.mkPoint 1 2)
      (mkSelection true (Atom.mkRange (Atom.mkPoint 1 2) (Atom.mkPoint 1 2))) in
  diagnostics = [unusedVar] ∧
  Atom.Range_containsPoint codeActionRange (Atom.mkPoint 1 2) = true.
Proof.
  cbn zeta.
  pose proof (codeActionRequest_range
                (add (Convert.lsRangeToAtomRange noRange)
                     (Build_MessageBundle 0 "W1" "/proj/src/a.ts") unusedVar emptyList)
                (Atom.mkPoint 1 2)
                (mkSelection true (Atom.mkRange (Atom.mkPoint 1 2) (Atom.mkPoint 1 2))))
    as H.
  destruct (codeActionRequest _ _ _) as [R ds].
  destruct H as [Hds H]; [by repeat constructor|].
  rewrite Hds in *. split; [reflexivity|].
  change (getDiagnosticsForBufferPosition _ _) with [unusedVar] in H. apply H.
Defined.

End intentions_facts.
(* ------------------------------------------------------------------ *)
(** ** The linter adapter: clearing, looking up, recapturing *)
(* ------------------------------------------------------------------ *)

Section linterqueries_facts.
Import Diagnostics LinterQueries.

(** X13.  The severity of a message loses the difference between a hint and
    an information and no other; the icon keeps it. *)
Theorem severity_conversion_lossy (s1 s2 : Lsp.DiagnosticSeverity) :
  (lsSeverityToV2MessageSeverity s1 = lsSeverityToV2MessageSeverity s2 ↔
   s1 = s2 ∨ (s1 = Lsp.Information ∧ s2 = Lsp.Hint)
           ∨ (s1 = Lsp.Hint ∧ s2 = Lsp.Information)) ∧
  (iconForLSSeverity s1 = iconForLSSeverity s2 ↔ s1 = s2).
Proof.
  split; split.
  - destruct s1, s2; cbn; intros; try discriminate; tauto.
  - intros [->|[[-> ->]|[-> ->]]]; reflexivity.
  - destruct s1, s2; cbn; intros; try discriminate; reflexivity.
  - by intros ->.
Qed.

(** X14.  The two conversions of a diagnostic to a message agree on the file,
    the range, the text, the source and, for a diagnostic with a
    severity, the severity; a diagnostic without one is an error for
    [lsDiagnosticToV2Message] and an information for
    [diagnosticToV2Message]. *)
Theorem diagnosticToV2Message_agrees (env : environment) (path : string)
    (diagnostic : Diagnostic) (m : Message) :
  lsDiagnosticToV2Message env path diagnostic = Some m →
  let m' := diagnosticToV2Message path diagnostic in
  file m' = file m ∧ position m' = position m ∧ excerpt m' = excerpt m ∧
  linterName m' = linterName m ∧
  match severity diagnostic with
  | Some _ => messageSeverity m' = messageSeverity m
  | None => messageSeverity m' = SeverityInfo ∧ messageSeverity m = SeverityError
  end.
Proof.
  unfold lsDiagnosticToV2Message.
  destruct (relatedInformationToReference _ _) as [ref|]; [|done].
  intros [= <-]. cbn. split_and!; try done.
  by destruct (severity diagnostic) as [[]|].
Qed.

Lemma diagnosticToV2Message_agrees_witness :
  messageSeverity (diagnosticToV2Message "/proj/src/a.ts" unusedVar)
    = SeverityWarning.
Proof.
  destruct (lsDiagnosticToV2Message exampleEnv "/proj/src/a.ts" unusedVar)
    as [m|] eqn:E; [|discriminate].
  destruct (diagnosticToV2Message_agrees exampleEnv "/proj/src/a.ts" unusedVar m E)
    as (_ & _ & _ & _ & Hs).
  cbn in Hs. rewrite Hs. by injection E as <-.
Defined.

(** *** What [captureDiagnostics] leaves *)

Lemma captureDiagnostics_shape env params st l st' :
  captureDiagnostics env params st = Some (l, st') →
  ∃ path msgs,
    Uri.uriToPath (plat env) (uri params) = Some path ∧
    let editors := findAllTextEditorsForPath env path in
    let st1 := foldl (noteEditor params) st editors in
    let kept := keptDiagnostics env path (diagnostics params) in
    let refs := seq (length (messageStore st)) (length kept) in
    mapM (made env path) kept = Some msgs ∧
    l = Locals
          (foldl (λ m dm, <[keyOf dm.2 := dm.1]> m) ∅ (zip kept msgs))
          (foldl (λ m dr, <[getDiagnosticKey dr.1 := dr.2]> m) ∅ (zip kept refs))
          refs kept (foldl unionRange None (map position msgs)) ∧
    st' = State (messageStore st ++ msgs)
            (<[path := refs]> (_diagnosticMap st))
            (<[path := codeMap l]> (_lsDiagnosticMap st))
            (_indies st) (_lastDiagnosticsParamsByEditor st1)
            (_editorsWithSaveCallbacks st1)
            ((λ lists,
                foldl (register env path)
                  (foldl (λ ls e, clearLinterIntentions e ls) lists editors)
                  (zip (zip kept refs) msgs))
               <$> _intentionsManager st)
            (trace st1 ++ map (λ i, SetMessages i path refs) (_indies st)).
Proof.
  unfold captureDiagnostics. intros Hrun.
  destruct (Uri.uriToPath (plat env) (uri params)) as [path|] eqn:Hpath; [|done].
  cbn [mbind option_bind] in Hrun.
  set (editors := findAllTextEditorsForPath env path) in *.
  pose proof (noteEditor_fold params editors st) as Hnote. cbn zeta in Hnote.
  set (st1 := foldl (noteEditor params) st editors) in *.
  destruct Hnote as (Hstore & Hdm & Hlm & Hindies & Hint & _).
  unfold captureLoop in Hrun.
  destruct (foldl (captureStep env path) _ _) as [[l1 st2]|] eqn:Hloop; [|done].
  cbn in Hrun. injection Hrun as <- <-.
  apply captureLoop_from in Hloop as (msgs & Hmsgs & -> & ->). cbn zeta.
  exists path, msgs. split; [done|]. split; [done|]. cbn.
  rewrite Hstore, Hdm, Hlm, Hindies, Hint. split; [done|]. f_equal.
  by destruct (_intentionsManager st).
Qed.

Lemma noteEditor_last params editors e : ∀ st,
  _lastDiagnosticsParamsByEditor (foldl (noteEditor params) st editors) !! e =
    if decide (e ∈ editors) then Some params
    else _lastDiagnosticsParamsByEditor st !! e.
Proof.
  induction editors as [|x editors IH]; intros st.
  { cbn. by rewrite decide_False by apply not_elem_of_nil. }
  cbn [foldl]. rewrite IH. cbn.
  destruct (decide (e ∈ editors)) as [He|He].
  - by rewrite decide_True by (by apply elem_of_cons; right).
  - destruct (decide (e = x)) as [->|Hne].
    + rewrite decide_True by apply list_elem_of_here. by rewrite lookup_insert_eq.
    + rewrite decide_False by (intros [?|?]%elem_of_cons; done).
      by rewrite lookup_insert_ne.
Qed.

Lemma cleared_other editors e : ∀ lists : gmap nat EditorIntentionsList,
  e ∉ editors →
  foldl (λ ls e, clearLinterIntentions e ls) lists editors !! e = lists !! e.
Proof.
  induction editors as [|x editors IH]; intros lists He; [done|].
  apply not_elem_of_cons in He as [Hne He]. cbn [foldl]. rewrite IH by done.
  unfold clearLinterIntentions. by rewrite lookup_alter_ne.
Qed.

Lemma addToEditor_other rg b d editors e : ∀ lists,
  e ∉ editors → foldl (addToEditor rg b d) lists editors !! e = lists !! e.
Proof.
  induction editors as [|x editors IH]; intros lists He; [done|].
  apply not_elem_of_cons in He as [Hne He]. cbn [foldl]. rewrite IH by done.
  unfold addToEditor. by rewrite lookup_insert_ne.
Qed.

Lemma register_other env path entries e : ∀ lists,
  e ∉ findAllTextEditorsForPath env path →
  foldl (register env path) lists entries !! e = lists !! e.
Proof.
  induction entries as [|[[d r] m] entries IH]; intros lists He; [done|].
  cbn [foldl]. rewrite IH by done. unfold register.
  destruct (codeString d); [|done].
  unfold onLinterMessageAdded. by apply addToEditor_other.
Qed.

(** X15.  A batch without diagnostics clears the file: the linters are given
    no message for it, its maps are empty, and the intentions of every
    editor open on it are gone. *)
Theorem captureDiagnostics_empty_batch (env : environment)
    (params : PublishDiagnosticsParams) (st : state) (path : string) :
  Uri.uriToPath (plat env) (uri params) = Some path →
  diagnostics params = [] →
  ∃ st',
    captureDiagnostics env params st = Some (noLocals, st') ∧
    messageStore st' = messageStore st ∧
    _diagnosticMap st' !! path = Some [] ∧
    _lsDiagnosticMap st' !! path = Some ∅ ∧
    (∃ saves, Forall (λ e, isOnDidSave e = true) saves ∧
              trace st' = trace st ++ saves ++
                          map (λ i, SetMessages i path []) (_indies st)) ∧
    ∀ lists e,
      _intentionsManager st = Some lists →
      e ∈ findAllTextEditorsForPath env path →
      ∃ lists', _intentionsManager st' = Some lists' ∧
                default emptyList (lists' !! e) = emptyList.
Proof.
  intros Hpath Hnone. unfold captureDiagnostics. rewrite Hpath, Hnone.
  cbn [mbind option_bind captureLoop foldl].
  set (editors := findAllTextEditorsForPath env path).
  pose proof (noteEditor_fold params editors st) as Hnote. cbn zeta in Hnote.
  destruct Hnote as (Hstore & Hdm & Hlm & Hindies & Hint & saves & Hsaves & Htrace).
  eexists. split; [reflexivity|]. cbn.
  split; [done|]. split; [by rewrite lookup_insert_eq|].
  split; [by rewrite lookup_insert_eq|]. split.
  { exists saves. split; [done|]. by rewrite Htrace, Hindies, <- app_assoc. }
  intros lists e Hlists He. rewrite Hint, Hlists. cbn.
  eexists. split; [done|]. by apply cleared_lookup.
Qed.

Lemma captureDiagnostics_empty_batch_witness :
  ∃ st',
    captureDiagnostics exampleEnv clearingParams exampleState
      = Some (noLocals, st') ∧
    _diagnosticMap st' !! "/proj/src/a.ts" = Some [].
Proof.
  destruct (captureDiagnostics_empty_batch exampleEnv clearingParams exampleState
              "/proj/src/a.ts") as (st' & Hrun & _ & Hmap & _).
  - by vm_compute.
  - reflexivity.
  - by exists st'.
Defined.

(** X16.  A capture for one file leaves the other files, the other editors
    and the linters alone, and the messages made earlier as they were. *)
Theorem captureDiagnostics_frame (env : environment)
    (params : PublishDiagnosticsParams) (st : state) (l : locals) (st' : state) :
  captureDiagnostics env params st = Some (l, st') →
  ∃ path,
    Uri.uriToPath (plat env) (uri params) = Some path ∧
    (∀ q, q ≠ path →
          _diagnosticMap st' !! q = _diagnosticMap st !! q ∧
          _lsDiagnosticMap st' !! q = _lsDiagnosticMap st !! q) ∧
    _indies st' = _indies st ∧
    messageStore st `prefix_of` messageStore st' ∧
    ∀ e, e ∉ findAllTextEditorsForPath env path →
         _lastDiagnosticsParamsByEditor st' !! e
           = _lastDiagnosticsParamsByEditor st !! e ∧
         ((λ lists, lists !! e) <$> _intentionsManager st')
           = ((λ lists, lists !! e) <$> _intentionsManager st).
Proof.
  intros (path & msgs & Hpath & _ & _ & ->)%captureDiagnostics_shape.
  exists path. split; [done|]. cbn. split.
  { intros q Hq. by rewrite !lookup_insert_ne. }
  split; [done|]. split; [by apply prefix_app_r|].
  intros e He. split.
  - rewrite noteEditor_last. by rewrite decide_False.
  - destruct (_intentionsManager st) as [lists|]; [|done]. cbn. f_equal.
    rewrite register_other by done. by apply cleared_other.
Qed.

Lemma captureDiagnostics_frame_witness :
  ∃ l st',
    captureDiagnostics exampleEnv exampleParams exampleState = Some (l, st') ∧
    _indies st' = [9] ∧ _diagnosticMap st' !! "/proj/src/b.ts" = None.
Proof.
  pose (res := captureDiagnostics exampleEnv exampleParams exampleState).
  assert (captureDiagnostics exampleEnv exampleParams exampleState = res)
    as E by reflexivity.
  assert ((λ _, tt) <$> res = Some tt) as Hres by (vm_compute; reflexivity).
  clearbody res. destruct res as [[l st']|]; [|discriminate Hres].
  exists l, st'. split; [exact E|].
  destruct (captureDiagnostics_frame _ _ _ _ _ E) as (path & Hpath & Hq & Hi & _).
  split; [exact Hi|].
  assert (path = "/proj/src/a.ts") as -> by (vm_compute in Hpath; congruence).
  by destruct (Hq "/proj/src/b.ts") as [-> _].
Defined.

Lemma foldl_insert_absent {K} `{Countable K} {A B} (key : A * B → K)
    (l : list (A * B)) : ∀ (m0 : gmap K A) k,
  (∀ ab, ab ∈ l → key ab ≠ k) →
  foldl (λ m ab, <[key ab := ab.1]> m) m0 l !! k = m0 !! k.
Proof.
  induction l as [|ab l IH]; intros m0 k Hk; [done|].
  cbn [foldl]. rewrite IH by (intros; apply Hk; by right).
  apply lookup_insert_ne, Hk. by left.
Qed.

Lemma foldl_insert_last {K} `{Countable K} {A B} (key : A * B → K)
    (l : list (A * B)) : ∀ (m0 : gmap K A) i ab,
  l !! i = Some ab →
  (∀ j ab', i < j → l !! j = Some ab' → key ab' ≠ key ab) →
  foldl (λ m ab, <[key ab := ab.1]> m) m0 l !! key ab = Some ab.1.
Proof.
  induction l as [|x l IH]; intros m0 i ab Hi Hlater; [done|].
  destruct i as [|i]; cbn [foldl].
  - injection Hi as ->. rewrite foldl_insert_absent; [by rewrite lookup_insert_eq|].
    intros ab' [j Hj]%list_elem_of_lookup. apply (Hlater (S j)); [lia|done].
  - apply (IH _ i); [done|]. intros j ab' Hj Hab'.
    apply (Hlater (S j)); [lia|done].
Qed.

(** X17.  After a capture, [getLSDiagnosticForMessage] gives, for a message of
    the file, only diagnostics the capture retained; and for a published
    message whose key no later message of the batch shares, the
    diagnostic the message was made of. *)
Theorem getLSDiagnosticForMessage_after_capture (env : environment)
    (params : PublishDiagnosticsParams) (st : state) (l : locals) (st' : state)
    (path : string) :
  Uri.uriToPath (plat env) (uri params) = Some path →
  captureDiagnostics env params st = Some (l, st') →
  (∀ m d, file m = path →
          (getLSDiagnosticForMessage m st').1 = Some d →
          d ∈ retainedDiagnostics l) ∧
  (∀ i r m,
     messages l !! i = Some r →
     messageStore st' !! r = Some m →
     file m = path →
     (∀ j r' m', i < j → messages l !! j = Some r' →
                 messageStore st' !! r' = Some m' → key m' ≠ key m) →
     is_Some (retainedDiagnostics l !! i) ∧
     getLSDiagnosticForMessage m st' = (retainedDiagnostics l !! i, m)).
Proof.
  intros Hpath (path' & msgs & Hpath' & Hmade & -> & ->)%captureDiagnostics_shape.
  assert (path' = path) as -> by congruence. cbn zeta in Hmade. cbn.
  set (kept := keptDiagnostics env path (diagnostics params)) in *.
  apply mapM_Some in Hmade. pose proof (Forall2_length _ _ _ Hmade) as Hlen.
  split.
  - intros m d Hfile. unfold getLSDiagnosticForMessage. cbn. rewrite Hfile.
    rewrite lookup_insert_eq. cbn. intros Hd.
    apply foldl_insert_values in Hd as [Hd|(b & Hb & _)]; [done|].
    by apply elem_of_zip_l in Hb.
  - intros i r m Hr Hm Hfile Hlater.
    apply lookup_seq in Hr as [-> Hi].
    rewrite lookup_app_r in Hm by lia.
    replace (length (messageStore st) + i - length (messageStore st)) with i
      in Hm by lia.
    destruct (lookup_lt_is_Some_2 kept i Hi) as [d Hd]. split; [by exists d|].
    rewrite Hd.
    assert (∀ j x y, kept !! j = Some x → msgs !! j = Some y →
                     key y = Some (keyOf y)) as Hkeys.
    { intros j x y Hx Hy.
      pose proof (Forall2_lookup_lr _ _ _ _ _ _ Hmade Hx Hy) as Hxy.
      unfold made in Hxy.
      destruct (lsDiagnosticToV2Message env path x); [|done].
      cbn in Hxy. injection Hxy as <-. apply key_withKey. }
    pose proof (Hkeys _ _ _ Hd Hm) as Hkey.
    unfold getLSDiagnosticForMessage. cbn. rewrite Hfile, lookup_insert_eq.
    assert (withKey m = m) as -> by (unfold withKey; by rewrite Hkey).
    f_equal.
    apply (foldl_insert_last (λ dm : Diagnostic * Message, keyOf dm.2)
             (zip kept msgs) ∅ i (d, m)).
    + apply lookup_zip_with_Some. by exists d, m.
    + intros j [d' m'] Hj Hdm.
      apply lookup_zip_with_Some in Hdm as (? & ? & [= <- <-] & Hd' & Hm').
      cbn. intros Hsame.
      apply (Hlater j (length (messageStore st) + j) m'); [done| | |].
      * apply lookup_seq. split; [done|]. by apply lookup_lt_Some in Hd'.
      * rewrite lookup_app_r by lia.
        by replace (length (messageStore st) + j - length (messageStore st))
          with j by lia.
      * rewrite (Hkeys _ _ _ Hd' Hm'), Hkey. by rewrite Hsame.
Qed.

Lemma getLSDiagnosticForMessage_after_capture_witness :
  ∃ l st' m,
    captureDiagnostics exampleEnv exampleParams exampleState = Some (l, st') ∧
    messageStore st' !! 0 = Some m ∧
    getLSDiagnosticForMessage m st' = (Some unusedVar, m).
Proof.
  pose (res := captureDiagnostics exampleEnv exampleParams exampleState).
  assert (captureDiagnostics exampleEnv exampleParams exampleState = res)
    as E by reflexivity.
  assert ((λ x, (messages x.1, retainedDiagnostics x.1,
                 (λ m, (file m, key m)) <$> messageStore x.2)) <$> res
          = Some ([0; 1], [unusedVar; noCode],
                  [("/proj/src/a.ts",
                    key (withKey (default (diagnosticToV2Message "" unusedVar)
                           (lsDiagnosticToV2Message exampleEnv "/proj/src/a.ts" unusedVar))));
                   ("/proj/src/a.ts",
                    key (withKey (default (diagnosticToV2Message "" noCode)
                           (lsDiagnosticToV2Message exampleEnv "/proj/src/a.ts" noCode))))]))
    as Hfacts by (vm_compute; reflexivity).
  clearbody res. destruct res as [[l st']|]; [|discriminate Hfacts].
  cbn in Hfacts. injection Hfacts as Hmsgs Hret Hstore.
  destruct (messageStore st') as [|m0 [|m1 [|]]] eqn:Hst; try discriminate Hstore.
  cbn in Hstore. injection Hstore as Hf0 Hk0 Hf1 Hk1.
  exists l, st', m0. split; [exact E|]. split; [by rewrite Hst|].
  destruct (getLSDiagnosticForMessage_after_capture exampleEnv exampleParams
              exampleState l st' "/proj/src/a.ts") as [_ Hget];
    [reflexivity|exact E|].
  destruct (Hget 0 0 m0) as [_ ->].
  - by rewrite Hmsgs.
  - by rewrite Hst.
  - exact Hf0.
  - intros j r' m' Hj. rewrite Hmsgs, Hst.
    destruct j as [|[|[|j]]]; [lia| |done|done].
    cbn. intros [= <-] [= <-]. rewrite Hk0, Hk1. by vm_compute.
  - by rewrite Hret.
Defined.

(** X18.  After a capture, [recaptureDiagnosticsForPath] leaves one capture of
    the same batch for each editor open on the file: none when the file
    is not open, and the batch again for each further editor. *)
Theorem recaptureDiagnosticsForPath_after_capture (env : environment)
    (params : PublishDiagnosticsParams) (st : state) (l : locals) (st' : state)
    (path : string) :
  Uri.uriToPath (plat env) (uri params) = Some path →
  captureDiagnostics env params st = Some (l, st') →
  recaptureDiagnosticsForPath env path st'
    = replicate (length (findAllTextEditorsForPath env path)) params.
Proof.
  intros Hpath (path' & msgs & Hpath' & _ & _ & ->)%captureDiagnostics_shape.
  assert (path' = path) as -> by congruence.
  unfold recaptureDiagnosticsForPath, recaptureDiagnosticsForEditor. cbn.
  set (editors := findAllTextEditorsForPath env path).
  assert (∀ es, es ⊆ editors →
            omap (λ editor,
                    _lastDiagnosticsParamsByEditor
                      (foldl (noteEditor params) st editors) !! editor) es
            = replicate (length es) params) as Hall.
  { induction es as [|e es IH]; intros Hsub; [done|]. cbn.
    rewrite noteEditor_last, decide_True by (apply Hsub; left).
    rewrite IH; [done|]. intros x Hx. apply Hsub. by right. }
  by apply Hall.
Qed.

Lemma recaptureDiagnosticsForPath_after_capture_witness :
  ∃ l st',
    captureDiagnostics exampleEnv exampleParams exampleState = Some (l, st') ∧
    recaptureDiagnosticsForPath exampleEnv "/proj/src/a.ts" st' = [exampleParams].
Proof.
  pose (res := captureDiagnostics exampleEnv exampleParams exampleState).
  assert (captureDiagnostics exampleEnv exampleParams exampleState = res)
    as E by reflexivity.
  assert ((λ _, tt) <$> res = Some tt) as Hres by (vm_compute; reflexivity).
  clearbody res. destruct res as [[l st']|]; [|discriminate Hres].
  exists l, st'. split; [exact E|].
  by rewrite (recaptureDiagnosticsForPath_after_capture exampleEnv exampleParams
                exampleState l st' "/proj/src/a.ts" eq_refl E).
Defined.

End linterqueries_facts.
(* ------------------------------------------------------------------ *)
(** ** Cancellation tokens over a sequence of requests *)
(* ------------------------------------------------------------------ *)

Section cancellation_more_facts.
Import Cancellation.
Context {W : Type}.
Implicit Types st : state W.

(** Every source [cancel] was called on reads cancelled, and no source
    is named twice. *)
Lemma refresh_cancels_once key st :
  wf st → NoDup (cancelCalls st) →
  (∀ r, r ∈ cancelCalls st → sources st !! r = Some true) →
  NoDup (cancelCalls (cancelAndRefreshCancellationToken key st).2) ∧
  ∀ r, r ∈ cancelCalls (cancelAndRefreshCancellationToken key st).2 →
       sources (cancelAndRefreshCancellationToken key st).2 !! r = Some true.
Proof.
  intros Hwf Hnd Hmarked. rewrite refresh_cancelCalls.
  assert (∀ r, r ∈ expected_cancels key st →
               tokens st !! key = Some r ∧ sources st !! r ≠ Some true) as Hexp.
  { intros r. unfold expected_cancels, isCancellationRequested.
    destruct (tokens st !! key) as [old|]; [|by intros ?%not_elem_of_nil].
    destruct (sources st !! old) as [[]|] eqn:Hold; cbn;
      [by intros ?%not_elem_of_nil| |]; intros ->%list_elem_of_singleton;
      by rewrite Hold. }
  split.
  - apply NoDup_app. split; [done|]. split.
    + intros r Hr [_ Hlive]%Hexp. by apply Hlive, Hmarked.
    + unfold expected_cancels. destruct (tokens st !! key); [|constructor].
      destruct (isCancellationRequested _ _); [constructor|apply NoDup_singleton].
  - intros r Hr. rewrite refresh_sources by done.
    apply elem_of_app in Hr as [Hr|Hr].
    + pose proof (Hmarked r Hr) as Htrue.
      pose proof (lookup_lt_Some _ _ _ Htrue).
      rewrite decide_False by lia. by case_decide.
    + apply Hexp in Hr as [Hreg _]. pose proof (Hwf _ _ Hreg). cbn in *.
      rewrite decide_False by lia. by rewrite decide_True.
Qed.

(** X23.  However many requests follow one another, for whatever keys,
    [cancel] is called at most once on a source: the calls stay without
    a repetition, every source named reads cancelled, and the calls made
    before stay at the head of the record. *)
Theorem refreshAll_cancels_once (keys : list nat) (st : state W) :
  wf st → NoDup (cancelCalls st) →
  (∀ r, r ∈ cancelCalls st → sources st !! r = Some true) →
  NoDup (cancelCalls (refreshAll keys st).2) ∧
  (∀ r, r ∈ cancelCalls (refreshAll keys st).2 →
        sources (refreshAll keys st).2 !! r = Some true) ∧
  cancelCalls st `prefix_of` cancelCalls (refreshAll keys st).2.
Proof.
  revert st. induction keys as [|key keys IH]; intros st Hwf Hnd Hmarked; [done|].
  cbn [refreshAll].
  pose proof (refresh_wf key st Hwf) as Hwf1.
  pose proof (refresh_cancels_once key st Hwf Hnd Hmarked) as [Hnd1 Hmarked1].
  pose proof (refresh_cancelCalls key st) as Hcalls.
  destruct (cancelAndRefreshCancellationToken key st) as [r st1]. cbn [snd] in *.
  specialize (IH st1 Hwf1 Hnd1 Hmarked1).
  destruct (refreshAll keys st1) as [issued st2]. cbn [snd] in *.
  destruct IH as (? & ? & Hprefix). split; [done|]. split; [done|].
  etrans; [|exact Hprefix]. rewrite Hcalls. by apply prefix_app_r.
Qed.

(** What keeps a source out of reach of [cancel]: it is allocated and
    live, no key holds it, and [cancel] was never called on it. *)
Lemma refresh_unregistered key st token :
  wf st → sources st !! token = Some false →
  (∀ k, tokens st !! k ≠ Some token) → token ∉ cancelCalls st →
  sources (cancelAndRefreshCancellationToken key st).2 !! token = Some false ∧
  (∀ k, tokens (cancelAndRefreshCancellationToken key st).2 !! k ≠ Some token) ∧
  token ∉ cancelCalls (cancelAndRefreshCancellationToken key st).2.
Proof.
  intros Hwf Hlive Hfree Hnot. pose proof (lookup_lt_Some _ _ _ Hlive).
  split; [|split].
  - rewrite refresh_sources by done. rewrite decide_False by lia.
    by rewrite decide_False by apply Hfree.
  - intros k. rewrite refresh_tokens. destruct (decide (key = k)) as [->|Hne].
    + rewrite lookup_insert_eq. intros [= ?]. lia.
    + rewrite lookup_insert_ne by done. apply Hfree.
  - rewrite refresh_cancelCalls. intros [?|Hin]%elem_of_app; [done|].
    unfold expected_cancels in Hin.
    destruct (tokens st !! key) as [old|] eqn:Hold; [|by apply not_elem_of_nil in Hin].
    destruct (isCancellationRequested st old); [by apply not_elem_of_nil in Hin|].
    apply list_elem_of_singleton in Hin as ->. by apply (Hfree key).
Qed.

Lemma refreshAll_unregistered keys token : ∀ st,
  wf st → sources st !! token = Some false →
  (∀ k, tokens st !! k ≠ Some token) → token ∉ cancelCalls st →
  sources (refreshAll keys st).2 !! token = Some false ∧
  token ∉ cancelCalls (refreshAll keys st).2.
Proof.
  induction keys as [|key keys IH]; intros st Hwf Hlive Hfree Hnot; [done|].
  cbn [refreshAll].
  pose proof (refresh_wf key st Hwf) as Hwf1.
  pose proof (refresh_unregistered key st token Hwf Hlive Hfree Hnot)
    as (Hlive1 & Hfree1 & Hnot1).
  destruct (cancelAndRefreshCancellationToken key st) as [r st1]. cbn [snd] in *.
  specialize (IH st1 Hwf1 Hlive1 Hfree1 Hnot1).
  by destruct (refreshAll keys st1) as [issued st2].
Qed.

(** X24.  The token of a request that has resolved is out of reach: the key
    has no entry, and no later request, for this key or another, calls
    [cancel] on the token; it stays live.  The work is one that leaves
    the registry alone. *)
Theorem resolved_token_never_cancelled {T : Type} (key : nat)
    (work : nat → state W → outcome T * state W) (st st' : state W) (v : T)
    (keys : list nat) :
  wf st →
  (∀ r, r ∈ cancelCalls st → r < length (sources st)) →
  (∀ token s, tokens (work token s).2 = tokens s ∧
              sources (work token s).2 = sources s ∧
              cancelCalls (work token s).2 = cancelCalls s) →
  doWithCancellationToken key work st = (Resolved v, st') →
  tokens st' !! key = None ∧
  live (refreshAll keys st').2 (length (sources st)) ∧
  length (sources st) ∉ cancelCalls (refreshAll keys st').2.
Proof.
  intros Hwf Hcalls Hframe. unfold doWithCancellationToken.
  pose proof (refresh_wf key st Hwf) as Hwf1.
  pose proof (refresh_tokens key st) as Htokens.
  pose proof (refresh_token_fresh key st) as Htoken.
  pose proof (refresh_cancelCalls key st) as Hcancel.
  pose proof (refresh_sources key st (length (sources st)) Hwf) as Hsrc.
  pose proof (refresh_length key st) as Hlen.
  rewrite decide_True in Hsrc by done.
  destruct (cancelAndRefreshCancellationToken key st) as [token st1].
  cbn [fst snd] in *. subst token.
  destruct (Hframe (length (sources st)) st1) as (Ht2 & Hs2 & Hc2).
  destruct (work (length (sources st)) st1) as [[result|err] st2]; [|done].
  intros [= <- <-]. cbn [fst snd] in *.
  split; [apply lookup_delete_eq|].
  apply refreshAll_unregistered; unfold wf, deleteToken; cbn.
  - intros k r. rewrite Hs2, Ht2, Hlen. destruct (decide (key = k)) as [->|Hne].
    + by rewrite lookup_delete_eq.
    + rewrite lookup_delete_ne by done. intros Hk%Hwf1. cbn in Hk. lia.
  - by rewrite Hs2.
  - intros k. rewrite Ht2, Htokens. destruct (decide (key = k)) as [->|Hne].
    + by rewrite lookup_delete_eq.
    + rewrite lookup_delete_ne, lookup_insert_ne by done.
      intros Hk%Hwf. cbn in Hk. lia.
  - rewrite Hc2, Hcancel. intros [Hin%Hcalls|Hin]%elem_of_app; [lia|].
    unfold expected_cancels in Hin.
    destruct (tokens st !! key) as [old|] eqn:Hold; [|by apply not_elem_of_nil in Hin].
    destruct (isCancellationRequested st old); [by apply not_elem_of_nil in Hin|].
    apply list_elem_of_singleton in Hin. apply Hwf in Hold. cbn in Hold. lia.
Qed.

End cancellation_more_facts.

Lemma refreshAll_cancels_once_witness :
  Cancellation.cancelCalls
    (Cancellation.refreshAll [7; 3; 7] Cancellation.example_state).2 = [1; 0; 2] ∧
  NoDup (Cancellation.cancelCalls
           (Cancellation.refreshAll [7; 3; 7] Cancellation.example_state).2).
Proof.
  split; [reflexivity|].
  apply (refreshAll_cancels_once [7; 3; 7] Cancellation.example_state).
  - apply map_Forall_singleton. cbn. lia.
  - apply NoDup_singleton.
  - intros r ->%list_elem_of_singleton. reflexivity.
Defined.

Lemma resolved_token_never_cancelled_witness :
  2 ∉ Cancellation.cancelCalls
        (Cancellation.refreshAll [7; 7]
           (Cancellation.doWithCancellationToken 7 (λ _ s, (Resolved tt, s))
              Cancellation.example_state).2).2.
Proof.
  apply (resolved_token_never_cancelled 7 (λ _ s, (Resolved tt, s))
           Cancellation.example_state _ tt [7; 7]).
  - apply map_Forall_singleton. cbn. lia.
  - intros r ->%list_elem_of_singleton. cbn. lia.
  - done.
  - reflexivity.
Defined.
(* ------------------------------------------------------------------ *)
(** ** Applying text edits to one buffer, and a workspace edit that
       succeeds *)
(* ------------------------------------------------------------------ *)

Section applyedit_more_facts.
Import ApplyEdit.
Context {FS Text : Type} `{!FileSystem FS} `{!TextModel FS Text}.
Variable plat : Uri.platform.

Implicit Types (b : TextBuffer Text) (w : world FS Text)
         (edits : list Convert.TextEdit).

Lemma insertEdit_perm (e : Convert.TextEdit) sorted :
  insertEdit e sorted ≡ₚ e :: sorted.
Proof.
  induction sorted as [|x rest IH]; [done|]. cbn.
  destruct (_ <? 0)%Z; [done|]. rewrite IH. apply Permutation_swap.
Qed.

Lemma sortEdits_perm edits : sortEdits edits ≡ₚ edits.
Proof.
  unfold sortEdits. etrans; [|symmetry; apply Permutation_rev].
  induction (rev edits) as [|e l IH]; [done|]. cbn.
  by rewrite insertEdit_perm, IH.
Qed.

(** The changes of a run of the [reduce] that returns: one for each
    edit, each edit ending where the one before it begins, or before. *)
Lemma applySorted_returned edits : ∀ marked made previous b u b',
  applySorted marked made previous edits b = (Returned u, b') →
  (∃ top, undoStack b' = top ++ undoStack b ∧ length top = length edits) ∧
  ∀ i prev cur,
    (option_list previous ++ edits) !! i = Some prev →
    (option_list previous ++ edits) !! S i = Some cur →
    (Atom.Point_compare (Atom.end_ (Convert.oldRange cur))
                        (Atom.start (Convert.oldRange prev)) ≤ 0)%Z.
Proof.
  induction edits as [|current rest IH]; intros marked made previous b u b' Hrun.
  { injection Hrun as _ <-. split; [by exists []|].
    intros i prev cur Hi HS. rewrite app_nil_r in *.
    destruct previous; destruct i; done. }
  cbn [applySorted] in Hrun.
  destruct (validateEdit b current previous) as [msg|] eqn:Hvalid; [done|].
  apply IH in Hrun as [(top & Hstack & Hlen) Hchain]. split.
  { exists (top ++ [Transaction (text b)]). cbn in Hstack.
    rewrite Hstack, <- app_assoc, length_app. cbn. split; [done|lia]. }
  intros i prev cur Hi HS. destruct previous as [p|]; [|by apply (Hchain i)].
  destruct i as [|i]; [|by apply (Hchain i)].
  cbn in Hi, HS. injection Hi as <-. injection HS as <-.
  unfold validateEdit in Hvalid.
  destruct (0 <? _)%Z eqn:Hcmp; [done|]. by apply Z.ltb_ge in Hcmp.
Qed.

(** What the [reduce] throws is one of the two errors of
    [validateEdit], about the path of the buffer. *)
Lemma applySorted_thrown edits : ∀ marked made previous b message b',
  applySorted marked made previous edits b = (Thrown message, b') →
  message = "Found overlapping edit ranges in " +:+ getPath b ∨
  ∃ rest, message = "Out of range edit on " +:+ getPath b +:+ ":" +:+ rest.
Proof.
  induction edits as [|current rest IH]; intros marked made previous b message b' Hrun;
    [done|].
  cbn [applySorted] in Hrun.
  destruct (validateEdit b current previous) as [msg|] eqn:Hvalid.
  - injection Hrun as <- <-. unfold validateEdit in Hvalid.
    destruct (match previous with Some _ => _ | None => _ end).
    + injection Hvalid as <-. by left.
    + destruct (lineLength _ _); [done|]. injection Hvalid as <-.
      right. by eexists.
  - by apply IH in Hrun.
Qed.

(** X19.  When [applyEdits] throws, the buffer of the editor has the text and
    the undo stack it had at the call; the other buffers, the file
    system and the notifications are as they were; and the error is one
    of the two of [validateEdit]. *)
Theorem applyEdits_throw_restores (editor : string) (b : TextBuffer Text)
    (edits : list Convert.TextEdit) (w w' : world FS Text) (message : string) :
  applyEdits editor b edits w = (Thrown message, w') →
  (∃ b', buffers w' !! editor = Some b' ∧
         text b' = text b ∧ undoStack b' = undoStack b ∧ getPath b' = getPath b) ∧
  (∀ other, other ≠ editor → buffers w' !! other = buffers w !! other) ∧
  fs w' = fs w ∧ notifications w' = notifications w ∧
  (message = "Found overlapping edit ranges in " +:+ getPath b ∨
   ∃ rest, message = "Out of range edit on " +:+ getPath b +:+ ":" +:+ rest).
Proof.
  intros Hrun.
  pose proof (applyEdits_buffer _ _ _ _ _ _ Hrun) as (Hfs & Hns & b' & Hbs & ->).
  split; [|split; [|split; [done|split; [done|]]]].
  - eexists. by rewrite Hbs, lookup_insert_eq.
  - intros other Hne. by rewrite Hbs, lookup_insert_ne.
  - unfold applyEdits, createCheckpoint in Hrun.
    destruct (applySorted _ _ _ _ _) as [[[]|msg] b1] eqn:Hsorted; [done|].
    injection Hrun as <- _. by apply applySorted_thrown in Hsorted.
Qed.

(** X20.  When [applyEdits] returns, the undo stack of the buffer has grown by
    the checkpoint and, above it, by one change for all the edits
    together, which undoes to the text at the call; without edits, by
    the checkpoint alone. *)
Theorem applyEdits_one_undo_step (editor : string) (b : TextBuffer Text)
    (edits : list Convert.TextEdit) (w w' : world FS Text) (checkpoint : nat) :
  applyEdits editor b edits w = (Returned checkpoint, w') →
  ∃ b', buffers w' !! editor = Some b' ∧
        checkpoint = nextCheckpointId b ∧
        undoStack b' =
          match edits with
          | [] => [Checkpoint checkpoint]
          | _ :: _ => [Transaction (text b); Checkpoint checkpoint]
          end ++ undoStack b ∧
        (edits = [] → text b' = text b).
Proof.
  unfold applyEdits, createCheckpoint. intros Hrun.
  destruct (findOrCreateMarkerLayerForEditor_frame editor w) as (_ & Hbs & _).
  destruct (applySorted _ _ _ _ _) as [[[]|msg] b1] eqn:Hsorted; [|done].
  pose proof (applySorted_stack _ _ _ _ _ _ _ Hsorted)
    as (top & Hstack & Htop & Htext & _).
  apply applySorted_returned in Hsorted as [(top' & Hstack' & Hlen) _].
  assert (top' = top) as -> by (rewrite Hstack in Hstack'; by apply app_inv_tail in Hstack').
  cbn in Hstack, Htext. injection Hrun as <- <-. cbn.
  rewrite lookup_insert_eq. eexists. split; [done|]. split; [done|].
  unfold groupChangesSinceCheckpoint.
  rewrite Hstack, sinceCheckpoint_transactions by done. cbn.
  destruct (decide _) as [_|]; [|done]. cbn. rewrite app_nil_r.
  pose proof (Permutation_length (sortEdits_perm edits)) as Hsorted.
  rewrite Htext.
  destruct edits as [|e edits].
  - destruct top; [|done]. cbn. by rewrite Hstack.
  - destruct top as [|t top]; [cbn in *; lia|].
    apply Forall_cons in Htop as [Ht _]. cbn. rewrite Ht. by cbn.
Qed.

(** X21.  When [applyEdits] returns, the edits were made in an order in which
    each ends where the one made before it begins, or before: through
    the text backward, and no two overlapping. *)
Theorem applyEdits_returned_backward (editor : string) (b : TextBuffer Text)
    (edits : list Convert.TextEdit) (w w' : world FS Text) (checkpoint : nat) :
  applyEdits editor b edits w = (Returned checkpoint, w') →
  sortEdits edits ≡ₚ edits ∧
  ∀ i previous current,
    sortEdits edits !! i = Some previous →
    sortEdits edits !! S i = Some current →
    (Atom.Point_compare (Atom.end_ (Convert.oldRange current))
                        (Atom.start (Convert.oldRange previous)) ≤ 0)%Z.
Proof.
  unfold applyEdits, createCheckpoint. intros Hrun.
  split; [apply sortEdits_perm|].
  destruct (applySorted _ _ _ _ _) as [[[]|msg] b1] eqn:Hsorted; [|done].
  by apply applySorted_returned in Hsorted as [_ Hchain].
Qed.

Lemma lookup_all {A} (l : list A) :
  omap (λ i, l !! i) (seq 0 (length l)) = l.
Proof.
  induction l as [|x l IH]; [done|].
  cbn [length seq omap list_omap lookup list_lookup].
  rewrite <- fmap_S_seq. f_equal.
  rewrite <- IH at 2. clear IH. induction (seq 0 (length l)) as [|i s IHs]; [done|].
  cbn. rewrite IHs. done.
Qed.

(** X22.  When every promise has resolved, [apply] answers [applied = true]
    without a notification; every entry of [documentChanges] was
    performed: the file system is as the resource operations left it, in
    the order they settled; a buffer no text document edit names has the
    text it had at the call; and a buffer one names can be reverted, at
    its first checkpoint, to the text it had at the call or was opened
    with. *)
Theorem apply_success (workspaceEdit : WorkspaceEdit) (order : list nat)
    (w w' : world FS Text) :
  map_Forall (λ _ b, wfBuffer b) (buffers w) →
  order ≡ₚ seq 0 (length (normalize workspaceEdit)) →
  apply plat workspaceEdit order w = (true, w') →
  ∃ settled checkpoints,
    settled ≡ₚ normalize workspaceEdit ∧
    settleAll plat settled [] w = (None, checkpoints, w') ∧
    map fst checkpoints = omap (editedPath plat) settled ∧
    notifications w' = notifications w ∧
    fs w' = resourceEffects plat settled (fs w) ∧
    (∀ path, is_Some (buffers w !! path) → is_Some (buffers w' !! path)) ∧
    (∀ path b', buffers w' !! path = Some b' →
       match checkpointsOf path checkpoints with
       | [] => original w path (text b')
       | first :: _ =>
           (revertToCheckpoint first b').1 = true ∧
           original w path (text (revertToCheckpoint first b').2)
       end) ∧
    (∀ path, path ∈ omap (editedPath plat) settled → is_Some (buffers w' !! path)).
Proof.
  intros Hwf Horder. unfold apply.
  set (settled := omap (λ i, normalize workspaceEdit !! i) order).
  destruct (settleAll plat settled [] w) as [[[reason|] cps] w1] eqn:Hall; [done|].
  intros [= <-]. exists settled, cps.
  pose proof (settleAll_resolved plat _ _ _ _ _ _ (invariant_initial w Hwf) Hall)
    as (Hinv & Hns & Hfs & Hcps).
  split.
  { unfold settled. etrans; [by apply omap_Permutation|]. by rewrite lookup_all. }
  split; [done|]. split; [done|]. split; [done|]. split; [done|].
  split; [|split].
  - intros path [b0 Hb0]. specialize (Hinv path).
    destruct (buffers w1 !! path); [done|]. destruct Hinv as [Hnone _]. congruence.
  - intros path b' Hb'. specialize (Hinv path). rewrite Hb' in Hinv.
    destruct Hinv as (_ & t0 & Horig & Hinv).
    destruct (checkpointsOf path cps) as [|first more]; [by rewrite Hinv|].
    destruct Hinv as (above & below & Hsince & Htext & _).
    unfold revertToCheckpoint. rewrite Hsince. cbn. split; [done|]. by rewrite Htext.
  - intros path Hpath.
    assert (map fst cps = omap (editedPath plat) settled) as Hcps' by exact Hcps.
    rewrite <- Hcps' in Hpath.
    apply list_elem_of_fmap in Hpath as ([q c] & -> & Hin). cbn.
    specialize (Hinv q). destruct (buffers w1 !! q); [done|].
    destruct Hinv as [_ Hnil]. unfold checkpointsOf in Hnil.
    apply fmap_nil_inv in Hnil.
    assert ((q, c) ∈ List.filter (λ bc : string * nat, bool_decide (bc.1 = q)) cps)
      as Hq.
    { apply list_elem_of_In, filter_In. split; [by apply list_elem_of_In|].
      by apply bool_decide_eq_true_2. }
    rewrite Hnil in Hq. by apply not_elem_of_nil in Hq.
Qed.

End applyedit_more_facts.

Lemma applyEdits_throw_restores_witness :
  ∃ b w',
    ApplyEdit.buffers ApplyEdit.exampleWorld !! "/proj/a.ts" = Some b ∧
    ApplyEdit.applyEdits "/proj/a.ts" b
      [Convert.mkTextEdit (Atom.mkRange (Atom.mkPoint 0 0) (Atom.mkPoint 0 5)) "a";
       Convert.mkTextEdit (Atom.mkRange (Atom.mkPoint 0 3) (Atom.mkPoint 0 8)) "b"]
      ApplyEdit.exampleWorld
      = (ApplyEdit.Thrown "Found overlapping edit ranges in /proj/a.ts", w') ∧
    ApplyEdit.text <$> ApplyEdit.buffers w' !! "/proj/a.ts"
      = Some ApplyEdit.exampleText.
Proof.
  set (b := ApplyEdit.Buffer "/proj/a.ts" ApplyEdit.exampleText [] 0).
  set (edits :=
    [Convert.mkTextEdit (Atom.mkRange (Atom.mkPoint 0 0) (Atom.mkPoint 0 5)) "a";
     Convert.mkTextEdit (Atom.mkRange (Atom.mkPoint 0 3) (Atom.mkPoint 0 8)) "b"]).
  pose (res := ApplyEdit.applyEdits "/proj/a.ts" b edits ApplyEdit.exampleWorld).
  assert (ApplyEdit.applyEdits "/proj/a.ts" b edits ApplyEdit.exampleWorld = res)
    as E by reflexivity.
  assert (res.1 = ApplyEdit.Thrown "Found overlapping edit ranges in /proj/a.ts")
    as Hres by (vm_compute; reflexivity).
  clearbody res. destruct res as [r w']. cbn in Hres. subst r.
  exists b, w'. split; [reflexivity|]. split; [exact E|].
  destruct (applyEdits_throw_restores _ _ _ _ _ _ E) as ((b' & -> & Htext & _) & _).
  cbn. by rewrite Htext.
Defined.

Lemma applyEdits_one_undo_step_witness :
  ∃ b w' b',
    ApplyEdit.buffers ApplyEdit.exampleWorld !! "/proj/a.ts" = Some b ∧
    ApplyEdit.applyEdits "/proj/a.ts" b
      [Convert.mkTextEdit (Atom.mkRange (Atom.mkPoint 0 4) (Atom.mkPoint 0 5)) "y";
       Convert.mkTextEdit (Atom.mkRange (Atom.mkPoint 1 0) (Atom.mkPoint 1 0)) "// ok"]
      ApplyEdit.exampleWorld
      = (ApplyEdit.Returned 0, w') ∧
    ApplyEdit.buffers w' !! "/proj/a.ts" = Some b' ∧
    ApplyEdit.undoStack b'
      = [ApplyEdit.Transaction ApplyEdit.exampleText; ApplyEdit.Checkpoint 0].
Proof.
  set (b := ApplyEdit.Buffer "/proj/a.ts" ApplyEdit.exampleText [] 0).
  set (edits :=
    [Convert.mkTextEdit (Atom.mkRange (Atom.mkPoint 0 4) (Atom.mkPoint 0 5)) "y";
     Convert.mkTextEdit (Atom.mkRange (Atom.mkPoint 1 0) (Atom.mkPoint 1 0)) "// ok"]).
  pose (res := ApplyEdit.applyEdits "/proj/a.ts" b edits ApplyEdit.exampleWorld).
  assert (ApplyEdit.applyEdits "/proj/a.ts" b edits ApplyEdit.exampleWorld = res)
    as E by reflexivity.
  assert (res.1 = ApplyEdit.Returned 0) as Hres by (vm_compute; reflexivity).
  clearbody res. destruct res as [r w']. cbn in Hres. subst r.
  destruct (applyEdits_one_undo_step _ _ _ _ _ _ E) as (b' & Hb' & _ & Hstack & _).
  exists b, w', b'. split; [reflexivity|]. split; [exact E|]. split; [exact Hb'|].
  exact Hstack.
Defined.

Lemma applyEdits_returned_backward_witness :
  ∃ b w',
    ApplyEdit.buffers ApplyEdit.exampleWorld !! "/proj/a.ts" = Some b ∧
    ApplyEdit.applyEdits "/proj/a.ts" b
      [Convert.mkTextEdit (Atom.mkRange (Atom.mkPoint 0 4) (Atom.mkPoint 0 5)) "y";
       Convert.mkTextEdit (Atom.mkRange (Atom.mkPoint 1 0) (Atom.mkPoint 1 0)) "// ok"]
      ApplyEdit.exampleWorld
      = (ApplyEdit.Returned 0, w') ∧
    ApplyEdit.sortEdits
      [Convert.mkTextEdit (Atom.mkRange (Atom.mkPoint 0 4) (Atom.mkPoint 0 5)) "y";
       Convert.mkTextEdit (Atom.mkRange (Atom.mkPoint 1 0) (Atom.mkPoint 1 0)) "// ok"]
    ≡ₚ [Convert.mkTextEdit (Atom.mkRange (Atom.mkPoint 0 4) (Atom.mkPoint 0 5)) "y";
        Convert.mkTextEdit (Atom.mkRange (Atom.mkPoint 1 0) (Atom.mkPoint 1 0)) "// ok"].
Proof.
  set (b := ApplyEdit.Buffer "/proj/a.ts" ApplyEdit.exampleText [] 0).
  set (edits :=
    [Convert.mkTextEdit (Atom.mkRange (Atom.mkPoint 0 4) (Atom.mkPoint 0 5)) "y";
     Convert.mkTextEdit (Atom.mkRange (Atom.mkPoint 1 0) (Atom.mkPoint 1 0)) "// ok"]).
  pose (res := ApplyEdit.applyEdits "/proj/a.ts" b edits ApplyEdit.exampleWorld).
  assert (ApplyEdit.applyEdits "/proj/a.ts" b edits ApplyEdit.exampleWorld = res)
    as E by reflexivity.
  assert (res.1 = ApplyEdit.Returned 0) as Hres by (vm_compute; reflexivity).
  clearbody res. destruct res as [r w']. cbn in Hres. subst r.
  exists b, w'. split; [reflexivity|]. split; [exact E|].
  exact (proj1 (applyEdits_returned_backward _ _ _ _ _ _ E)).
Defined.

Lemma apply_success_witness :
  ∃ w',
    ApplyEdit.apply Uri.posix
      (ApplyEdit.mkWorkspaceEdit
         (Some [ApplyEdit.CreateFile "file:///proj/new.ts" None;
                ApplyEdit.TextDocumentEdit "file:///proj/a.ts"
                  [Lsp.mkTextEdit (ApplyEdit.lsRange 0 4 0 5) "y"]])
         None)
      [1; 0] ApplyEdit.exampleWorld = (true, w') ∧
    ApplyEdit.notifications w' = [] ∧
    is_Some (ApplyEdit.buffers w' !! "/proj/a.ts").
Proof.
  set (edit := ApplyEdit.mkWorkspaceEdit _ _).
  pose (res := ApplyEdit.apply Uri.posix edit [1; 0] ApplyEdit.exampleWorld).
  assert (ApplyEdit.apply Uri.posix edit [1; 0] ApplyEdit.exampleWorld = res)
    as E by reflexivity.
  assert (res.1 = true) as Hres by (vm_compute; reflexivity).
  clearbody res. destruct res as [applied w']. cbn in Hres. subst applied.
  exists w'. split; [exact E|].
  destruct (apply_success Uri.posix edit [1; 0] ApplyEdit.exampleWorld w')
    as (settled & cps & _ & _ & _ & Hns & _ & Hdom & _).
  - apply map_Forall_insert_2; [by apply Forall_nil|apply map_Forall_empty].
  - apply Permutation_swap.
  - exact E.
  - split; [exact Hns|]. apply Hdom. by eexists.
Defined.
(* ------------------------------------------------------------------ *)
(** ** The order of the suggestions, and the trigger of a request *)
(* ------------------------------------------------------------------ *)

Section autocomplete_more_facts.
Import Autocomplete Triggers.
Variable localeCompare : string → string → Z.

Implicit Types (item : CompletionItem) (items sorted : list CompletionItem).

(** [y] does not sort before [x]. *)
Local Abbreviation notBefore x y :=
  (¬ (localeCompare (sortKey y) (sortKey x) < 0)%Z).

Lemma insertSorted_perm item sorted :
  insertSorted localeCompare item sorted ≡ₚ item :: sorted.
Proof.
  induction sorted as [|x rest IH]; [done|]. cbn.
  destruct (_ <? 0)%Z; [done|]. rewrite IH. apply Permutation_swap.
Qed.

Lemma sortItems_perm items : sortItems localeCompare items ≡ₚ items.
Proof.
  unfold sortItems. etrans; [|symmetry; apply Permutation_rev].
  induction (rev items) as [|e l IH]; [done|]. cbn.
  by rewrite insertSorted_perm, IH.
Qed.

(** The comparison is consistent, as [Array.prototype.sort] asks: the
    sign of a comparison is the opposite of the sign of the converse,
    and "not after" is transitive. *)
Section ordered.
Hypothesis sign : ∀ a b,
  (localeCompare a b < 0)%Z ↔ (0 < localeCompare b a)%Z.
Hypothesis order : ∀ a b c,
  (localeCompare a b ≤ 0)%Z → (localeCompare b c ≤ 0)%Z → (localeCompare a c ≤ 0)%Z.

Lemma asymmetric a b :
  (localeCompare a b < 0)%Z → ¬ (localeCompare b a < 0)%Z.
Proof. intros H%sign. lia. Qed.

Lemma transitive a b c :
  (localeCompare a b < 0)%Z → (localeCompare b c < 0)%Z → (localeCompare a c < 0)%Z.
Proof.
  intros Hab Hbc.
  pose proof (order a b c ltac:(lia) ltac:(lia)) as Hac.
  destruct (Z.eq_dec (localeCompare a c) 0%Z) as [Hzero|]; [|lia].
  pose proof (sign c a) as Hca. pose proof (sign a c) as Hac'.
  pose proof (order c a b ltac:(lia) ltac:(lia)) as Hcb.
  apply sign in Hbc. lia.
Qed.

Lemma insertSorted_ordered item sorted :
  (∀ l1 x l2, sorted = l1 ++ x :: l2 → Forall (λ y, notBefore x y) l2) →
  ∀ l1 x l2, insertSorted localeCompare item sorted = l1 ++ x :: l2 →
             Forall (λ y, notBefore x y) l2.
Proof.
  induction sorted as [|s rest IH]; intros Hinv l1 x l2 Heq.
  { destruct l1 as [|? [|]]; [|done..]. injection Heq as <- <-. constructor. }
  cbn in Heq. destruct (Z.ltb_spec (localeCompare (sortKey item) (sortKey s)) 0)
    as [Hlt|Hge].
  - destruct l1 as [|a l1].
    + injection Heq as <- <-. constructor; [by apply asymmetric|].
      eapply Forall_impl; [apply (Hinv [] s rest eq_refl)|]. cbn.
      intros z Hz Hbefore. apply Hz. by eapply transitive.
    + injection Heq as <- Heq. by apply (Hinv l1 x l2).
  - destruct l1 as [|a l1].
    + injection Heq as <- <-.
      rewrite insertSorted_perm. constructor; [lia|].
      apply (Hinv [] s rest eq_refl).
    + injection Heq as <- Heq. apply (IH (λ l1 x l2 E, Hinv (s :: l1) x l2 (f_equal (cons s) E)) l1 x l2 Heq).
Qed.

Lemma sortItems_ordered items :
  ∀ l1 x l2, sortItems localeCompare items = l1 ++ x :: l2 →
             Forall (λ y, notBefore x y) l2.
Proof.
  unfold sortItems. induction (rev items) as [|e l IH]; cbn.
  - intros [|? ?] ? ? ?; done.
  - by apply insertSorted_ordered.
Qed.

(** X25.  The map [completionItemsToSuggestions] makes has one entry for each
    item of the response, none of them resolved, in the order of the
    keys [sortText || label]: no item comes after one it sorts before.
    The suggestion of an entry is a new object, the conversion of the
    item of the entry.  The comparison is a consistent one. *)
Theorem completionItemsToSuggestions_ordered (completions : CompletionResponse)
    (request : Request) (apiVersion : Q) (shouldReplace : bool)
    (onDidConvertCompletionItem : option CompletionItemAdjuster) (st : state) :
  let result :=
    completionItemsToSuggestions localeCompare completions request apiVersion
      shouldReplace onDidConvertCompletionItem st in
  map (λ e, prCompletionItem e.2) result.1 ≡ₚ completionsArray completions ∧
  (∀ before x between y after,
     map (λ e, prCompletionItem e.2) result.1
       = before ++ x :: between ++ y :: after →
     notBefore x y) ∧
  Forall (λ e, isResolved e.2 = false) result.1 ∧
  ∀ r pr, (r, pr) ∈ result.1 →
    suggestions (Cancellation.world st) !! r = None ∧
    suggestions (Cancellation.world result.2) !! r
      = Some (completionItemToSuggestion (prCompletionItem pr) emptySuggestion
                request apiVersion shouldReplace onDidConvertCompletionItem).
Proof.
  unfold completionItemsToSuggestions. cbn zeta.
  change (match completions with
          | ItemArray items => items
          | CompletionList _ items => items
          | NoCompletions => []
          end) with (completionsArray completions).
  set (items := completionsArray completions).
  set (sorted := sortItems localeCompare items).
  set (next := length (suggestions (Cancellation.world st))).
  cbn [fst snd].
  assert (map (λ e : nat * PossiblyResolvedCompletionItem, prCompletionItem e.2)
            (zip (seq next (length sorted))
               (map (λ item, Build_PossiblyResolvedCompletionItem item false) sorted))
          = sorted) as Hitems.
  { rewrite <- (map_map snd prCompletionItem), snd_zip
      by (rewrite length_seq, length_map; lia).
    rewrite map_map. cbn. apply map_id. }
  rewrite Hitems. split; [apply sortItems_perm|]. split.
  { intros before x between y after Heq.
    pose proof (sortItems_ordered items before x _ Heq) as Hall.
    apply Forall_app in Hall as [_ Hall]. by apply Forall_cons in Hall as [Hy _]. }
  split.
  { apply Forall_forall. intros [r pr] Hin. apply elem_of_zip_r in Hin.
    by apply list_elem_of_fmap in Hin as (item & -> & _). }
  intros r pr Hin.
  apply list_elem_of_lookup in Hin as [i Hi].
  apply lookup_zip_with_Some in Hi as (r' & pr' & [= <- <-] & Hr & Hpr).
  apply lookup_seq in Hr as [-> Hlt].
  rewrite list_lookup_fmap in Hpr.
  destruct (sorted !! i) as [item|] eqn:Hitem; [|done]. injection Hpr as <-. cbn.
  split; [apply lookup_ge_None_2; unfold next; lia|].
  rewrite lookup_app_r by (unfold next; lia).
  replace (next + i - length (suggestions (Cancellation.world st))) with i
    by (unfold next; lia).
  unfold convertItems. fold items. fold sorted.
  by rewrite list_lookup_fmap, Hitem.
Qed.

End ordered.

(** *** The trigger character *)

Lemma endsWith_length s t :
  endsWith s t = true → String.length t ≤ String.length s.
Proof. unfold endsWith. intros [H _]%andb_true_iff. by apply Nat.leb_le in H. Qed.

(** X26.  [getTriggerCharacter] answers with the first of the trigger
    characters that ends the prefix or stands just before it, and tells
    which of the two.  In the second case the trigger point that
    [getOrBuildSuggestions] computes is on the line, and the text from it
    to the prefix is the trigger character; in the first the trigger
    character is no longer than the prefix.  Without such a character
    the answer is the empty string. *)
Theorem getTriggerCharacter_first_match (request : Request)
    (triggerChars : list string) :
  let found := getTriggerCharacter request triggerChars in
  let atPrefix :=
    Atom.mkPoint (Atom.row (bufferPosition request)) (prefixStartColumn request) in
  (∃ skipped rest,
     triggerChars = skipped ++ found.1 :: rest ∧
     Forall (λ t, endsWith (prefix request) t = false ∧
                  ¬ ((0 ≤ Atom.column (computeTriggerPoint request t false))%Z ∧
                     getTextInBufferRange (editor request)
                       (computeTriggerPoint request t false) atPrefix = t))
            skipped ∧
     if found.2
     then endsWith (prefix request) found.1 = true ∧
          String.length found.1 ≤ String.length (prefix request)
     else endsWith (prefix request) found.1 = false ∧
          (0 ≤ Atom.column (computeTriggerPoint request found.1 false))%Z ∧
          getTextInBufferRange (editor request)
            (computeTriggerPoint request found.1 false) atPrefix = found.1) ∨
  (found = ("", false) ∧
   Forall (λ t, endsWith (prefix request) t = false ∧
                ¬ ((0 ≤ Atom.column (computeTriggerPoint request t false))%Z ∧
                   getTextInBufferRange (editor request)
                     (computeTriggerPoint request t false) atPrefix = t))
          triggerChars).
Proof.
  cbn zeta.
  assert (∀ t, computeTriggerPoint request t false
               = Atom.mkPoint (Atom.row (bufferPosition request))
                   (prefixStartColumn request - Z.of_nat (String.length t))%Z)
    as Hpoint.
  { intros t. unfold computeTriggerPoint, prefixStartColumn.
    by rewrite andb_false_r. }
  induction triggerChars as [|t rest IH]; [by right|].
  cbn [getTriggerCharacter].
  destruct (endsWith (prefix request) t) eqn:Hends.
  { left. exists [], rest. split; [done|]. split; [constructor|]. cbn.
    split; [done|]. by apply endsWith_length. }
  destruct (_ && _) eqn:Hbefore.
  { left. exists [], rest. split; [done|]. split; [constructor|]. cbn [fst snd].
    apply andb_true_iff in Hbefore as [Hfits Htext].
    apply Z.leb_le in Hfits. apply String.eqb_eq in Htext.
    rewrite !Hpoint. cbn [Atom.column]. split; [done|]. split; [lia|done]. }
  assert (¬ ((0 ≤ Atom.column (computeTriggerPoint request t false))%Z ∧
             getTextInBufferRange (editor request)
               (computeTriggerPoint request t false)
               (Atom.mkPoint (Atom.row (bufferPosition request))
                  (prefixStartColumn request)) = t)) as Hskip.
  { rewrite Hpoint. cbn [Atom.column]. intros [Hfits Htext].
    apply andb_false_iff in Hbefore as [Hno|Hno].
    - apply Z.leb_gt in Hno. lia.
    - apply String.eqb_neq in Hno. done. }
  destruct IH as [(skipped & rest' & Hrest & Hskipped & Hfound)|[Hnone Hall]].
  - left. exists (t :: skipped), rest'. split; [cbn; f_equal; exact Hrest|].
    split; [|done]. by constructor.
  - right. split; [done|]. by constructor.
Qed.

(** A dot before the prefix is found, and is not part of the prefix. *)
Example getTriggerCharacter_dotted :
  getTriggerCharacter dottedRequest [":"; "."] = (".", false) ∧
  shouldTrigger dottedRequest "." 3 = true ∧
  shouldTrigger dottedRequest "" 3 = false.
Proof. done. Qed.

End autocomplete_more_facts.

Lemma completionItemsToSuggestions_ordered_witness :
  map (λ e, Autocomplete.label (Autocomplete.prCompletionItem e.2))
    (Autocomplete.completionItemsToSuggestions Autocomplete.byLength
       (Autocomplete.ItemArray
          [Autocomplete.exampleItem;
           Autocomplete.Build_CompletionItem "foo" None None None None None None
             None None])
       Autocomplete.firstRequest (Qmake 5 1) false None Autocomplete.emptyState).1
    = ["foo"; "foobar"] ∧
  Forall (λ e, Autocomplete.isResolved e.2 = false)
    (Autocomplete.completionItemsToSuggestions Autocomplete.byLength
       (Autocomplete.ItemArray
          [Autocomplete.exampleItem;
           Autocomplete.Build_CompletionItem "foo" None None None None None None
             None None])
       Autocomplete.firstRequest (Qmake 5 1) false None Autocomplete.emptyState).1.
Proof.
  split; [reflexivity|].
  apply (completionItemsToSuggestions_ordered Autocomplete.byLength);
    unfold Autocomplete.byLength; lia.
Defined.
(* ------------------------------------------------------------------ *)
(** ** The URI of a file path *)
(* ------------------------------------------------------------------ *)

Section uri_more_facts.
Import Uri.

(** What [pathToUri] makes of a character is ASCII and has none of
    [#], [?], the backslash and the space. *)
Lemma escapeChar_safe c :
  forallb (λ x, (code x <? 128)%N && negb (isOneOf "#?\ " x)) (escapeChar c) = true.
Proof. destruct c as [[] [] [] [] [] [] [] []]; vm_compute; reflexivity. Qed.

Lemma escapePath_safe s :
  forallb (λ x, (code x <? 128)%N && negb (isOneOf "#?\ " x)) (escapePath s) = true.
Proof.
  induction s as [|c s IH]; [done|].
  change (escapePath (c :: s)) with (escapeChar c ++ escapePath s).
  by rewrite forallb_app, escapeChar_safe, IH.
Qed.

(** X27.  When [pathToUri] returns something else than its argument, what it
    returns begins with [file:///], is ASCII, and has no [#], no [?], no
    backslash and no space. *)
Theorem pathToUri_file_uri (plat : platform) (filePath uri : string) :
  pathToUri plat filePath = Some uri →
  uri ≠ filePath →
  (∃ rest, uri = "file:///" +:+ rest) ∧
  Forall (λ c, (code c < 128)%N ∧ c ≠ "#"%char ∧ c ≠ "?"%char ∧
               c ≠ "\"%char ∧ c ≠ " "%char)
         (String.list_ascii_of_string uri).
Proof.
  unfold pathToUri, pathToUri_chars. intros Hrun Hne.
  destruct (parseURL plat _) as [url|]; [|done]. cbn [mbind option_bind] in Hrun.
  destruct (negb _).
  { cbn in Hrun. injection Hrun as <-.
    by rewrite String.string_of_list_ascii_of_string in Hne. }
  set (replaced := replaceAll "\" ["/"%char] (String.list_ascii_of_string filePath))
    in *.
  assert (∃ tail,
            match replaced with
            | c :: _ => if Ascii.eqb c "/" then replaced else "/"%char :: replaced
            | [] => "/"%char :: replaced
            end = "/"%char :: tail) as [tail Htail].
  { destruct replaced as [|c r]; [by eexists|].
    destruct (Ascii.eqb_spec c "/") as [->|_]; by eexists. }
  rewrite Htail in Hrun. unfold encodeURI, Encode in Hrun.
  destruct (wellFormed _); [|done]. cbn [mbind option_bind] in Hrun.
  rewrite escapeHashAndQuestion_encoded in Hrun. cbn [fmap option_fmap option_map] in Hrun.
  injection Hrun as <-.
  change (escapePath (String.list_ascii_of_string "file://" ++ "/"%char :: tail))
    with (String.list_ascii_of_string "file:///" ++ escapePath tail).
  split.
  - by exists (String.string_of_list_ascii (escapePath tail)).
  - cbn [String.list_ascii_of_string].
    rewrite String.list_ascii_of_string_of_list_ascii.
    repeat (constructor; [repeat split; done|]).
    apply Forall_forall. intros c Hc%list_elem_of_In.
    pose proof (proj1 (forallb_forall _ _) (escapePath_safe tail) c Hc)
      as [Hlow Hnone]%andb_true_iff.
    apply N.ltb_lt in Hlow. split; [done|].
    repeat split; intros ->; done.
Qed.

End uri_more_facts.

Lemma pathToUri_file_uri_witness :
  Uri.pathToUri Uri.posix "/a b#c" = Some "file:///a%20b%23c" ∧
  ∃ rest, "file:///a%20b%23c" = "file:///" +:+ rest.
Proof.
  split; [reflexivity|].
  by apply (pathToUri_file_uri Uri.posix "/a b#c" "file:///a%20b%23c").
Defined.
